(** * Partial runs and synchronous task generation of the TFX orchestrator

    A shallow embedding of
    - [tfx/orchestration/portable/partial_run_utils.py] and
    - [tfx/orchestration/experimental/core/sync_pipeline_task_gen.py],
    with the properties their specification states about them. *)

From stdpp Require Import gmap strings list sets relations.

#[global] Set Warnings "-clear-no-such-hyp".

Open Scope string_scope.
Open Scope list_scope.
Open Scope nat_scope.

(** ** Python exceptions and fallible computations *)

(** Only the class of an exception is kept; the messages are not modelled.
    [OutOfFuel] is not a Python exception: it marks the exhaustion of the
    fuel of a [while] loop, which [traverse_while_total] shows never
    happens. *)
Inductive exn : Type :=
  | ValueError
  | KeyError
  | LookupError
  | NotFoundError
  | OutOfFuel.

Inductive result (A : Type) : Type :=
  | Ok (a : A)
  | Raise (e : exn).

Arguments Ok {A} a.
Arguments Raise {A} e.

Definition rbind {A B : Type} (m : result A) (k : A → result B) : result B :=
  match m with
  | Ok a => k a
  | Raise e => Raise e
  end.

#[global] Instance result_bind : MBind result := λ A B k m, rbind m k.
#[global] Instance result_ret : MRet result := λ A a, Ok a.
#[global] Instance result_fmap : FMap result :=
  λ A B f m, rbind m (λ a, Ok (f a)).

#[global] Instance exn_eq_dec : EqDecision exn.
Proof. solve_decision. Defined.

#[global] Instance result_eq_dec {A : Type} `{EqDecision A}
  : EqDecision (result A).
Proof. solve_decision. Defined.

(** ** The pipeline IR (the fields of [pipeline_pb2] the code reads) *)

Inductive ArtifactReuseStrategy : Type :=
  | latest_pipeline_run_strategy
  | base_pipeline_run_strategy (base_run_id : string).

(** [ChiefSettings] holds the oneof [artifact_reuse_strategy]. *)
Record ChiefSettings : Type := mkChiefSettings {
  artifact_reuse_strategy : option ArtifactReuseStrategy
}.

Record Run : Type := mkRun { chief_settings : option ChiefSettings }.

Record Skip : Type := mkSkip { child_in_partial_run : bool }.

(** The oneof [partial_run_option] of [NodeExecutionOptions]. *)
Inductive PartialRunOption : Type :=
  | pro_unset
  | pro_run (r : Run)
  | pro_skip (s : Skip).

Record NodeExecutionOptions : Type := mkExecOpts {
  enable_cache : bool;   (* caching_options.enable_cache *)
  partial_run_option : PartialRunOption
}.

(** An input spec is kept as the list of the [producer_node_query.id] of
    its channels. *)
Record InputSpec : Type := mkInputSpec { channels : list string }.

Record PipelineNode : Type := mkNode {
  node_id : string;              (* node_info.id *)
  node_type : string;            (* node_info.type.name *)
  upstream_nodes : list string;
  downstream_nodes : list string;
  inputs : list (string * InputSpec);   (* inputs.inputs, a map *)
  execution_options : NodeExecutionOptions
}.

Definition default_node : PipelineNode :=
  mkNode "" "" [] [] [] (mkExecOpts false pro_unset).

(** [Pipeline.PipelineOrNode]: the oneof [node]. *)
Inductive PipelineOrNode : Type :=
  | pipeline_node (n : PipelineNode)
  | sub_pipeline.

(** Reading [.pipeline_node] of an entry that holds a sub-pipeline gives the
    default message. *)
Definition get_pipeline_node (pn : PipelineOrNode) : PipelineNode :=
  match pn with
  | pipeline_node n => n
  | sub_pipeline => default_node
  end.

(** The node ids of a sequence of nodes, in order. *)
Definition node_ids (ns : list PipelineOrNode) : list string :=
  (λ pn, node_id (get_pipeline_node pn)) <$> ns.

Inductive ExecutionMode : Type :=
  | EXECUTION_MODE_UNSPECIFIED
  | SYNC
  | ASYNC.

#[global] Instance ExecutionMode_eq_dec : EqDecision ExecutionMode.
Proof. solve_decision. Defined.

Record Pipeline : Type := mkPipeline {
  pipeline_info_id : string;             (* pipeline_info.id *)
  nodes : list PipelineOrNode;
  execution_mode : ExecutionMode;
  (* runtime_spec.pipeline_run_id: [Some s] when field_value is set *)
  pipeline_run_id : option string
}.

(** ** [collections.OrderedDict] with string keys

    Entries are kept in insertion order; assigning to a key that is already
    present replaces the value and keeps the position. *)
Definition odict (V : Type) : Type := list (string * V).

Fixpoint od_get {V : Type} (m : odict V) (k : string) : option V :=
  match m with
  | [] => None
  | (k', v) :: m' => if decide (k = k') then Some v else od_get m' k
  end.

Fixpoint od_set {V : Type} (k : string) (v : V) (m : odict V) : odict V :=
  match m with
  | [] => [(k, v)]
  | (k', v') :: m' =>
      if decide (k = k') then (k, v) :: m' else (k', v') :: od_set k v m'
  end.

Definition od_keys {V : Type} (m : odict V) : list string := m.*1.

Arguments od_keys : simpl never.

Definition od_mem {V : Type} (m : odict V) (k : string) : bool :=
  bool_decide (k ∈ od_keys m).

(** [node_map[k]], which raises [KeyError] for a missing key. *)
Definition od_item {V : Type} (m : odict V) (k : string) : result V :=
  match od_get m k with
  | Some v => Ok v
  | None => Raise KeyError
  end.

(** ** partial_run_utils: validation *)

Definition _ensure_sync_pipeline (pipeline : Pipeline) : result unit :=
  if decide (execution_mode pipeline ≠ SYNC) then Raise ValueError else Ok tt.

Definition has_sub_pipeline (pn : PipelineOrNode) : bool :=
  match pn with
  | sub_pipeline => true
  | pipeline_node _ => false
  end.

Fixpoint _ensure_no_subpipeline_nodes_loop (ns : list PipelineOrNode)
  : result unit :=
  match ns with
  | [] => Ok tt
  | pn :: rest =>
      if has_sub_pipeline pn then Raise ValueError
      else _ensure_no_subpipeline_nodes_loop rest
  end.

Definition _ensure_no_subpipeline_nodes (pipeline : Pipeline) : result unit :=
  _ensure_no_subpipeline_nodes_loop (nodes pipeline).

Inductive _Direction : Type := UPSTREAM | DOWNSTREAM.

Definition adjacent (direction : _Direction) (node : PipelineNode)
  : list string :=
  match direction with
  | UPSTREAM => upstream_nodes node
  | DOWNSTREAM => downstream_nodes node
  end.

(** One of the two loops of [_ensure_topologically_sorted]: every
    neighbour of a node must have been visited before the node is. *)
Fixpoint sorted_check (direction : _Direction) (visited : gset string)
  (ns : list PipelineOrNode) : result unit :=
  match ns with
  | [] => Ok tt
  | pn :: rest =>
      let node := get_pipeline_node pn in
      if forallb (λ x, bool_decide (x ∈ visited)) (adjacent direction node)
      then sorted_check direction ({[node_id node]} ∪ visited) rest
      else Raise ValueError
  end.

Definition _ensure_topologically_sorted (pipeline : Pipeline) : result unit :=
  sorted_check UPSTREAM ∅ (nodes pipeline) ;;
  sorted_check DOWNSTREAM ∅ (reverse (nodes pipeline)).

(** ** partial_run_utils: the node map and its traversal *)

Definition _make_ordered_node_map (pipeline : Pipeline)
  : odict PipelineNode :=
  fold_left
    (λ result pn,
       od_set (node_id (get_pipeline_node pn)) (get_pipeline_node pn) result)
    (nodes pipeline) [].

(** The body of the [while stack:] loop of [_traverse].  The Python list
    [stack] is kept top first: [stack.pop()] takes the head and
    [stack.extend(xs)] puts the reversed [xs] in front.  [None] means that
    the fuel ran out. *)
Fixpoint traverse_loop (fuel : nat) (node_map : odict PipelineNode)
  (direction : _Direction) (stack : list string) (result_ : gset string)
  : option (result (gset string)) :=
  match fuel with
  | O => None
  | S fuel' =>
      match stack with
      | [] => Some (Ok result_)
      | current_node_id :: stack' =>
          if decide (current_node_id ∈ result_)
          then traverse_loop fuel' node_map direction stack' result_
          else
            match od_item node_map current_node_id with
            | Raise e => Some (Raise e)
            | Ok node =>
                traverse_loop fuel' node_map direction
                  (reverse (adjacent direction node) ++ stack')
                  ({[current_node_id]} ∪ result_)
            end
      end
  end.

(** The number of neighbour references still to be pushed: those of the
    entries whose key is not in [result_]. *)
Fixpoint pending (direction : _Direction) (node_map : odict PipelineNode)
  (result_ : gset string) : nat :=
  match node_map with
  | [] => 0
  | (k, node) :: m' =>
      (if decide (k ∈ result_) then 0 else length (adjacent direction node))
      + pending direction m' result_
  end.

Definition traverse_while (node_map : odict PipelineNode)
  (direction : _Direction) (stack : list string) (result_ : gset string)
  : result (gset string) :=
  match traverse_loop (S (length stack + pending direction node_map result_))
          node_map direction stack result_ with
  | Some r => r
  | None => Raise OutOfFuel
  end.

(** The [for start_node in start_nodes] loop of [_traverse]. *)
Fixpoint traverse_from (node_map : odict PipelineNode)
  (direction : _Direction) (start_nodes : list string) (result_ : gset string)
  : result (gset string) :=
  match start_nodes with
  | [] => Ok result_
  | start_node :: rest =>
      r ← traverse_while node_map direction [start_node] result_;
      traverse_from node_map direction rest r
  end.

Definition _traverse (node_map : odict PipelineNode) (direction : _Direction)
  (start_nodes : list string) : result (gset string) :=
  traverse_from node_map direction start_nodes ∅.

Definition _filter_node_map (node_map : odict PipelineNode)
  (from_node_ids to_node_ids : list string) : result (odict PipelineNode) :=
  ancestors_of_to_nodes ← _traverse node_map UPSTREAM to_node_ids;
  descendents_of_from_nodes ← _traverse node_map DOWNSTREAM from_node_ids;
  let nodes_to_keep := ancestors_of_to_nodes ∩ descendents_of_from_nodes in
  Ok (fold_left
        (λ result_ (item : string * PipelineNode),
           if decide (item.1 ∈ nodes_to_keep)
           then od_set item.1 item.2 result_ else result_)
        node_map []).

(** ** partial_run_utils: fixing the kept nodes *)

Definition _remove_dangling_downstream_nodes (node : PipelineNode)
  (node_ids_to_keep : string → bool) : PipelineNode :=
  let downstream_nodes_to_keep :=
    filter (λ d, node_ids_to_keep d = true) (downstream_nodes node) in
  if decide (length downstream_nodes_to_keep = length (downstream_nodes node))
  then node
  else mkNode (node_id node) (node_type node) (upstream_nodes node)
         downstream_nodes_to_keep (inputs node) (execution_options node).

(** The producer ids of all the channels of all the input specs, in the
    order of the two nested loops. *)
Definition producer_ids (node : PipelineNode) : list string :=
  concat ((λ item : string * InputSpec, channels item.2) <$> inputs node).

Definition _handle_missing_inputs (node : PipelineNode)
  (node_ids_to_keep : string → bool) : PipelineNode * gset string :=
  let upstream_nodes_removed : gset string :=
    list_to_set
      (filter (λ u, node_ids_to_keep u ≠ true) (upstream_nodes node)) in
  let upstream_nodes_to_keep :=
    filter (λ u, node_ids_to_keep u = true) (upstream_nodes node) in
  if decide (upstream_nodes_removed = ∅)
  then (node, ∅)
  else
    let excluded_direct_deps : gset string :=
      list_to_set
        (filter (λ c, c ∈ upstream_nodes_removed) (producer_ids node)) in
    (mkNode (node_id node) (node_type node) upstream_nodes_to_keep
       (downstream_nodes node) (inputs node) (execution_options node),
     excluded_direct_deps).

Definition _fix_nodes (node_map : odict PipelineNode)
  : odict PipelineNode * gset string :=
  fold_left
    (λ (acc : odict PipelineNode * gset string)
       (item : string * PipelineNode),
       let new_node :=
         _remove_dangling_downstream_nodes item.2 (od_mem node_map) in
       let '(new_node, excluded_direct_deps) :=
         _handle_missing_inputs new_node (od_mem node_map) in
       (od_set item.1 new_node acc.1, acc.2 ∪ excluded_direct_deps))
    node_map ([], ∅).

(** ** partial_run_utils: marking *)

(** [opts.run.SetInParent()]: makes [run] the member of the oneof that is
    set.  A [run] message that is already there is left as it is, with
    whatever [chief_settings] it holds. *)
Definition run_SetInParent (o : PartialRunOption) : PartialRunOption :=
  match o with
  | pro_run r => pro_run r
  | _ => pro_run (mkRun None)
  end.

(** [opts.run.chief_settings.CopyFrom(cs)]. *)
Definition run_chief_settings_CopyFrom (cs : ChiefSettings)
  (o : PartialRunOption) : PartialRunOption :=
  pro_run (mkRun (Some cs)).

(** [opts.skip.child_in_partial_run = b]. *)
Definition skip_set_child_in_partial_run (b : bool) (o : PartialRunOption)
  : PartialRunOption :=
  pro_skip (mkSkip b).

Definition update_partial_run_option
  (f : PartialRunOption → PartialRunOption) (pn : PipelineOrNode)
  : PipelineOrNode :=
  let node := get_pipeline_node pn in
  pipeline_node
    (mkNode (node_id node) (node_type node) (upstream_nodes node)
       (downstream_nodes node) (inputs node)
       (mkExecOpts (enable_cache (execution_options node))
          (f (partial_run_option (execution_options node))))).

(** The loop of [_mark_nodes_and_nominate_chief], with the flag
    [chief_already_nominated] as an argument. *)
Fixpoint mark_nodes_loop (ns : list PipelineOrNode)
  (node_ids_to_include excluded_direct_dependencies : gset string)
  (chief_settings_ : ChiefSettings) (chief_already_nominated : bool)
  : list PipelineOrNode :=
  match ns with
  | [] => []
  | pn :: rest =>
      let node_id_ := node_id (get_pipeline_node pn) in
      if decide (node_id_ ∈ node_ids_to_include) then
        if chief_already_nominated then
          update_partial_run_option run_SetInParent pn
          :: mark_nodes_loop rest node_ids_to_include
               excluded_direct_dependencies chief_settings_ true
        else
          update_partial_run_option
            (run_chief_settings_CopyFrom chief_settings_) pn
          :: mark_nodes_loop rest node_ids_to_include
               excluded_direct_dependencies chief_settings_ true
      else
        update_partial_run_option
          (skip_set_child_in_partial_run
             (bool_decide (node_id_ ∈ excluded_direct_dependencies))) pn
        :: mark_nodes_loop rest node_ids_to_include
             excluded_direct_dependencies chief_settings_
             chief_already_nominated
  end.

Definition _mark_nodes_and_nominate_chief (pipeline : Pipeline)
  (node_ids_to_include excluded_direct_dependencies : gset string)
  (chief_settings_ : ChiefSettings) : Pipeline :=
  mkPipeline (pipeline_info_id pipeline)
    (mark_nodes_loop (nodes pipeline) node_ids_to_include
       excluded_direct_dependencies chief_settings_ false)
    (execution_mode pipeline) (pipeline_run_id pipeline).

Definition _default_chief_settings : ChiefSettings :=
  mkChiefSettings (Some latest_pipeline_run_strategy).

(** The pipeline is modified in place: the marked pipeline is returned. *)
Definition mark_pipeline (pipeline : Pipeline)
  (from_nodes to_nodes : string → bool) (chief_settings_ : ChiefSettings)
  : result Pipeline :=
  _ensure_sync_pipeline pipeline ;;
  _ensure_no_subpipeline_nodes pipeline ;;
  _ensure_topologically_sorted pipeline ;;
  let node_map := _make_ordered_node_map pipeline in
  let from_node_ids := filter (λ i, from_nodes i = true) (od_keys node_map) in
  let to_node_ids := filter (λ i, to_nodes i = true) (od_keys node_map) in
  node_map ← _filter_node_map node_map from_node_ids to_node_ids;
  let '(node_map, excluded_direct_dependencies) := _fix_nodes node_map in
  Ok (_mark_nodes_and_nominate_chief pipeline
        (list_to_set (od_keys node_map)) excluded_direct_dependencies
        chief_settings_).

(** Scenario 6 of the specification: A -> B -> C, from = to-be-run B. *)
Definition node_of (i : string) (ups downs : list string) : PipelineOrNode :=
  pipeline_node
    (mkNode i "T" ups downs
       ((λ u, (u, mkInputSpec [u])) <$> ups) (mkExecOpts false pro_unset)).

Definition abc_pipeline : Pipeline :=
  mkPipeline "p"
    [node_of "A" [] ["B"]; node_of "B" ["A"] ["C"]; node_of "C" ["B"] []]
    SYNC (Some "run2").

Definition marks (p : Pipeline) : list (string * PartialRunOption) :=
  (λ pn, (node_id (get_pipeline_node pn),
          partial_run_option (execution_options (get_pipeline_node pn))))
  <$> nodes p.

(** ** The metadata store (MLMD)

    The store and the helper libraries that read and write it
    ([ml_metadata], [execution_lib], [execution_publish_utils],
    [context_lib], [compiler_utils], [constants]) are outside the two source
    files; they are modelled here. *)

(** Modelled from the spec: the [last_known_state] of an execution is one
    of active, successful, failed, cancelled and cached. *)
Inductive ExecutionState : Type :=
  | ACTIVE
  | COMPLETE
  | FAILED
  | CANCELED
  | CACHED.

#[global] Instance ExecutionState_eq_dec : EqDecision ExecutionState.
Proof. solve_decision. Defined.

Record Context : Type := mkContext {
  ctx_id : nat;
  ctx_type_id : nat;
  ctx_name : string;
  ctx_create_time_since_epoch : nat
}.

#[global] Instance Context_eq_dec : EqDecision Context.
Proof. solve_decision. Defined.

Record Execution : Type := mkExecution {
  exec_id : nat;
  exec_type_id : nat;
  last_known_state : ExecutionState;
  custom_properties : list (string * string)
}.

#[global] Instance Execution_eq_dec : EqDecision Execution.
Proof. solve_decision. Defined.

Inductive EventType : Type := INPUT | OUTPUT.

#[global] Instance EventType_eq_dec : EqDecision EventType.
Proof. solve_decision. Defined.

Record Event : Type := mkEvent {
  ev_execution_id : nat;
  ev_artifact_id : nat;
  ev_type : EventType;
  ev_key : string
}.

(** Modelled from the spec: the persisted state of the metadata store:
    context types, contexts, executions, the associations of executions to
    contexts, the input/output events that tie artifacts to executions and
    the parent-context edges.  The store gives out ids in sequence, so the
    id of a row is its position (from 1) and is not stored. *)
Record ContextRow : Type := mkContextRow {
  row_ctx_type_id : nat;
  row_ctx_name : string;
  row_ctx_create_time : nat
}.

Record ExecutionRow : Type := mkExecutionRow {
  row_exec_type_id : nat;
  row_last_known_state : ExecutionState;
  row_custom_properties : list (string * string)
}.

#[global] Instance ExecutionRow_eq_dec : EqDecision ExecutionRow.
Proof. solve_decision. Defined.

Record Store : Type := mkStore {
  context_type_rows : list string;
  context_rows : list ContextRow;
  execution_rows : list ExecutionRow;
  associations : gset (nat * nat);       (* (execution id, context id) *)
  events : list Event;
  parent_contexts : gset (nat * nat);    (* (parent id, child id) *)
  clock : nat
}.

Definition context_of_row (i : nat) (r : ContextRow) : Context :=
  mkContext (S i) (row_ctx_type_id r) (row_ctx_name r) (row_ctx_create_time r).

Definition execution_of_row (i : nat) (r : ExecutionRow) : Execution :=
  mkExecution (S i) (row_exec_type_id r) (row_last_known_state r)
    (row_custom_properties r).

Definition store_contexts (s : Store) : list Context :=
  imap context_of_row (context_rows s).

Definition store_executions (s : Store) : list Execution :=
  imap execution_of_row (execution_rows s).

(** Computations on the store: the state is kept when an exception is
    raised, since what was written before stays written. *)
Definition M (A : Type) : Type := Store → result A * Store.

Definition M_ret {A : Type} (a : A) : M A := λ s, (Ok a, s).

Definition M_bind {A B : Type} (m : M A) (k : A → M B) : M B :=
  λ s, match m s with
       | (Ok a, s') => k a s'
       | (Raise e, s') => (Raise e, s')
       end.

Definition M_raise {A : Type} (e : exn) : M A := λ s, (Raise e, s).

(** A computation that only reads the store. *)
Definition M_read {A : Type} (f : Store → result A) : M A := λ s, (f s, s).

Definition M_write (f : Store → Store) : M unit := λ s, (Ok tt, f s).

#[global] Instance M_mbind : MBind M := λ A B k m, M_bind m k.
#[global] Instance M_mret : MRet M := λ A a, M_ret a.

(** Modelled from the spec: the three context types of the persisted
    state layout. *)
Definition PIPELINE_CONTEXT_TYPE_NAME : string := "pipeline".
Definition PIPELINE_RUN_CONTEXT_TYPE_NAME : string := "pipeline_run".
Definition NODE_CONTEXT_TYPE_NAME : string := "node".

(** Modelled from the spec: the node context name is a deterministic
    function of the pipeline name and the node id. *)
Definition node_context_name (pipeline_name node_id_ : string) : string :=
  pipeline_name +:+ "." +:+ node_id_.

(** *** Reads *)

(** [store.get_context_type(name).id]; the store raises when there is no
    such type. *)
Definition get_context_type (s : Store) (type_name : string) : result nat :=
  match list_find (λ n, n = type_name) (context_type_rows s) with
  | Some (i, _) => Ok (S i)
  | None => Raise NotFoundError
  end.

Definition get_contexts_by_type (s : Store) (type_name : string)
  : list Context :=
  match get_context_type s type_name with
  | Ok t => filter (λ c, ctx_type_id c = t) (store_contexts s)
  | Raise _ => []
  end.

Definition get_context_by_type_and_name (s : Store)
  (type_name context_name : string) : option Context :=
  head (filter (λ c, ctx_name c = context_name)
          (get_contexts_by_type s type_name)).

Definition get_contexts_by_execution (s : Store) (execution_id : nat)
  : list Context :=
  filter (λ c, (execution_id, ctx_id c) ∈ associations s) (store_contexts s).

Definition get_executions_by_context (s : Store) (context_id : nat)
  : list Execution :=
  filter (λ e, (exec_id e, context_id) ∈ associations s) (store_executions s).

(** Modelled from the spec: the association query of the metadata store
    adapter: the executions that are associated with every one of the given
    contexts, in the order of the store; none when no context is given. *)
Definition get_executions_associated_with_all_contexts (s : Store)
  (contexts : list Context) : list Execution :=
  match contexts with
  | [] => []
  | _ =>
      filter (λ e, Forall (λ c, (exec_id e, ctx_id c) ∈ associations s)
                     contexts)
        (store_executions s)
  end.

(** Modelled from the spec: an execution is successful iff its state is
    successful or cached, and active iff its state is not terminal. *)
Definition is_execution_successful (e : Execution) : bool :=
  match last_known_state e with
  | COMPLETE | CACHED => true
  | _ => false
  end.

Definition is_execution_active (e : Execution) : bool :=
  match last_known_state e with
  | ACTIVE => true
  | _ => false
  end.

(** Modelled from the spec: ids grow with time, so newest first is the
    reverse of the order of the store. *)
Definition sort_executions_newest_to_oldest (es : list Execution)
  : list Execution :=
  reverse es.

(** [execution_lib.get_artifacts_dict(mlmd, execution_id, event_type)]: the
    artifacts of the events of that type, by key. *)
Definition get_artifacts_dict (s : Store) (execution_id : nat)
  (event_type : EventType) : list (string * nat) :=
  (λ ev, (ev_key ev, ev_artifact_id ev))
  <$> filter (λ ev, ev_execution_id ev = execution_id
                    ∧ ev_type ev = event_type) (events s).

(** *** Writes *)

Definition set_context_type_rows (s : Store) (l : list string) : Store :=
  mkStore l (context_rows s) (execution_rows s) (associations s) (events s)
    (parent_contexts s) (clock s).

Definition add_context_row (s : Store) (r : ContextRow) : Store :=
  mkStore (context_type_rows s) (context_rows s ++ [r]) (execution_rows s)
    (associations s) (events s) (parent_contexts s) (S (clock s)).

(** Modelled from the spec: [context_lib.register_context_if_not_exists]
    returns the context of the given type and name, creating the type and
    the context when they are missing. *)
Definition register_context_if_not_exists
  (context_type_name context_name : string) : M Context :=
  λ s,
    let '(t, s1) :=
      match get_context_type s context_type_name with
      | Ok t => (t, s)
      | Raise _ =>
          (S (length (context_type_rows s)),
           set_context_type_rows s
             (context_type_rows s ++ [context_type_name]))
      end in
    match get_context_by_type_and_name s1 context_type_name context_name with
    | Some c => (Ok c, s1)
    | None =>
        (Ok (mkContext (S (length (context_rows s1))) t context_name
               (clock s1)),
         add_context_row s1 (mkContextRow t context_name (clock s1)))
    end.

(** Modelled from the spec: [context_lib.put_parent_context_if_not_exists]
    puts the parent-context edge unless it is there already. *)
Definition put_parent_context_if_not_exists (parent_id child_id : nat)
  : M unit :=
  M_write (λ s,
    mkStore (context_type_rows s) (context_rows s) (execution_rows s)
      (associations s) (events s)
      ({[(parent_id, child_id)]} ∪ parent_contexts s) (clock s)).

Definition associate (execution_id : nat) (contexts : list Context)
  (a : gset (nat * nat)) : gset (nat * nat) :=
  list_to_set ((λ c, (execution_id, ctx_id c)) <$> contexts) ∪ a.

(** Modelled from the spec: [execution_publish_utils.register_execution]
    registers a new execution, not yet terminal, with the given type and
    attached contexts, and returns it. *)
Definition register_execution (execution_type_id : nat)
  (contexts : list Context) : M Execution :=
  λ s,
    let new_id := S (length (execution_rows s)) in
    (Ok (mkExecution new_id execution_type_id ACTIVE []),
     mkStore (context_type_rows s) (context_rows s)
       (execution_rows s ++ [mkExecutionRow execution_type_id ACTIVE []])
       (associate new_id contexts (associations s)) (events s)
       (parent_contexts s) (clock s)).

Definition set_cached (r : ExecutionRow) : ExecutionRow :=
  mkExecutionRow (row_exec_type_id r) CACHED (row_custom_properties r).

(** Modelled from the spec: publishing a cached execution writes the
    execution with state CACHED and attaches the supplied output artifacts
    via OUTPUT events, under the supplied contexts.  The execution is looked
    up by id first ([[execution] = store.get_executions_by_id([id])]), which
    fails when there is none. *)
Definition publish_cached_execution (contexts : list Context)
  (execution_id : nat) (output_artifacts : list (string * nat)) : M unit :=
  λ s,
    match execution_id with
    | O => (Raise ValueError, s)
    | S i =>
        match execution_rows s !! i with
        | None => (Raise ValueError, s)
        | Some _ =>
            (Ok tt,
             mkStore (context_type_rows s) (context_rows s)
               (alter set_cached i (execution_rows s))
               (associate execution_id contexts (associations s))
               (events s
                ++ ((λ ka : string * nat,
                       mkEvent execution_id ka.2 OUTPUT ka.1)
                    <$> output_artifacts))
               (parent_contexts s) (clock s))
        end
    end.

(** ** partial_run_utils: reusing the artifacts of a previous run *)

(** Truth value of an [Optional[str]]: [None] and the empty string are
    false. *)
Definition truthy (o : option string) : bool :=
  match o with
  | Some s => bool_decide (s ≠ "")
  | None => false
  end.

Definition _get_validated_new_run_id (pipeline : Pipeline)
  (new_run_id : option string) : result string :=
  let inferred_new_run_id := pipeline_run_id pipeline in
  if negb (truthy inferred_new_run_id || truthy new_run_id)
  then Raise ValueError
  else if truthy new_run_id && truthy inferred_new_run_id
          && bool_decide (new_run_id ≠ inferred_new_run_id)
  then Raise ValueError
  else Ok (default "" (if truthy inferred_new_run_id
                       then inferred_new_run_id else new_run_id)).

Definition has_run (node : PipelineNode) : bool :=
  match partial_run_option (execution_options node) with
  | pro_run _ => true
  | _ => false
  end.

Definition has_skip_with_child (node : PipelineNode) : bool :=
  match partial_run_option (execution_options node) with
  | pro_skip s => child_in_partial_run s
  | _ => false
  end.

Definition _compute_nodes_to_reuse (marked_pipeline : Pipeline)
  : result (gset string) :=
  let node_map := _make_ordered_node_map marked_pipeline in
  let nodes_to_run :=
    node_ids (filter (λ pn, has_run (get_pipeline_node pn) = true)
                (nodes marked_pipeline)) in
  let skipped_nodes_w_included_children :=
    node_ids (filter (λ pn, has_skip_with_child (get_pipeline_node pn) = true)
                (nodes marked_pipeline)) in
  exclusion_set ← _traverse node_map DOWNSTREAM nodes_to_run;
  inclusion_set ← _traverse node_map UPSTREAM
                    skipped_nodes_w_included_children;
  if decide (exclusion_set ## inclusion_set)
  then Ok (list_to_set (od_keys node_map) ∖ exclusion_set)
  else Raise ValueError.

(** The fields of an [_ArtifactRecycler]; [_mlmd] is the store the
    computations run on.  Only [_pipeline_run_contexts] is ever assigned
    after construction. *)
Record _ArtifactRecycler : Type := mkRecycler {
  _pipeline_name : string;
  _pipeline_context : Context;
  _new_run_id : string;
  _pipeline_run_type_id : nat;
  _pipeline_run_contexts : odict Context
}.

Definition set_pipeline_run_contexts (self : _ArtifactRecycler)
  (d : odict Context) : _ArtifactRecycler :=
  mkRecycler (_pipeline_name self) (_pipeline_context self)
    (_new_run_id self) (_pipeline_run_type_id self) d.

Definition _get_pipeline_context (pipeline_name : string) (s : Store)
  : result Context :=
  match get_context_by_type_and_name s PIPELINE_CONTEXT_TYPE_NAME
          pipeline_name with
  | None => Raise LookupError
  | Some c => Ok c
  end.

(** [_ArtifactRecycler.__init__]. *)
Definition new_ArtifactRecycler (pipeline_name new_run_id : string)
  : M _ArtifactRecycler :=
  pipeline_context ← M_read (_get_pipeline_context pipeline_name);
  pipeline_run_type_id ←
    M_read (λ s, get_context_type s PIPELINE_RUN_CONTEXT_TYPE_NAME);
  pipeline_run_contexts ←
    M_read (λ s,
      Ok (fold_left (λ d run_ctx, od_set (ctx_name run_ctx) run_ctx d)
            (get_contexts_by_type s PIPELINE_RUN_CONTEXT_TYPE_NAME) []));
  mret (mkRecycler pipeline_name pipeline_context new_run_id
          pipeline_run_type_id pipeline_run_contexts).

Definition _get_pipeline_run_context (self : _ArtifactRecycler)
  (run_id : string) (register_if_not_found : bool)
  : M (Context * _ArtifactRecycler) :=
  self ←
    (if od_mem (_pipeline_run_contexts self) run_id then mret self
     else if register_if_not_found then
       pipeline_run_context ←
         register_context_if_not_exists PIPELINE_RUN_CONTEXT_TYPE_NAME
           run_id;
       mret (set_pipeline_run_contexts self
               (od_set run_id pipeline_run_context
                  (_pipeline_run_contexts self)))
     else M_raise LookupError);
  c ← M_read (λ _, od_item (_pipeline_run_contexts self) run_id);
  mret (c, self).

Definition get_latest_pipeline_run_id (self : _ArtifactRecycler)
  : result string :=
  let latest_previous_run_ctx :=
    fold_left
      (λ (latest : option Context) (item : string * Context),
         let pipeline_run_context := item.2 in
         if decide (ctx_name pipeline_run_context = _new_run_id self)
         then latest
         else
           match latest with
           | None => Some pipeline_run_context
           | Some l =>
               if decide (ctx_create_time_since_epoch l
                          < ctx_create_time_since_epoch pipeline_run_context)
               then Some pipeline_run_context
               else latest
           end)
      (_pipeline_run_contexts self) None in
  match latest_previous_run_ctx with
  | None => Raise LookupError
  | Some l => Ok (ctx_name l)
  end.

Definition _get_node_context (self : _ArtifactRecycler) (node_id_ : string)
  (s : Store) : result Context :=
  match get_context_by_type_and_name s NODE_CONTEXT_TYPE_NAME
          (node_context_name (_pipeline_name self) node_id_) with
  | None => Raise LookupError
  | Some c => Ok c
  end.

(** With [register_if_not_found] false, [_get_pipeline_run_context] only
    reads the dictionary. *)
Definition _get_successful_executions (self : _ArtifactRecycler)
  (node_id_ run_id : string) : M (list Execution) :=
  node_context ← M_read (_get_node_context self node_id_);
  '(base_run_context, self) ← _get_pipeline_run_context self run_id false;
  all_associated_executions ←
    M_read (λ s,
      Ok (get_executions_associated_with_all_contexts s
            [node_context; base_run_context; _pipeline_context self]));
  let prev_successful_executions :=
    filter (λ e, is_execution_successful e = true)
      all_associated_executions in
  match prev_successful_executions with
  | [] => M_raise LookupError
  | _ => mret (sort_executions_newest_to_oldest prev_successful_executions)
  end.

(** The loop of [_get_cached_execution_contexts] over the contexts of the
    existing execution. *)
Fixpoint cached_execution_contexts_loop (self : _ArtifactRecycler)
  (contexts result_ : list Context)
  : M (list Context * _ArtifactRecycler) :=
  match contexts with
  | [] => mret (result_, self)
  | context :: rest =>
      '(context, self) ←
        (if decide (ctx_type_id context = _pipeline_run_type_id self)
         then _get_pipeline_run_context self (_new_run_id self) true
         else mret (context, self));
      cached_execution_contexts_loop self rest (result_ ++ [context])
  end.

Definition _get_cached_execution_contexts (self : _ArtifactRecycler)
  (existing_execution : Execution) : M (list Context * _ArtifactRecycler) :=
  contexts ←
    M_read (λ s, Ok (get_contexts_by_execution s (exec_id existing_execution)));
  cached_execution_contexts_loop self contexts [].

Definition _cache_and_publish (self : _ArtifactRecycler)
  (existing_execution : Execution) : M _ArtifactRecycler :=
  '(cached_execution_contexts, self) ←
    _get_cached_execution_contexts self existing_execution;
  prev_cache_executions ←
    M_read (λ s,
      Ok (get_executions_associated_with_all_contexts s
            cached_execution_contexts));
  new_execution ←
    match last prev_cache_executions with
    | None =>
        e ← register_execution (exec_type_id existing_execution)
              cached_execution_contexts;
        mret (Some e)
    | Some prev =>
        if decide (last_known_state prev = CACHED) then mret None
        else mret (Some prev)
    end;
  match new_execution with
  | None => mret self                       (* the early [return] *)
  | Some new_execution =>
      output_artifacts ←
        M_read (λ s,
          Ok (get_artifacts_dict s (exec_id existing_execution) OUTPUT));
      publish_cached_execution cached_execution_contexts
        (exec_id new_execution) output_artifacts;;
      mret self
  end.

Definition put_parent_context (self : _ArtifactRecycler)
  (base_run_id : string) : M _ArtifactRecycler :=
  '(base_run_context, self) ← _get_pipeline_run_context self base_run_id false;
  '(new_run_context, self) ←
    _get_pipeline_run_context self (_new_run_id self) true;
  put_parent_context_if_not_exists (ctx_id base_run_context)
    (ctx_id new_run_context);;
  mret self.

Fixpoint cache_and_publish_all (self : _ArtifactRecycler)
  (previous_executions : list Execution) : M _ArtifactRecycler :=
  match previous_executions with
  | [] => mret self
  | previous_execution :: rest =>
      self ← _cache_and_publish self previous_execution;
      cache_and_publish_all self rest
  end.

(** [_ArtifactRecycler.reuse_node_outputs]. *)
Definition recycler_reuse_node_outputs (self : _ArtifactRecycler)
  (node_id_ base_run_id : string) : M _ArtifactRecycler :=
  previous_executions ← _get_successful_executions self node_id_ base_run_id;
  cache_and_publish_all self previous_executions.

Fixpoint reuse_all_nodes (self : _ArtifactRecycler)
  (node_ids_ : list string) (base_run_id : string) : M _ArtifactRecycler :=
  match node_ids_ with
  | [] => mret self
  | node_id_ :: rest =>
      self ← recycler_reuse_node_outputs self node_id_ base_run_id;
      reuse_all_nodes self rest base_run_id
  end.

Section reuse.

(** [nodes_to_reuse] is a Python [set]: the order in which the [for] loop
    visits it is not fixed by the program. *)
Variable set_order : gset string → list string.

Definition reuse_pipeline_run_artifacts (marked_pipeline : Pipeline)
  (base_run_id new_run_id : option string) : M unit :=
  validated_new_run_id ←
    M_read (λ _, _get_validated_new_run_id marked_pipeline new_run_id);
  nodes_to_reuse ← M_read (λ _, _compute_nodes_to_reuse marked_pipeline);
  artifact_recycler ←
    new_ArtifactRecycler (pipeline_info_id marked_pipeline)
      validated_new_run_id;
  base_run_id ←
    (if truthy base_run_id then mret (default "" base_run_id)
     else M_read (λ _, get_latest_pipeline_run_id artifact_recycler));
  artifact_recycler ←
    reuse_all_nodes artifact_recycler (set_order nodes_to_reuse) base_run_id;
  put_parent_context artifact_recycler base_run_id;;
  mret tt.

(** The part of the world [snapshot] acts on: the metadata store behind
    [mlmd_connection_config] and the number of connections opened to it. *)
Record World : Type := mkWorld {
  mlmd : Store;
  connections_opened : nat
}.

Definition snapshot (pipeline_node_ : PipelineNode) (pipeline : Pipeline)
  (w : World) : result unit * World :=
  match partial_run_option (execution_options pipeline_node_) with
  | pro_run (mkRun (Some chief_settings_)) =>
      let base_run_id : result (option string) :=
        match artifact_reuse_strategy chief_settings_ with
        | Some (base_pipeline_run_strategy base_run_id) => Ok (Some base_run_id)
        | Some latest_pipeline_run_strategy => Ok None
        | None => Raise ValueError
        end in
      match base_run_id with
      | Raise e => (Raise e, w)
      | Ok base_run_id =>
          (* with metadata.Metadata(connection_config=...) as m: *)
          let '(r, s) :=
            reuse_pipeline_run_artifacts pipeline base_run_id None (mlmd w) in
          (r, mkWorld s (S (connections_opened w)))
      end
  | _ => (Ok tt, w)
  end.

End reuse.

(** * sync_pipeline_task_gen: the task generator of a sync pipeline *)

(** ** Values the generator emits and reads

    [task_lib], [pstate], [service_jobs] and [status_lib] are outside the
    two source files. *)

(** Modelled from the spec: the state of a node is one of STARTING,
    RUNNING, COMPLETE, FAILED, SKIPPED, STOPPING and STOPPED. *)
Module NodeState.
Inductive t : Type :=
  | STARTING
  | RUNNING
  | COMPLETE
  | FAILED
  | SKIPPED
  | STOPPING
  | STOPPED.
#[global] Instance eq_dec : EqDecision t.
Proof. solve_decision. Defined.
End NodeState.

(** Modelled from the spec: the service-job manager answers RUNNING,
    SUCCESS or FAILED. *)
Module ServiceStatus.
Inductive t : Type :=
  | RUNNING
  | SUCCESS
  | FAILED.
#[global] Instance eq_dec : EqDecision t.
Proof. solve_decision. Defined.
End ServiceStatus.

(** The two codes of [status_lib.Code] the generator uses. *)
Module Code.
Inductive t : Type :=
  | OK
  | ABORTED.
#[global] Instance eq_dec : EqDecision t.
Proof. solve_decision. Defined.
End Code.

(** [status_lib.Status(code=..., message=...)]; the message defaults to the
    empty string. *)
Record Status : Type := mkStatus {
  status_code : Code.t;
  status_message : string
}.

#[global] Instance Status_eq_dec : EqDecision Status.
Proof. solve_decision. Defined.

(** Modelled from the spec: a pipeline uid identifies the pipeline; a node
    uid is a pipeline uid and a node id. *)
Definition PipelineUid : Type := string.

Record NodeUid : Type := mkNodeUid {
  node_uid_pipeline_uid : PipelineUid;
  node_uid_node_id : string
}.

#[global] Instance NodeUid_eq_dec : EqDecision NodeUid.
Proof. solve_decision. Defined.

(** Modelled from the spec: the execution custom property that carries the
    failure message. *)
Definition EXECUTION_ERROR_MSG_KEY : string := "__execution_error_msg__".

(** ** The successful-nodes cache: [cachetools.LRUCache(maxsize=1024)]

    All the values stored are [True], so the cache is kept as the list of
    its keys, least recently used first.  Reading a key that is present and
    writing a key both make it the most recently used; writing a new key to
    a full cache first evicts the least recently used. *)
Definition CacheKey : Type := string * NodeUid.

Definition LRU_MAXSIZE : nat := 1024.

Definition lru_touch (k : CacheKey) (c : list CacheKey) : list CacheKey :=
  filter (λ x, x ≠ k) c ++ [k].

(** [cache.get(k, False)]. *)
Definition lru_get (k : CacheKey) (c : list CacheKey)
  : bool * list CacheKey :=
  if decide (k ∈ c) then (true, lru_touch k c) else (false, c).

(** [cache[k] = True]. *)
Definition lru_set (k : CacheKey) (c : list CacheKey) : list CacheKey :=
  if decide (k ∈ c) then lru_touch k c
  else drop (S (length c) - LRU_MAXSIZE) c ++ [k].

Section task_gen.

(** [W] is the world outside the generator: the metadata store, the
    pipeline state, the task queue, the service jobs and the file system.
    The other types are those of artifact dictionaries, execution
    properties, executor specs and task ids. *)
Context {W Artifacts ExecProperties ExecutorSpec TaskId : Type}.

(** What [task_gen_utils.generate_resolved_info] returns. *)
Record ResolvedInfo : Type := mkResolvedInfo {
  ri_contexts : list Context;
  ri_exec_properties : ExecProperties;
  ri_input_artifacts : option Artifacts
}.

(** Modelled from the spec: the three kinds of task. *)
Record ExecNodeTask : Type := mkExecNodeTask {
  ent_node_uid : NodeUid;
  ent_execution_id : nat;
  ent_contexts : list Context;
  ent_input_artifacts : Artifacts;
  ent_exec_properties : ExecProperties;
  ent_output_artifacts : Artifacts;
  ent_executor_output_uri : string;
  ent_stateful_working_dir : string;
  ent_pipeline : Pipeline
}.

Inductive Task : Type :=
  | UpdateNodeStateTask (node_uid : NodeUid) (state : NodeState.t)
      (status : option Status)
  | ExecNodeTask_ (t : ExecNodeTask)
  | FinalizePipelineTask (pipeline_uid : PipelineUid) (status : Status).

Definition is_update_node_state_task (t : Task) : bool :=
  match t with UpdateNodeStateTask _ _ _ => true | _ => false end.

Definition is_exec_node_task (t : Task) : bool :=
  match t with ExecNodeTask_ _ => true | _ => false end.

Definition is_finalize_pipeline_task (t : Task) : bool :=
  match t with FinalizePipelineTask _ _ => true | _ => false end.

(** The code the generator calls and that is outside the two source files.
    Nothing is assumed about it: a function that reads the world takes it,
    one that may write it returns the new one too. *)
Record Collaborators : Type := mkCollaborators {
  (* tfx.utils.topsort *)
  topsort_topsorted_layers :
    list PipelineNode → (PipelineNode → string) →
    (PipelineNode → result (list PipelineNode)) →
    (PipelineNode → result (list PipelineNode)) →
    result (list (list PipelineNode));
  (* task_lib *)
  pipeline_uid_from_pipeline : Pipeline → PipelineUid;
  exec_node_task_id_from_pipeline_node : Pipeline → PipelineNode → TaskId;
  str_node_uid : NodeUid → string;
  (* the pipeline state, a context manager *)
  pipeline_state_enter : W → W;
  pipeline_state_exit : W → W;
  get_node_state : NodeUid → W → NodeState.t;
  (* the service job manager *)
  is_pure_service_node : string → W → bool;
  is_mixed_service_node : string → W → bool;
  ensure_node_services : string → W → ServiceStatus.t * W;
  (* the task queue *)
  is_task_id_tracked_fn : TaskId → W → bool;
  (* task_gen_utils *)
  get_executions : PipelineNode → W → list Execution;
  get_latest_execution : list Execution → option Execution;
  generate_task_from_active_execution :
    Pipeline → PipelineNode → list Execution → W → option ExecNodeTask;
  generate_resolved_info : PipelineNode → W → option ResolvedInfo * W;
  (* execution_publish_utils *)
  tg_register_execution :
    string → list Context → Artifacts → ExecProperties → W → Execution * W;
  tg_publish_cached_execution :
    list Context → nat → Artifacts → W → W;
  (* outputs_utils.OutputsResolver(node, pipeline_info, runtime_spec,
     execution_mode) and outputs_utils.make_output_dirs *)
  generate_output_artifacts : PipelineNode → Pipeline → nat → Artifacts;
  get_executor_output_uri : PipelineNode → Pipeline → nat → W → string * W;
  get_stateful_working_directory :
    PipelineNode → Pipeline → nat → W → string * W;
  make_output_dirs : Artifacts → W → W;
  (* cache_utils *)
  get_cache_context :
    PipelineNode → Pipeline → option ExecutorSpec → Artifacts → Artifacts →
    ExecProperties → W → Context * W;
  get_cached_outputs : Context → W → option Artifacts;
  (* pstate.record_state_change_time *)
  record_state_change_time : W → W;
  (* pipeline.deployment_config, unpacked: the executor specs when it is an
     IntermediateDeploymentConfig *)
  deployment_config_executor_specs : Pipeline → option (odict ExecutorSpec);
  (* the order in which a [for] loop visits a Python set *)
  set_iteration_order : gset string → list string
}.

Context (env : Collaborators).

(** The generator object.  [_mlmd_handle], [_pipeline_state],
    [_is_task_id_tracked_fn] and [_service_job_manager] are the world and
    the collaborators. *)
Record SyncPipelineTaskGenerator : Type := mkGenerator {
  _pipeline : Pipeline;
  _pipeline_uid : PipelineUid;
  _pipeline_run_id : string
}.


(** What a call of [generate] works on: the world and the process-wide
    successful-nodes cache. *)
Record GenState : Type := mkGenState {
  world : W;
  successful_nodes_cache : list CacheKey
}.

Definition set_world (st : GenState) (w : W) : GenState :=
  mkGenState w (successful_nodes_cache st).

Definition NodeUid_from_pipeline_node (pipeline : Pipeline)
  (node : PipelineNode) : NodeUid :=
  mkNodeUid (pipeline_uid_from_pipeline env pipeline) (node_id node).

Definition _node_cache_key (self : SyncPipelineTaskGenerator)
  (node_uid : NodeUid) : CacheKey :=
  (_pipeline_run_id self, node_uid).

Definition _in_successful_nodes_cache (self : SyncPipelineTaskGenerator)
  (node_uid : NodeUid) (st : GenState) : bool * GenState :=
  let '(hit, c) :=
    lru_get (_node_cache_key self node_uid) (successful_nodes_cache st) in
  (hit, mkGenState (world st) c).

Definition _update_successful_nodes_cache (self : SyncPipelineTaskGenerator)
  (node_ids_ : gset string) (st : GenState) : GenState :=
  fold_left
    (λ st node_id_,
       let node_uid := mkNodeUid (_pipeline_uid self) node_id_ in
       mkGenState (world st)
         (lru_set (_node_cache_key self node_uid)
            (successful_nodes_cache st)))
    (set_iteration_order env node_ids_) st.

Definition _upstream_nodes_successful (node : PipelineNode)
  (successful_node_ids : gset string) : bool :=
  bool_decide (list_to_set (upstream_nodes node) ⊆ successful_node_ids).

Definition _abort_task (self : SyncPipelineTaskGenerator)
  (error_msg : string) : Task :=
  FinalizePipelineTask (_pipeline_uid self)
    (mkStatus Code.ABORTED
       ("Aborting pipeline execution due to node execution failure; error: "
        +:+ error_msg)).

Definition _ensure_node_services_if_pure (self : SyncPipelineTaskGenerator)
  (node_id_ : string) (w : W) : option ServiceStatus.t * W :=
  if is_pure_service_node env node_id_ w
  then let '(status, w) := ensure_node_services env node_id_ w in
       (Some status, w)
  else (None, w).

Definition _ensure_node_services_if_mixed (self : SyncPipelineTaskGenerator)
  (node_id_ : string) (w : W) : option ServiceStatus.t * W :=
  if is_mixed_service_node env node_id_ w
  then let '(status, w) := ensure_node_services env node_id_ w in
       (Some status, w)
  else (None, w).

Definition _get_executor_spec (pipeline : Pipeline) (node_id_ : string)
  : option ExecutorSpec :=
  match deployment_config_executor_specs env pipeline with
  | None => None
  | Some executor_specs => od_get executor_specs node_id_
  end.

(** The two tasks every failure emits: the node goes to FAILED with status
    ABORTED and the pipeline is aborted. *)
Definition failure_tasks (self : SyncPipelineTaskGenerator)
  (node_uid : NodeUid) (status_msg abort_msg : string) : list Task :=
  [UpdateNodeStateTask node_uid NodeState.FAILED
     (Some (mkStatus Code.ABORTED status_msg));
   _abort_task self abort_msg].

(** [_resolve_inputs_and_generate_tasks_for_node]: the tasks, the new
    [successful_node_ids] and the new world. *)
Definition _resolve_inputs_and_generate_tasks_for_node
  (self : SyncPipelineTaskGenerator) (node : PipelineNode)
  (node_executions : list Execution) (successful_node_ids : gset string)
  (w : W) : list Task * gset string * W :=
  let node_uid := NodeUid_from_pipeline_node (_pipeline self) node in
  let '(resolved_info, w) := generate_resolved_info env node w in
  match resolved_info with
  | None =>
      ([UpdateNodeStateTask node_uid NodeState.SKIPPED None],
       {[node_id node]} ∪ successful_node_ids, w)
  | Some resolved_info =>
      match ri_input_artifacts resolved_info with
      | None =>
          let error_msg :=
            "failure to resolve inputs; node uid: "
            +:+ str_node_uid env node_uid in
          (failure_tasks self node_uid error_msg error_msg,
           successful_node_ids, w)
      | Some input_artifacts =>
          let '(execution, w) :=
            tg_register_execution env (node_type node)
              (ri_contexts resolved_info) input_artifacts
              (ri_exec_properties resolved_info) w in
          let output_artifacts :=
            generate_output_artifacts env node (_pipeline self)
              (exec_id execution) in
          let '(cache_context, w) :=
            get_cache_context env node (_pipeline self)
              (_get_executor_spec (_pipeline self) (node_id node))
              input_artifacts output_artifacts
              (ri_exec_properties resolved_info) w in
          let contexts := ri_contexts resolved_info ++ [cache_context] in
          let cached_outputs :=
            if enable_cache (execution_options node)
            then get_cached_outputs env cache_context w else None in
          match cached_outputs with
          | Some cached_outputs =>
              let w :=
                tg_publish_cached_execution env contexts (exec_id execution)
                  cached_outputs w in
              let w := record_state_change_time env w in
              ([UpdateNodeStateTask node_uid NodeState.COMPLETE None],
               {[node_id node]} ∪ successful_node_ids, w)
          | None =>
              let '(service_status, w) :=
                _ensure_node_services_if_mixed self (node_id node) w in
              if decide (service_status = Some ServiceStatus.FAILED) then
                let error_msg :=
                  "associated service job failed; node uid: "
                  +:+ str_node_uid env node_uid in
                (failure_tasks self node_uid error_msg error_msg,
                 successful_node_ids, w)
              else
                let w := make_output_dirs env output_artifacts w in
                let '(executor_output_uri, w) :=
                  get_executor_output_uri env node (_pipeline self)
                    (exec_id execution) w in
                let '(stateful_working_dir, w) :=
                  get_stateful_working_directory env node (_pipeline self)
                    (exec_id execution) w in
                ([UpdateNodeStateTask node_uid NodeState.RUNNING None;
                  ExecNodeTask_
                    (mkExecNodeTask node_uid (exec_id execution) contexts
                       input_artifacts (ri_exec_properties resolved_info)
                       output_artifacts executor_output_uri
                       stateful_working_dir (_pipeline self))],
                 successful_node_ids, w)
          end
      end
  end.

(** The end of [_generate_tasks_for_node]: a task is rebuilt from an active
    execution if there is one, and inputs are resolved afresh otherwise. *)
Definition active_execution_or_resolve (self : SyncPipelineTaskGenerator)
  (node : PipelineNode) (node_executions : list Execution)
  (successful_node_ids : gset string) (w : W)
  : list Task * gset string * W :=
  let node_uid := NodeUid_from_pipeline_node (_pipeline self) node in
  match generate_task_from_active_execution env (_pipeline self) node
          node_executions w with
  | Some exec_node_task =>
      ([UpdateNodeStateTask node_uid NodeState.RUNNING None;
        ExecNodeTask_ exec_node_task],
       successful_node_ids, w)
  | None =>
      _resolve_inputs_and_generate_tasks_for_node self node node_executions
        successful_node_ids w
  end.

(** The part of [_generate_tasks_for_node] that follows the lookup in the
    successful-nodes cache and the check of the upstream nodes; it only acts
    on the world. *)
Definition generate_tasks_for_ready_node (self : SyncPipelineTaskGenerator)
  (node : PipelineNode) (successful_node_ids : gset string) (w : W)
  : list Task * gset string * W :=
  let node_uid := NodeUid_from_pipeline_node (_pipeline self) node in
  let node_id_ := node_id node in
  (* with self._pipeline_state: *)
  let w := pipeline_state_enter env w in
  let node_state := get_node_state env node_uid w in
  let w := pipeline_state_exit env w in
  if decide (node_state = NodeState.STOPPING ∨ node_state = NodeState.STOPPED)
  then ([], successful_node_ids, w)
  else
    let '(service_status, w) :=
      _ensure_node_services_if_pure self node_id_ w in
    match service_status with
    | Some ServiceStatus.FAILED =>
        let error_msg :=
          "service job failed; node uid: " +:+ str_node_uid env node_uid in
        (failure_tasks self node_uid error_msg error_msg,
         successful_node_ids, w)
    | Some ServiceStatus.SUCCESS =>
        ([UpdateNodeStateTask node_uid NodeState.COMPLETE None],
         {[node_id_]} ∪ successful_node_ids, w)
    | Some ServiceStatus.RUNNING =>
        ([UpdateNodeStateTask node_uid NodeState.RUNNING None],
         successful_node_ids, w)
    | None =>
        if is_task_id_tracked_fn env
             (exec_node_task_id_from_pipeline_node env (_pipeline self) node)
             w
        then
          let '(service_status, w) :=
            _ensure_node_services_if_mixed self node_id_ w in
          if decide (service_status = Some ServiceStatus.FAILED) then
            let error_msg :=
              "associated service job failed; node uid: "
              +:+ str_node_uid env node_uid in
            (failure_tasks self node_uid error_msg error_msg,
             successful_node_ids, w)
          else ([], successful_node_ids, w)
        else
          let node_executions := get_executions env node w in
          let latest_execution := get_latest_execution env node_executions in
          match latest_execution with
          | Some latest =>
              if is_execution_successful latest then
                ([UpdateNodeStateTask node_uid NodeState.COMPLETE None],
                 {[node_id_]} ∪ successful_node_ids, w)
              else if negb (is_execution_active latest)
                      && bool_decide (node_state ≠ NodeState.STARTING)
              then
                let error_msg :=
                  default ""
                    (od_get (custom_properties latest)
                       EXECUTION_ERROR_MSG_KEY) in
                (failure_tasks self node_uid error_msg
                   ("node failed; node uid: " +:+ str_node_uid env node_uid
                    +:+ "; error: " +:+ error_msg),
                 successful_node_ids, w)
              else
                active_execution_or_resolve self node node_executions
                  successful_node_ids w
          | None =>
              active_execution_or_resolve self node node_executions
                successful_node_ids w
          end
    end.

(** [_generate_tasks_for_node]: the tasks and the [successful_node_ids]
    set, which the Python code updates in place. *)
Definition _generate_tasks_for_node (self : SyncPipelineTaskGenerator)
  (node : PipelineNode) (successful_node_ids : gset string) (st : GenState)
  : list Task * gset string * GenState :=
  let node_uid := NodeUid_from_pipeline_node (_pipeline self) node in
  let '(hit, st) := _in_successful_nodes_cache self node_uid st in
  if hit then ([], {[node_id node]} ∪ successful_node_ids, st)
  else if negb (_upstream_nodes_successful node successful_node_ids)
  then ([], successful_node_ids, st)
  else
    let '(tasks, successful_node_ids, w) :=
      generate_tasks_for_ready_node self node successful_node_ids
        (world st) in
    (tasks, successful_node_ids, set_world st w).

(** ** [generate] *)

Fixpoint result_mapM {A B : Type} (f : A → result B) (l : list A)
  : result (list B) :=
  match l with
  | [] => Ok []
  | a :: l' => b ← f a; bs ← result_mapM f l'; Ok (b :: bs)
  end.

Definition _topsorted_layers (pipeline : Pipeline)
  : result (list (list PipelineNode)) :=
  let node_by_id := _make_ordered_node_map pipeline in
  topsort_topsorted_layers env (get_pipeline_node <$> nodes pipeline)
    node_id
    (λ node, result_mapM (od_item node_by_id) (upstream_nodes node))
    (λ node, result_mapM (od_item node_by_id) (downstream_nodes node)).

Definition _terminal_node_ids (layers : list (list PipelineNode))
  : gset string :=
  list_to_set
    (node_id <$> filter (λ node, downstream_nodes node = []) (concat layers)).

(** The local variables of [generate] that the loops update. *)
Record Locals : Type := mkLocals {
  exec_node_tasks : list Task;
  update_node_state_tasks : list Task;
  successful_node_ids_ : gset string;
  finalize_pipeline_task : option Task
}.

(** The body of [for task in tasks]. *)
Definition sort_task (l : Locals) (task : Task) : Locals :=
  if is_update_node_state_task task then
    mkLocals (exec_node_tasks l) (update_node_state_tasks l ++ [task])
      (successful_node_ids_ l) (finalize_pipeline_task l)
  else if is_exec_node_task task then
    mkLocals (exec_node_tasks l ++ [task]) (update_node_state_tasks l)
      (successful_node_ids_ l) (finalize_pipeline_task l)
  else
    mkLocals (exec_node_tasks l) (update_node_state_tasks l)
      (successful_node_ids_ l) (Some task).

(** [for node in layer_nodes], left with [break] once a finalize task is
    there. *)
Fixpoint generate_layer (self : SyncPipelineTaskGenerator)
  (layer_nodes : list PipelineNode) (l : Locals) (st : GenState)
  : Locals * GenState :=
  match layer_nodes with
  | [] => (l, st)
  | node :: rest =>
      let '(tasks, successful, st) :=
        _generate_tasks_for_node self node (successful_node_ids_ l) st in
      let l :=
        fold_left sort_task tasks
          (mkLocals (exec_node_tasks l) (update_node_state_tasks l)
             successful (finalize_pipeline_task l)) in
      match finalize_pipeline_task l with
      | Some _ => (l, st)
      | None => generate_layer self rest l st
      end
  end.

(** [for layer_nodes in layers]. *)
Fixpoint generate_layers (self : SyncPipelineTaskGenerator)
  (layers : list (list PipelineNode)) (l : Locals) (st : GenState)
  : Locals * GenState :=
  match layers with
  | [] => (l, st)
  | layer_nodes :: rest =>
      let '(l, st) := generate_layer self layer_nodes l st in
      match finalize_pipeline_task l with
      | Some _ => (l, st)
      | None =>
          let layer_node_ids : gset string :=
            list_to_set (node_id <$> layer_nodes) in
          let successful_layer_node_ids :=
            layer_node_ids ∩ successful_node_ids_ l in
          let st :=
            _update_successful_nodes_cache self successful_layer_node_ids
              st in
          generate_layers self rest l st
      end
  end.

Definition generate (self : SyncPipelineTaskGenerator) (st : GenState)
  : result (list Task) * GenState :=
  match _topsorted_layers (_pipeline self) with
  | Raise e => (Raise e, st)
  | Ok layers =>
      let terminal_node_ids := _terminal_node_ids layers in
      let '(l, st) :=
        generate_layers self layers (mkLocals [] [] ∅ None) st in
      let result_ := update_node_state_tasks l in
      (Ok (match finalize_pipeline_task l with
           | Some task => result_ ++ [task]
           | None =>
               if decide (terminal_node_ids ⊆ successful_node_ids_ l)
               then result_
                    ++ [FinalizePipelineTask (_pipeline_uid self)
                          (mkStatus Code.OK "")]
               else result_ ++ exec_node_tasks l
           end), st)
  end.

End task_gen.

Arguments Collaborators : clear implicits.
Arguments Task : clear implicits.
Arguments ExecNodeTask : clear implicits.
Arguments ResolvedInfo : clear implicits.
Arguments GenState : clear implicits.
Arguments Locals : clear implicits.

(** ** Notions used to state the properties of the marker *)

(** [edge node_map direction x y]: [y] is a neighbour of [x] in the given
    direction. *)
Definition edge (node_map : odict PipelineNode) (direction : _Direction)
  (x y : string) : Prop :=
  ∃ n, od_get node_map x = Some n ∧ y ∈ adjacent direction n.

(** Every neighbour named by an entry of the map is a key of the map. *)
Definition linked (node_map : odict PipelineNode) (direction : _Direction)
  : Prop :=
  ∀ k n x, od_get node_map k = Some n → x ∈ adjacent direction n →
           x ∈ od_keys node_map.

(** [R] is closed under [edge], except for neighbours still waiting on the
    stack. *)
Definition closed_upto (node_map : odict PipelineNode)
  (direction : _Direction) (R : gset string) (stack : list string) : Prop :=
  ∀ x y, x ∈ R → edge node_map direction x y → y ∈ R ∨ y ∈ stack.

(** The node map [mark_pipeline] holds after [_filter_node_map]: the kept
    nodes. *)
Definition kept_node_map (p : Pipeline) (from_nodes to_nodes : string → bool)
  : result (odict PipelineNode) :=
  let node_map := _make_ordered_node_map p in
  _filter_node_map node_map
    (filter (λ i, from_nodes i = true) (od_keys node_map))
    (filter (λ i, to_nodes i = true) (od_keys node_map)).

(** The ids [mark_pipeline] keeps ([to_keep], passed on as
    [node_ids_to_include]) and the [excluded_direct_dependencies]. *)
Definition mark_plan (p : Pipeline) (from_nodes to_nodes : string → bool)
  : result (gset string * gset string) :=
  kept ← kept_node_map p from_nodes to_nodes;
  Ok (list_to_set (od_keys (_fix_nodes kept).1), (_fix_nodes kept).2).

(** [selected p pred direction i]: node [i] is reachable, in the given
    direction, from a node of the pipeline whose id satisfies [pred].  A
    node is reachable from itself. *)
Definition selected (p : Pipeline) (pred : string → bool)
  (direction : _Direction) (i : string) : Prop :=
  ∃ s, s ∈ node_ids (nodes p) ∧ pred s = true
       ∧ rtc (edge (_make_ordered_node_map p) direction) s i.

Definition marked_run (pn : PipelineOrNode) : Prop :=
  ∃ r, partial_run_option (execution_options (get_pipeline_node pn))
       = pro_run r.

Definition marked_skip (pn : PipelineOrNode) : Prop :=
  ∃ s, partial_run_option (execution_options (get_pipeline_node pn))
       = pro_skip s.

(** [execution_options.run.HasField('chief_settings')]. *)
Definition carries_chief_settings (pn : PipelineOrNode) : bool :=
  match partial_run_option (execution_options (get_pipeline_node pn)) with
  | pro_run (mkRun (Some _)) => true
  | _ => false
  end.

(** The [run.chief_settings] a node carries, if any. *)
Definition chief_settings_of (pn : PipelineOrNode) : option ChiefSettings :=
  match partial_run_option (execution_options (get_pipeline_node pn)) with
  | pro_run r => chief_settings r
  | _ => None
  end.

(** A -> B, where B was the chief of an earlier marking. *)
Definition ab_pipeline : Pipeline :=
  mkPipeline "p" [node_of "A" [] ["B"]; node_of "B" ["A"] []] SYNC
    (Some "run2").

(** A -> B where the edge is a control dependency only: B names A as an
    upstream node, but none of its input channels is produced by A. *)
Definition control_dep_pipeline : Pipeline :=
  mkPipeline "p"
    [node_of "A" [] ["B"];
     pipeline_node
       (mkNode "B" "T" ["A"] [] [] (mkExecOpts false pro_unset))]
    SYNC (Some "run2").

(** Whether a chief has been nominated once the nodes [ns] have been
    walked, starting from the flag [b]. *)
Definition nominated (include_ : gset string) (b : bool)
  (ns : list PipelineOrNode) : bool :=
  b || existsb (λ pn, bool_decide (node_id (get_pipeline_node pn) ∈ include_))
         ns.

Arguments nominated : simpl never.

(** What [_fix_nodes] does to one node of the kept map. *)
Definition fix_node (node_ids_to_keep : string → bool) (node : PipelineNode)
  : PipelineNode * gset string :=
  _handle_missing_inputs
    (_remove_dangling_downstream_nodes node node_ids_to_keep)
    node_ids_to_keep.

(** ** Notions used to state the properties of the recycler *)

(** Referential integrity: associations tie existing executions to existing
    contexts. *)
Definition store_wf (s : Store) : Prop :=
  ∀ e c, (e, c) ∈ associations s →
         (0 < e ≤ length (execution_rows s))
         ∧ (0 < c ≤ length (context_rows s)).

(** A store after a first run "run1" of the pipeline A -> B -> C: one
    successful execution per node, each with one output artifact. *)
Definition abc_store : Store :=
  mkStore ["pipeline"; "pipeline_run"; "node"]
    [mkContextRow 1 "p" 0; mkContextRow 2 "run1" 1;
     mkContextRow 3 "p.A" 2; mkContextRow 3 "p.B" 3; mkContextRow 3 "p.C" 4]
    [mkExecutionRow 7 COMPLETE []; mkExecutionRow 8 COMPLETE [];
     mkExecutionRow 9 COMPLETE []]
    {[ (1, 1); (1, 2); (1, 3); (2, 1); (2, 2); (2, 4);
       (3, 1); (3, 2); (3, 5) ]}
    [mkEvent 1 1 OUTPUT "examples"; mkEvent 2 2 OUTPUT "model";
     mkEvent 3 3 OUTPUT "blessing"]
    ∅ 5.

(** The pipeline A -> B -> C marked for a partial run from B. *)
Definition abc_marked : Pipeline :=
  mkPipeline "p"
    (mark_nodes_loop (nodes abc_pipeline) {["B"; "C"]} {["A"]}
       _default_chief_settings false)
    SYNC (Some "run2").

(** The dictionary of pipeline-run contexts as [__init__] builds it. *)
Definition build_run_contexts (s : Store) : odict Context :=
  fold_left (λ d run_ctx, od_set (ctx_name run_ctx) run_ctx d)
    (get_contexts_by_type s PIPELINE_RUN_CONTEXT_TYPE_NAME) [].

(** The recycler [__init__] builds on a store, as a function of the
    store. *)
Definition recycler_of (pipeline_name new_run_id : string) (s : Store)
  : result _ArtifactRecycler :=
  pipeline_context ← _get_pipeline_context pipeline_name s;
  pipeline_run_type_id ← get_context_type s PIPELINE_RUN_CONTEXT_TYPE_NAME;
  Ok (mkRecycler pipeline_name pipeline_context new_run_id
        pipeline_run_type_id (build_run_contexts s)).

(** The recycler is the one [__init__] would build on the store now. *)
Definition in_sync (self : _ArtifactRecycler) (s : Store) : Prop :=
  recycler_of (_pipeline_name self) (_new_run_id self) s = Ok self.

(** The context of the new run: the one in the dictionary, or else the
    one that will be registered. *)
Definition new_run_context (self : _ArtifactRecycler) (s : Store) : Context :=
  match od_get (_pipeline_run_contexts self) (_new_run_id self) with
  | Some c => c
  | None =>
      mkContext (S (length (context_rows s))) (_pipeline_run_type_id self)
        (_new_run_id self) (clock s)
  end.

(** The recycler and the store once the context of the new run has been
    asked for with [register_if_not_found=True]. *)
Definition ensure_new_run_context (self : _ArtifactRecycler) (s : Store)
  : _ArtifactRecycler * Store :=
  if od_mem (_pipeline_run_contexts self) (_new_run_id self) then (self, s)
  else
    (set_pipeline_run_contexts self
       (od_set (_new_run_id self) (new_run_context self s)
          (_pipeline_run_contexts self)),
     add_context_row s
       (mkContextRow (_pipeline_run_type_id self) (_new_run_id self)
          (clock s))).

Definition is_run_context (self : _ArtifactRecycler) (c : Context) : bool :=
  bool_decide (ctx_type_id c = _pipeline_run_type_id self).

Definition replace_run_context (self : _ArtifactRecycler) (cnew c : Context)
  : Context :=
  if decide (ctx_type_id c = _pipeline_run_type_id self) then cnew else c.

(** The recycler and the store once the contexts of an execution have been
    walked by [_get_cached_execution_contexts]. *)
Definition after_contexts (self : _ArtifactRecycler) (s : Store)
  (contexts : list Context) : _ArtifactRecycler * Store :=
  if existsb (is_run_context self) contexts
  then ensure_new_run_context self s else (self, s).

(** The contexts of the cached copy of an execution. *)
Definition cached_contexts (self : _ArtifactRecycler) (cnew : Context)
  (s : Store) (execution_id : nat) : list Context :=
  replace_run_context self cnew <$> get_contexts_by_execution s execution_id.

Definition output_events (s : Store) (from_id to_id : nat) : list Event :=
  (λ ka : string * nat, mkEvent to_id ka.2 OUTPUT ka.1)
  <$> get_artifacts_dict s from_id OUTPUT.

(** The store with one more execution, in state CACHED. *)
Definition add_cached_execution (s : Store) (type_id : nat)
  (contexts : list Context) (evs : list Event) : Store :=
  mkStore (context_type_rows s) (context_rows s)
    (execution_rows s ++ [mkExecutionRow type_id CACHED []])
    (associate (S (length (execution_rows s))) contexts (associations s))
    (events s ++ evs) (parent_contexts s) (clock s).

(** The store with the execution at position [i] set to CACHED. *)
Definition mark_cached (s : Store) (i : nat) (evs : list Event) : Store :=
  mkStore (context_type_rows s) (context_rows s)
    (alter set_cached i (execution_rows s)) (associations s)
    (events s ++ evs) (parent_contexts s) (clock s).

(** What [_cache_and_publish] leaves in the store. *)
Definition cache_and_publish_store (self : _ArtifactRecycler)
  (existing_execution : Execution) (s : Store) : Store :=
  let cs := get_contexts_by_execution s (exec_id existing_execution) in
  let s1 := (after_contexts self s cs).2 in
  let cached :=
    cached_contexts self (new_run_context self s) s
      (exec_id existing_execution) in
  match last (get_executions_associated_with_all_contexts s1 cached) with
  | None =>
      add_cached_execution s1 (exec_type_id existing_execution) cached
        (output_events s1 (exec_id existing_execution)
           (S (length (execution_rows s1))))
  | Some l =>
      if decide (last_known_state l = CACHED) then s1
      else mark_cached s1 (pred (exec_id l))
             (output_events s1 (exec_id existing_execution) (exec_id l))
  end.

Definition assoc_all (s : Store) (execution_id : nat) (cs : list Context)
  : Prop :=
  Forall (λ c, (execution_id, ctx_id c) ∈ associations s) cs.

(** The last of the executions associated with all of [cs] is in state
    CACHED: [_cache_and_publish] has nothing to do for these contexts. *)
Definition last_is_cached (s : Store) (cs : list Context) : Prop :=
  ∃ l, last (get_executions_associated_with_all_contexts s cs) = Some l
       ∧ last_known_state l = CACHED.

(** How the recycler changes the store while it reuses node outputs: it
    may register contexts of the pipeline-run type [tid], it may set
    executions to CACHED and add executions that end up CACHED, and it
    leaves the associations of the executions that were there alone. *)
Record evolves (tid : nat) (s s' : Store) : Prop := mkEvolves {
  ev_types : context_type_rows s' = context_type_rows s;
  ev_contexts :
    ∃ l, context_rows s' = context_rows s ++ l
         ∧ Forall (λ r, row_ctx_type_id r = tid) l;
  ev_rows :
    ∀ i r, execution_rows s !! i = Some r →
           execution_rows s' !! i = Some r
           ∨ execution_rows s' !! i = Some (set_cached r);
  ev_new_rows :
    ∀ i r, execution_rows s' !! i = Some r → execution_rows s !! i = None →
           row_last_known_state r = CACHED;
  ev_assoc :
    ∀ e c, e ≤ length (execution_rows s) →
           ((e, c) ∈ associations s' ↔ (e, c) ∈ associations s)
}.

(** Every execution that a change of the store has touched or added has
    nothing left to do. *)
Definition changed_cached (self : _ArtifactRecycler) (cnew : Context)
  (s s' : Store) : Prop :=
  ∀ q r', execution_rows s' !! q = Some r' →
          execution_rows s !! q ≠ Some r' →
          last_is_cached s' (cached_contexts self cnew s' (S q)).

(** What a run of [_cache_and_publish] over executions whose cached
    contexts are the lists [Y] guarantees about the store it leaves: all of
    them have nothing left to do, and so has every execution that was touched
    or added; a touched execution is associated with all the contexts of one
    of the lists and an added one with contexts of one of the lists only. *)
Definition batch_ok (self : _ArtifactRecycler) (cnew : Context)
  (Y : list (list Context)) (s s' : Store) : Prop :=
  evolves (_pipeline_run_type_id self) s s'
  ∧ store_wf s'
  ∧ parent_contexts s' = parent_contexts s
  ∧ Forall (last_is_cached s') Y
  ∧ changed_cached self cnew s s'
  ∧ (∀ q r', execution_rows s' !! q = Some r' →
             execution_rows s !! q ≠ Some r' →
             (∃ cs, cs ∈ Y ∧ assoc_all s' (S q) cs)
             ∧ (execution_rows s !! q = None →
                ∃ cs, cs ∈ Y
                      ∧ ∀ c, (S q, c) ∈ associations s' →
                             c ∈ ctx_id <$> cs)).

(** An execution of the store that has a context of the pipeline-run
    type. *)
Definition valid_exec (tid : nat) (s : Store) (e : Execution) : Prop :=
  ∃ p, exec_id e = S p ∧ p < length (execution_rows s)
       ∧ ∃ c, c ∈ get_contexts_by_execution s (S p) ∧ ctx_type_id c = tid.

(** ** Notions used to state further properties of the marker *)

(** [reached_from p sel direction i]: node [i] is reachable, in the given
    direction, from a node of the pipeline that satisfies [sel]. *)
Definition reached_from (p : Pipeline) (sel : PipelineNode → bool)
  (direction : _Direction) (i : string) : Prop :=
  ∃ pn, pn ∈ nodes p ∧ sel (get_pipeline_node pn) = true
        ∧ rtc (edge (_make_ordered_node_map p) direction)
            (node_id (get_pipeline_node pn)) i.

(** The upstream and downstream lists of a node map agree: whenever a node
    names another as upstream, that one names it as downstream, and the
    other way round. *)
Definition edges_consistent (node_map : odict PipelineNode) : bool :=
  forallb
    (λ item : string * PipelineNode,
       forallb
         (λ u, match od_get node_map u with
               | Some n' => bool_decide (item.1 ∈ downstream_nodes n')
               | None => false
               end) (upstream_nodes item.2)
       && forallb
            (λ d, match od_get node_map d with
                  | Some n' => bool_decide (item.1 ∈ upstream_nodes n')
                  | None => false
                  end) (downstream_nodes item.2))
    node_map.

(** Y -> K, and X between them in the list: X names Y as upstream and K
    names X, but neither Y nor X names its downstream node X. *)
Definition lopsided_pipeline : Pipeline :=
  mkPipeline "p"
    [node_of "Y" [] ["K"]; node_of "X" ["Y"] []; node_of "K" ["X"; "Y"] []]
    SYNC (Some "run2").

(** Two entries that stand for the same node of the graph: the same id and
    the same neighbours. *)
Definition same_graph_node (pn pn' : PipelineOrNode) : Prop :=
  node_id (get_pipeline_node pn') = node_id (get_pipeline_node pn)
  ∧ upstream_nodes (get_pipeline_node pn')
    = upstream_nodes (get_pipeline_node pn)
  ∧ downstream_nodes (get_pipeline_node pn')
    = downstream_nodes (get_pipeline_node pn).

(** ** The module-level [reuse_node_outputs] of partial_run_utils *)

Definition reuse_node_outputs
  (pipeline_name node_id_ base_run_id new_run_id : string) : M unit :=
  artifact_recycler ← new_ArtifactRecycler pipeline_name new_run_id;
  recycler_reuse_node_outputs artifact_recycler node_id_ base_run_id;;
  mret tt.

(** The recycler [__init__] builds on [abc_store] for the new run
    "run2". *)
Definition abc_recycler : _ArtifactRecycler :=
  mkRecycler "p" (mkContext 1 1 "p" 0) "run2" 2
    [("run1", mkContext 2 2 "run1" 1)].

(** The execution of node A in [abc_store]. *)
Definition abc_execution_A : Execution := mkExecution 1 7 COMPLETE [].

(** [abc_store] with the execution of node B failed. *)
Definition abc_store_B_failed : Store :=
  mkStore (context_type_rows abc_store) (context_rows abc_store)
    [mkExecutionRow 7 COMPLETE []; mkExecutionRow 8 FAILED [];
     mkExecutionRow 9 COMPLETE []]
    (associations abc_store) (events abc_store) (parent_contexts abc_store)
    (clock abc_store).

(** ** Notions used to state the properties of the task generator *)

Section task_gen_props.
Context {W Artifacts ExecProperties ExecutorSpec TaskId : Type}.
Context (env : Collaborators W Artifacts ExecProperties ExecutorSpec TaskId).


(** The collaborators with another [get_cached_outputs]. *)
Definition with_get_cached_outputs
  (f : Context → W → option Artifacts)
  : Collaborators W Artifacts ExecProperties ExecutorSpec TaskId :=
  mkCollaborators (topsort_topsorted_layers env)
    (pipeline_uid_from_pipeline env)
    (exec_node_task_id_from_pipeline_node env) (str_node_uid env)
    (pipeline_state_enter env) (pipeline_state_exit env)
    (get_node_state env) (is_pure_service_node env)
    (is_mixed_service_node env) (ensure_node_services env)
    (is_task_id_tracked_fn env) (get_executions env)
    (get_latest_execution env) (generate_task_from_active_execution env)
    (generate_resolved_info env) (tg_register_execution env)
    (tg_publish_cached_execution env) (generate_output_artifacts env)
    (get_executor_output_uri env) (get_stateful_working_directory env)
    (make_output_dirs env) (get_cache_context env) f
    (record_state_change_time env) (deployment_config_executor_specs env)
    (set_iteration_order env).

End task_gen_props.

(** The three task lists [generate] keeps are sorted by kind. *)
Definition locals_sorted {Artifacts ExecProperties : Type}
  (l : Locals Artifacts ExecProperties) : Prop :=
  Forall (λ t, is_update_node_state_task t = true)
    (update_node_state_tasks l)
  ∧ Forall (λ t, is_exec_node_task t = true) (exec_node_tasks l)
  ∧ (∀ t, finalize_pipeline_task l = Some t →
          is_finalize_pipeline_task t = true).

(** Collaborators for examples.  The world is the log of the calls that
    may write; there are no service nodes, nothing is tracked by the task
    queue, every node is in the given state and has the given executions,
    inputs always resolve and nothing is cached.  Each node is a layer of
    its own. *)
Definition demo_env (node_state : NodeState.t) (executions : list Execution)
  : Collaborators (list string) unit unit unit NodeUid :=
  mkCollaborators
    (λ ns _ _ _, Ok ((λ n, [n]) <$> ns))
    pipeline_info_id
    (λ p n, mkNodeUid (pipeline_info_id p) (node_id n))
    node_uid_node_id
    (λ w, w) (λ w, w)
    (λ _ _, node_state)
    (λ _ _, false) (λ _ _, false)
    (λ _ w, (ServiceStatus.RUNNING, w ++ ["ensure_node_services"]))
    (λ _ _, false)
    (λ _ _, executions) last
    (λ _ _ _ _, None)
    (λ _ w,
       (Some (mkResolvedInfo [] tt (Some tt)),
        w ++ ["generate_resolved_info"]))
    (λ _ _ _ _ w,
       (mkExecution (S (length executions)) 0 ACTIVE [],
        w ++ ["register_execution"]))
    (λ _ _ _ w, w ++ ["publish_cached_execution"])
    (λ _ _ _, tt)
    (λ _ _ _ w, ("uri", w)) (λ _ _ _ w, ("dir", w))
    (λ _ w, w ++ ["make_output_dirs"])
    (λ _ _ _ _ _ _ w,
       (mkContext 0 0 "cache" 0, w ++ ["get_cache_context"]))
    (λ _ _, None)
    (λ w, w)
    (λ _, None)
    elements.

Definition abc_generator : SyncPipelineTaskGenerator :=
  mkGenerator abc_pipeline "p" "run2".

Definition node_B : PipelineNode :=
  get_pipeline_node (node_of "B" ["A"] ["C"]).

Definition node_of_A : PipelineNode :=
  get_pipeline_node (node_of "A" [] ["B"]).

(** The task [demo_env] builds for node A of [abc_pipeline] when it has no
    execution yet. *)
Definition demo_task_A : ExecNodeTask unit unit :=
  mkExecNodeTask (mkNodeUid "p" "A") 1 [mkContext 0 0 "cache" 0] tt tt tt
    "uri" "dir" abc_pipeline.


(** * Properties of the partial-run marker *)

(** ** Ordered dictionaries *)

Section odict_facts.
Context {V : Type}.
Implicit Types (m : odict V) (k : string) (v : V).

Lemma od_get_None m k : od_get m k = None ↔ k ∉ od_keys m.
Proof.
  unfold od_keys. induction m as [|[k' v'] m IH]; simpl.
  - split; [intros _; apply not_elem_of_nil | done].
  - case_decide as Hk; subst.
    + split; [done | intros []; left].
    + rewrite IH, not_elem_of_cons. tauto.
Qed.

Lemma od_get_Some_key m k v : od_get m k = Some v → k ∈ od_keys m.
Proof.
  intros Hget. destruct (decide (k ∈ od_keys m)) as [|Hn]; [done|].
  apply od_get_None in Hn. congruence.
Qed.

Lemma od_get_Some_elem m k v : od_get m k = Some v → (k, v) ∈ m.
Proof.
  induction m as [|[k' v'] m IH]; simpl; [done|].
  case_decide as Hk; [intros [= ->]; rewrite Hk; left | intros; right; auto].
Qed.

Lemma od_key_get m k : k ∈ od_keys m → ∃ v, od_get m k = Some v.
Proof.
  intros Hk. destruct (od_get m k) as [v|] eqn:Hget; [eauto|].
  by apply od_get_None in Hget.
Qed.

Lemma od_keys_set m k v :
  od_keys (od_set k v m)
  = if decide (k ∈ od_keys m) then od_keys m else od_keys m ++ [k].
Proof.
  unfold od_keys. induction m as [|[k' v'] m IH].
  - destruct (decide (k ∈ ([] : odict V).*1)) as [Hin|_]; [|done].
    by apply elem_of_nil in Hin.
  - cbn [od_set]. destruct (decide (k = k')) as [->|Hne].
    + destruct (decide (k' ∈ ((k', v') :: m).*1)) as [|Hn]; [done|].
      destruct Hn. left.
    + cbn [fmap list_fmap fst]. rewrite IH.
      destruct (decide (k ∈ m.*1)) as [Hin|Hin];
        destruct (decide (k ∈ k' :: m.*1)) as [Hin'|Hin']; try done.
      * destruct Hin'. by right.
      * apply elem_of_cons in Hin' as [?|?]; done.
Qed.

Lemma od_keys_set_elem m k v k' :
  k' ∈ od_keys (od_set k v m) ↔ k' = k ∨ k' ∈ od_keys m.
Proof.
  rewrite od_keys_set. case_decide.
  - naive_solver.
  - rewrite elem_of_app, elem_of_cons, elem_of_nil. naive_solver.
Qed.

Lemma od_elem_set m k v k' v' :
  (k', v') ∈ od_set k v m → (k' = k ∧ v' = v) ∨ (k', v') ∈ m.
Proof.
  induction m as [|[k0 v0] m IH]; simpl.
  - rewrite elem_of_cons, elem_of_nil. naive_solver.
  - case_decide; subst; rewrite !elem_of_cons; naive_solver.
Qed.

Lemma od_get_set m k v k' :
  od_get (od_set k v m) k' = if decide (k' = k) then Some v else od_get m k'.
Proof.
  induction m as [|[k0 v0] m IH]; simpl.
  - repeat case_decide; naive_solver.
  - destruct (decide (k = k0)) as [->|Hne]; simpl.
    + repeat case_decide; naive_solver.
    + rewrite IH. repeat case_decide; naive_solver.
Qed.

Lemma od_keys_cons m k v : od_keys ((k, v) :: m) = k :: od_keys m.
Proof. done. Qed.

Lemma od_keys_nil k : k ∈ od_keys ([] : odict V) ↔ False.
Proof. unfold od_keys. simpl. apply elem_of_nil. Qed.

Lemma od_mem_spec m k : od_mem m k = true ↔ k ∈ od_keys m.
Proof. unfold od_mem. apply bool_decide_eq_true. Qed.
End odict_facts.

(** ** The node map of a pipeline *)

Lemma node_map_fold_keys ns acc k :
  k ∈ od_keys
        (fold_left
           (λ r pn, od_set (node_id (get_pipeline_node pn))
                      (get_pipeline_node pn) r) ns acc)
  ↔ k ∈ node_ids ns ∨ k ∈ od_keys acc.
Proof.
  revert acc. induction ns as [|pn ns IH]; intros acc; simpl.
  - rewrite elem_of_nil. naive_solver.
  - rewrite IH, od_keys_set_elem, elem_of_cons. naive_solver.
Qed.

Lemma node_map_keys p k :
  k ∈ od_keys (_make_ordered_node_map p) ↔ k ∈ node_ids (nodes p).
Proof.
  unfold _make_ordered_node_map.
  rewrite node_map_fold_keys, (od_keys_nil (V:=PipelineNode)). naive_solver.
Qed.

Lemma node_map_fold_values ns acc k n :
  (k, n) ∈ fold_left
             (λ r pn, od_set (node_id (get_pipeline_node pn))
                        (get_pipeline_node pn) r) ns acc →
  (∃ pn, pn ∈ ns ∧ n = get_pipeline_node pn) ∨ (k, n) ∈ acc.
Proof.
  revert acc. induction ns as [|pn ns IH]; intros acc; simpl; [auto|].
  intros [(pn' & Hin & ->)|Hacc]%IH.
  - left. exists pn'. split; [by right | done].
  - apply od_elem_set in Hacc as [[_ ->]|Hacc]; [|auto].
    left. exists pn. split; [left | done].
Qed.

Lemma node_map_values p k n :
  od_get (_make_ordered_node_map p) k = Some n →
  ∃ pn, pn ∈ nodes p ∧ n = get_pipeline_node pn.
Proof.
  intros Hget%od_get_Some_elem.
  apply node_map_fold_values in Hget as [?|Hnil]; [done|].
  by apply elem_of_nil in Hnil.
Qed.

(** ** The traversal terminates *)

Section traverse_fuel.
Variables (node_map : odict PipelineNode) (direction : _Direction).

Lemma pending_insert_le (m : odict PipelineNode) c (R : gset string) :
  pending direction m ({[c]} ∪ R) ≤ pending direction m R.
Proof.
  induction m as [|[k n] m IH]; simpl; [lia|].
  destruct (decide (k ∈ R)) as [Hin|Hin].
  - rewrite decide_True by set_solver. lia.
  - destruct (decide (k ∈ {[c]} ∪ R)); lia.
Qed.

Lemma pending_insert_get (m : odict PipelineNode) c (R : gset string) node :
  od_get m c = Some node → c ∉ R →
  pending direction m ({[c]} ∪ R) + length (adjacent direction node)
  ≤ pending direction m R.
Proof.
  intros Hget Hc. induction m as [|[k n] m IH]; simpl in *; [done|].
  destruct (decide (c = k)) as [->|Hne].
  - injection Hget as ->.
    rewrite decide_True by set_solver. rewrite decide_False by done.
    pose proof (pending_insert_le m k R). lia.
  - specialize (IH Hget).
    destruct (decide (k ∈ R)) as [Hin|Hin].
    + rewrite decide_True by set_solver. lia.
    + rewrite decide_False by set_solver. lia.
Qed.

Lemma traverse_loop_fuel fuel stack (R : gset string) :
  length stack + pending direction node_map R < fuel →
  is_Some (traverse_loop fuel node_map direction stack R).
Proof.
  revert stack R. induction fuel as [|fuel IH]; intros stack R Hlt; [lia|].
  simpl. destruct stack as [|c stack]; [eauto|].
  destruct (decide (c ∈ R)) as [Hin|Hin].
  - apply IH. simpl in Hlt. lia.
  - unfold od_item. destruct (od_get node_map c) as [node|] eqn:Hget;
      [|eauto].
    apply IH. rewrite length_app, length_reverse.
    pose proof (pending_insert_get node_map c R node Hget Hin).
    simpl in Hlt. lia.
Qed.

Lemma traverse_loop_exn fuel stack (R : gset string) e :
  traverse_loop fuel node_map direction stack R = Some (Raise e) →
  e = KeyError.
Proof.
  revert stack R. induction fuel as [|fuel IH]; intros stack R; [done|].
  simpl. destruct stack as [|c stack]; [done|].
  destruct (decide (c ∈ R)); [by apply IH|].
  unfold od_item. destruct (od_get node_map c); [by apply IH|].
  by intros [= <-].
Qed.

Lemma traverse_while_loop stack (R : gset string) :
  traverse_loop (S (length stack + pending direction node_map R))
    node_map direction stack R
  = Some (traverse_while node_map direction stack R).
Proof.
  unfold traverse_while.
  destruct (traverse_loop_fuel
              (S (length stack + pending direction node_map R)) stack R)
    as [r Hr]; [lia|].
  by rewrite Hr.
Qed.

(** The fuel given to the loop is never used up. *)
Lemma traverse_while_total stack (R : gset string) :
  traverse_while node_map direction stack R ≠ Raise OutOfFuel.
Proof.
  intros Heq. pose proof (traverse_while_loop stack R) as Hloop.
  rewrite Heq in Hloop. by apply traverse_loop_exn in Hloop.
Qed.
End traverse_fuel.

(** ** The traversal computes reachability *)

Section traverse_spec.
Variables (node_map : odict PipelineNode) (direction : _Direction).

Let step := edge node_map direction.
Let closed_upto := closed_upto node_map direction.

Lemma traverse_loop_ok fuel stack (R : gset string) r :
  linked node_map direction →
  (∀ s, s ∈ stack → s ∈ od_keys node_map) →
  traverse_loop fuel node_map direction stack R = Some r →
  ∃ R', r = Ok R'.
Proof.
  intros Hl. revert stack R.
  induction fuel as [|fuel IH]; intros stack R Hst; [done|].
  simpl. destruct stack as [|c stack]; [intros [= <-]; eauto|].
  destruct (decide (c ∈ R)).
  - apply IH. intros s Hs. apply Hst. by right.
  - destruct (od_key_get node_map c) as [node Hget]; [apply Hst; left|].
    unfold od_item. rewrite Hget. apply IH.
    intros s [Hs|Hs]%elem_of_app.
    + rewrite elem_of_reverse in Hs. exact (Hl c node s Hget Hs).
    + apply Hst. by right.
Qed.

Lemma traverse_loop_spec fuel stack (R R' : gset string) :
  traverse_loop fuel node_map direction stack R = Some (Ok R') →
  closed_upto R stack →
  R ⊆ R' ∧ (∀ s, s ∈ stack → s ∈ R') ∧ closed_upto R' []
  ∧ (∀ y, y ∈ R' → y ∈ R ∨ ∃ s, s ∈ stack ∧ rtc step s y).
Proof.
  revert stack R. induction fuel as [|fuel IH]; intros stack R; [done|].
  simpl. destruct stack as [|c stack].
  - intros [= <-] Hcl. split_and!; [done| |done|auto].
    intros s Hs. by apply elem_of_nil in Hs.
  - destruct (decide (c ∈ R)) as [Hin|Hin].
    + intros Hloop Hcl.
      destruct (IH stack R Hloop) as (Hsub & Hst & Hcl' & Hsound).
      { intros x y Hx Hxy. destruct (Hcl x y Hx Hxy) as [?|Hy]; [auto|].
        apply elem_of_cons in Hy as [->|?]; auto. }
      split_and!; [done| |done|].
      * intros s [->|Hs]%elem_of_cons; [set_solver | auto].
      * intros y Hy. destruct (Hsound y Hy) as [?|(s & Hs & Hrtc)]; [auto|].
        right. exists s. split; [by right | done].
    + unfold od_item. destruct (od_get node_map c) as [node|] eqn:Hget;
        [|done].
      intros Hloop Hcl.
      destruct (IH _ _ Hloop) as (Hsub & Hst & Hcl' & Hsound).
      { intros x y Hx Hxy. rewrite elem_of_app, elem_of_reverse.
        apply elem_of_union in Hx as [Hx|Hx].
        - apply elem_of_singleton in Hx as ->.
          destruct Hxy as (n' & Hget' & Hy).
          rewrite Hget in Hget'. injection Hget' as <-. auto.
        - destruct (Hcl x y Hx Hxy) as [?|Hy]; [set_solver|].
          apply elem_of_cons in Hy as [->|?]; [set_solver | auto]. }
      split_and!; [set_solver| |done|].
      * intros s [->|Hs]%elem_of_cons; [set_solver|].
        apply Hst, elem_of_app. auto.
      * intros y Hy.
        destruct (Hsound y Hy) as [Hy'|(s & Hs & Hrtc)].
        -- apply elem_of_union in Hy' as [->%elem_of_singleton|?]; [|auto].
           right. exists c. split; [left | done].
        -- right. apply elem_of_app in Hs as [Hs|Hs].
           ++ rewrite elem_of_reverse in Hs. exists c. split; [left|].
              eapply rtc_l; [|done]. by exists node.
           ++ exists s. split; [by right | done].
Qed.

Lemma closed_reach (R : gset string) x y :
  closed_upto R [] → rtc step x y → x ∈ R → y ∈ R.
Proof.
  intros Hcl. induction 1 as [|x y z Hxy _ IH]; [done|].
  intros Hx. apply IH. destruct (Hcl x y Hx Hxy) as [?|Hnil]; [done|].
  by apply elem_of_nil in Hnil.
Qed.

Lemma traverse_from_spec start_nodes (R : gset string) :
  linked node_map direction →
  (∀ s, s ∈ start_nodes → s ∈ od_keys node_map) →
  closed_upto R [] →
  ∃ R', traverse_from node_map direction start_nodes R = Ok R'
        ∧ R ⊆ R' ∧ (∀ s, s ∈ start_nodes → s ∈ R') ∧ closed_upto R' []
        ∧ (∀ y, y ∈ R' → y ∈ R ∨ ∃ s, s ∈ start_nodes ∧ rtc step s y).
Proof.
  intros Hl. revert R.
  induction start_nodes as [|s0 starts IH]; intros R Hkeys Hcl; simpl.
  - exists R. split_and!; [done|done| |done|auto].
    intros s Hs. by apply elem_of_nil in Hs.
  - pose proof (traverse_while_loop node_map direction [s0] R) as Hloop.
    assert (Hs0 : ∀ s, s ∈ [s0] → s ∈ od_keys node_map).
    { intros s ->%list_elem_of_singleton. apply Hkeys. left. }
    destruct (traverse_loop_ok _ _ _ _ Hl Hs0 Hloop) as [R1 HR1].
    rewrite HR1 in Hloop |- *.
    apply traverse_loop_spec in Hloop
      as (Hsub1 & Hst1 & Hcl1 & Hsound1).
    2:{ intros x y Hx Hxy.
        destruct (Hcl x y Hx Hxy) as [?|Hnil]; [auto|].
        by apply elem_of_nil in Hnil. }
    destruct (IH R1) as (R' & Heq & Hsub & Hst & Hcl' & Hsound);
      [intros s Hs; apply Hkeys; by right | done |].
    exists R'. simpl. split_and!; [done|set_solver| |done|].
    + intros s [->|Hs]%elem_of_cons; [|auto].
      apply Hsub, Hst1. left.
    + intros y Hy.
      destruct (Hsound y Hy) as [Hy1|(s & Hs & Hrtc)].
      * destruct (Hsound1 y Hy1) as [?|(s & Hs & Hrtc)]; [auto|].
        right. exists s. split; [|done].
        apply elem_of_cons in Hs as [->|Hs]; [left|].
        by apply elem_of_nil in Hs.
      * right. exists s. split; [by right | done].
Qed.

(** [_traverse] returns exactly the ids reachable from the start nodes
    (every start node is reachable from itself). *)
Lemma _traverse_reachable start_nodes :
  linked node_map direction →
  (∀ s, s ∈ start_nodes → s ∈ od_keys node_map) →
  ∃ R : gset string,
    _traverse node_map direction start_nodes = Ok R
    ∧ ∀ y, y ∈ R ↔ ∃ s, s ∈ start_nodes ∧ rtc step s y.
Proof.
  intros Hl Hkeys. unfold _traverse.
  destruct (traverse_from_spec start_nodes ∅ Hl Hkeys)
    as (R & Heq & _ & Hst & Hcl & Hsound); [intros x y Hx; set_solver|].
  exists R. split; [done|]. intros y. split.
  - intros Hy. destruct (Hsound y Hy) as [?|?]; [set_solver | done].
  - intros (s & Hs & Hrtc). eapply closed_reach; eauto.
Qed.
End traverse_spec.

(** ** A topologically sorted pipeline has a linked node map *)

Lemma sorted_check_adjacent direction (visited : gset string) ns :
  sorted_check direction visited ns = Ok tt →
  ∀ pn x, pn ∈ ns → x ∈ adjacent direction (get_pipeline_node pn) →
          x ∈ visited ∨ x ∈ node_ids ns.
Proof.
  revert visited. induction ns as [|pn0 ns IH]; intros visited Hchk pn x Hpn Hx.
  - by apply elem_of_nil in Hpn.
  - simpl in Hchk.
    destruct (forallb _ (adjacent direction (get_pipeline_node pn0)))
      eqn:Hall; [|done].
    apply elem_of_cons in Hpn as [->|Hpn].
    + left. rewrite forallb_forall in Hall.
      apply list_elem_of_In, Hall, bool_decide_eq_true in Hx. done.
    + destruct (IH _ Hchk pn x Hpn Hx) as [Hv|Hids].
      * apply elem_of_union in Hv as [->%elem_of_singleton|?]; [|auto].
        right. left.
      * right. by right.
Qed.

Lemma node_ids_reverse ns x : x ∈ node_ids (reverse ns) ↔ x ∈ node_ids ns.
Proof. unfold node_ids. by rewrite fmap_reverse, elem_of_reverse. Qed.

Lemma sorted_pipeline_linked p direction :
  _ensure_topologically_sorted p = Ok tt →
  linked (_make_ordered_node_map p) direction.
Proof.
  unfold _ensure_topologically_sorted. intros Hchk k n x Hget Hx.
  apply node_map_values in Hget as (pn & Hpn & ->).
  apply node_map_keys.
  destruct (sorted_check UPSTREAM ∅ (nodes p)) as [[]|] eqn:Hup; [|done].
  simpl in Hchk. destruct direction.
  - destruct (sorted_check_adjacent _ _ _ Hup pn x Hpn Hx); set_solver.
  - apply node_ids_reverse.
    destruct (sorted_check_adjacent _ _ _ Hchk pn x) as [?|?];
      [by apply elem_of_reverse | done | set_solver | done].
Qed.

(** ** Filtering and fixing keep the right keys *)

Lemma filter_fold_keys (keep : gset string) (m acc : odict PipelineNode) k :
  k ∈ od_keys
        (fold_left
           (λ r (item : string * PipelineNode),
              if decide (item.1 ∈ keep) then od_set item.1 item.2 r else r)
           m acc)
  ↔ (k ∈ od_keys m ∧ k ∈ keep) ∨ k ∈ od_keys acc.
Proof.
  revert acc. induction m as [|[k0 n0] m IH]; intros acc; simpl.
  - rewrite (od_keys_nil (V:=PipelineNode)). naive_solver.
  - rewrite IH, od_keys_cons, elem_of_cons.
    destruct (decide (k0 ∈ keep)).
    + rewrite od_keys_set_elem. naive_solver.
    + naive_solver.
Qed.

Lemma _filter_node_map_keys node_map from_ids to_ids kept k :
  _filter_node_map node_map from_ids to_ids = Ok kept →
  ∃ anc desc : gset string,
    _traverse node_map UPSTREAM to_ids = Ok anc
    ∧ _traverse node_map DOWNSTREAM from_ids = Ok desc
    ∧ (k ∈ od_keys kept ↔ k ∈ od_keys node_map ∧ k ∈ anc ∧ k ∈ desc).
Proof.
  unfold _filter_node_map.
  destruct (_traverse node_map UPSTREAM to_ids) as [anc|]; [|done].
  destruct (_traverse node_map DOWNSTREAM from_ids) as [desc|]; [|done].
  simpl. intros [= <-]. exists anc, desc. split_and!; [done..|].
  rewrite filter_fold_keys, (od_keys_nil (V:=PipelineNode)). set_solver.
Qed.

Lemma _fix_nodes_fold_keys (keep : string → bool)
  (m : odict PipelineNode) (acc : odict PipelineNode * gset string) k :
  k ∈ od_keys
        (fold_left
           (λ (acc : odict PipelineNode * gset string)
              (item : string * PipelineNode),
              let new_node := _remove_dangling_downstream_nodes item.2 keep in
              let '(new_node, excluded_direct_deps) :=
                _handle_missing_inputs new_node keep in
              (od_set item.1 new_node acc.1, acc.2 ∪ excluded_direct_deps))
           m acc).1
  ↔ k ∈ od_keys m ∨ k ∈ od_keys acc.1.
Proof.
  revert acc. induction m as [|[k0 n0] m IH]; intros acc; simpl.
  - rewrite (od_keys_nil (V:=PipelineNode)). naive_solver.
  - rewrite IH, od_keys_cons, elem_of_cons.
    destruct (_handle_missing_inputs _ _) as [n1 e1]. simpl.
    rewrite od_keys_set_elem. naive_solver.
Qed.

Lemma _fix_nodes_keys node_map k :
  k ∈ od_keys (_fix_nodes node_map).1 ↔ k ∈ od_keys node_map.
Proof.
  unfold _fix_nodes. rewrite _fix_nodes_fold_keys. simpl.
  rewrite (od_keys_nil (V:=PipelineNode)). naive_solver.
Qed.

(** ** The marking loop, node by node *)

Lemma mark_nodes_loop_lookup ns (include_ excl : gset string) cs b j pn :
  ns !! j = Some pn →
  mark_nodes_loop ns include_ excl cs b !! j
  = Some
      (update_partial_run_option
         (if decide (node_id (get_pipeline_node pn) ∈ include_)
          then if nominated include_ b (take j ns)
               then run_SetInParent
               else run_chief_settings_CopyFrom cs
          else skip_set_child_in_partial_run
                 (bool_decide (node_id (get_pipeline_node pn) ∈ excl)))
         pn).
Proof.
  unfold nominated. revert b j.
  induction ns as [|pn0 ns IH]; intros b j Hj; [done|].
  destruct j as [|j]; simpl in *.
  - injection Hj as ->. rewrite orb_false_r.
    destruct (decide _); [by destruct b | done].
  - destruct (decide (node_id (get_pipeline_node pn0) ∈ include_)) as [Hi|Hi].
    + rewrite (bool_decide_eq_true_2 _ Hi). simpl. rewrite orb_true_r.
      destruct b; simpl; rewrite (IH true j Hj); simpl; done.
    + rewrite (bool_decide_eq_false_2 _ Hi). simpl. by rewrite (IH b j Hj).
Qed.

Lemma mark_nodes_loop_length ns (include_ excl : gset string) cs b :
  length (mark_nodes_loop ns include_ excl cs b) = length ns.
Proof.
  revert b. induction ns as [|pn ns IH]; intros b; simpl; [done|].
  destruct (decide _); [destruct b|]; simpl; by rewrite IH.
Qed.

Lemma update_partial_run_option_id f pn :
  node_id (get_pipeline_node (update_partial_run_option f pn))
  = node_id (get_pipeline_node pn).
Proof. done. Qed.

Lemma mark_nodes_loop_ids ns (include_ excl : gset string) cs b :
  node_ids (mark_nodes_loop ns include_ excl cs b) = node_ids ns.
Proof.
  revert b. induction ns as [|pn ns IH]; intros b; simpl; [done|].
  destruct (decide _); [destruct b|]; simpl; unfold node_ids in *;
    simpl; by rewrite IH.
Qed.

(** ** What [mark_pipeline] keeps *)

Lemma linked_rtc_key node_map direction x y :
  linked node_map direction →
  rtc (edge node_map direction) x y → x ∈ od_keys node_map →
  y ∈ od_keys node_map.
Proof.
  intros Hl. induction 1 as [|x y z (n & Hget & Hy) _ IH]; [done|].
  intros _. apply IH. by eapply Hl.
Qed.

Lemma mark_plan_spec p from_nodes to_nodes :
  _ensure_topologically_sorted p = Ok tt →
  ∃ keep excl : gset string,
    mark_plan p from_nodes to_nodes = Ok (keep, excl)
    ∧ ∀ k, k ∈ keep ↔ selected p from_nodes DOWNSTREAM k
                       ∧ selected p to_nodes UPSTREAM k.
Proof.
  intros Hsorted. unfold mark_plan, kept_node_map.
  set (node_map := _make_ordered_node_map p).
  set (from_ids := filter _ (od_keys node_map)).
  set (to_ids := filter (λ i, to_nodes i = true) (od_keys node_map)).
  pose proof (sorted_pipeline_linked p UPSTREAM Hsorted) as Hlu.
  pose proof (sorted_pipeline_linked p DOWNSTREAM Hsorted) as Hld.
  destruct (_traverse_reachable node_map UPSTREAM to_ids Hlu)
    as (anc & Hanc & Hanc_spec).
  { intros s Hs. by apply list_elem_of_filter in Hs as [_ ?]. }
  destruct (_traverse_reachable node_map DOWNSTREAM from_ids Hld)
    as (desc & Hdesc & Hdesc_spec).
  { intros s Hs. by apply list_elem_of_filter in Hs as [_ ?]. }
  destruct (_filter_node_map node_map from_ids to_ids) as [kept|e] eqn:Hf.
  2:{ unfold _filter_node_map in Hf. rewrite Hanc, Hdesc in Hf. done. }
  simpl. eexists _, _. split; [done|].
  intros k. rewrite elem_of_list_to_set, _fix_nodes_keys.
  destruct (_filter_node_map_keys _ _ _ _ k Hf)
    as (anc' & desc' & Hanc' & Hdesc' & ->).
  rewrite Hanc in Hanc'. rewrite Hdesc in Hdesc'.
  injection Hanc' as <-. injection Hdesc' as <-.
  rewrite Hanc_spec, Hdesc_spec. unfold selected. split.
  - intros (_ & (t & Ht & Hrt) & (s & Hs & Hrs)).
    apply list_elem_of_filter in Ht as [Ht Htk].
    apply list_elem_of_filter in Hs as [Hs Hsk].
    split; [exists s | exists t]; split_and!; try done;
      by apply node_map_keys.
  - intros [(s & Hs & Hps & Hrs) (t & Ht & Hpt & Hrt)].
    apply node_map_keys in Hs, Ht. split_and!.
    + by eapply linked_rtc_key.
    + exists t. split; [by apply list_elem_of_filter | done].
    + exists s. split; [by apply list_elem_of_filter | done].
Qed.

Lemma mark_pipeline_unfold p from_nodes to_nodes cs :
  mark_pipeline p from_nodes to_nodes cs
  = (_ensure_sync_pipeline p ;;
     _ensure_no_subpipeline_nodes p ;;
     _ensure_topologically_sorted p ;;
     plan ← mark_plan p from_nodes to_nodes;
     Ok (_mark_nodes_and_nominate_chief p plan.1 plan.2 cs)).
Proof.
  unfold mark_pipeline, mark_plan, kept_node_map.
  destruct (_ensure_sync_pipeline p) as [[]|]; [|done].
  destruct (_ensure_no_subpipeline_nodes p) as [[]|]; [|done].
  destruct (_ensure_topologically_sorted p) as [[]|]; [|done]. simpl.
  destruct (_filter_node_map _ _ _) as [kept|]; [|done]. simpl.
  by destruct (_fix_nodes kept).
Qed.

Lemma mark_pipeline_Ok p from_nodes to_nodes cs p' :
  mark_pipeline p from_nodes to_nodes cs = Ok p' →
  ∃ keep excl,
    mark_plan p from_nodes to_nodes = Ok (keep, excl)
    ∧ p' = _mark_nodes_and_nominate_chief p keep excl cs.
Proof.
  rewrite mark_pipeline_unfold.
  destruct (_ensure_sync_pipeline p) as [[]|]; [|done].
  destruct (_ensure_no_subpipeline_nodes p) as [[]|]; [|done].
  destruct (_ensure_topologically_sorted p) as [[]|]; [|done]. simpl.
  destruct (mark_plan p from_nodes to_nodes) as [[keep excl]|]; [|done].
  simpl. intros [= <-]. by exists keep, excl.
Qed.

(** C5. On a valid SYNC pipeline (the three checks of [mark_pipeline]
    pass), [mark_pipeline] returns, and the nodes it marks [run] are exactly
    those that are both downstream-reachable from a node selected by
    [from_nodes] and upstream-reachable from a node selected by [to_nodes]
    (a node is reachable from itself); every other node is marked [skip]. *)
Theorem mark_pipeline_run_between p from_nodes to_nodes cs :
  _ensure_sync_pipeline p = Ok tt →
  _ensure_no_subpipeline_nodes p = Ok tt →
  _ensure_topologically_sorted p = Ok tt →
  ∃ p', mark_pipeline p from_nodes to_nodes cs = Ok p'
        ∧ node_ids (nodes p') = node_ids (nodes p)
        ∧ ∀ pn', pn' ∈ nodes p' →
            let i := node_id (get_pipeline_node pn') in
            (marked_run pn' ↔ selected p from_nodes DOWNSTREAM i
                              ∧ selected p to_nodes UPSTREAM i)
            ∧ (¬ marked_run pn' → marked_skip pn').
Proof.
  intros Hsync Hsub Hsorted.
  destruct (mark_plan_spec p from_nodes to_nodes Hsorted)
    as (keep & excl & Hplan & Hkeep).
  eexists. split.
  { rewrite mark_pipeline_unfold, Hsync, Hsub, Hsorted, Hplan. done. }
  simpl.
  split; [apply mark_nodes_loop_ids|].
  intros pn' (j & Hj)%list_elem_of_lookup.
  pose proof (lookup_lt_Some _ _ _ Hj) as Hlt.
  rewrite mark_nodes_loop_length in Hlt.
  destruct (lookup_lt_is_Some_2 (nodes p) j Hlt) as [pn Hpn].
  rewrite (mark_nodes_loop_lookup _ _ _ _ _ _ _ Hpn) in Hj.
  injection Hj as <-. simpl. rewrite <- Hkeep.
  unfold marked_run, marked_skip. simpl.
  destruct (decide (node_id (get_pipeline_node pn) ∈ keep)) as [Hin|Hin].
  - assert (∃ r, (if nominated keep false (take j (nodes p))
                  then run_SetInParent else run_chief_settings_CopyFrom cs)
                   (partial_run_option
                      (execution_options (get_pipeline_node pn)))
                 = pro_run r) as Hrun.
    { destruct (nominated _ _ _); [|by eexists].
      destruct (partial_run_option _); by eexists. }
    split; [done|]. intros []. done.
  - split; [|by eexists]. split; [by intros [r ?] | done].
Qed.

Example mark_abc_from_B :
  marks <$> mark_pipeline abc_pipeline (λ i, bool_decide (i = "B"))
              (λ _, true) _default_chief_settings
  = Ok [("A", pro_skip (mkSkip true));
        ("B", pro_run (mkRun (Some _default_chief_settings)));
        ("C", pro_run (mkRun None))].
Proof. vm_compute. reflexivity. Qed.

Lemma mark_pipeline_run_between_witness :
  ∃ p', mark_pipeline abc_pipeline (λ i, bool_decide (i = "B")) (λ _, true)
          _default_chief_settings = Ok p'
        ∧ node_ids (nodes p') = node_ids (nodes abc_pipeline)
        ∧ ∀ pn', pn' ∈ nodes p' →
            let i := node_id (get_pipeline_node pn') in
            (marked_run pn'
             ↔ selected abc_pipeline (λ i, bool_decide (i = "B")) DOWNSTREAM i
               ∧ selected abc_pipeline (λ _, true) UPSTREAM i)
            ∧ (¬ marked_run pn' → marked_skip pn').
Proof.
  apply (mark_pipeline_run_between abc_pipeline); reflexivity.
Defined.

(** ** The chief *)

Lemma kept_node_map_keys p from_nodes to_nodes kept k :
  kept_node_map p from_nodes to_nodes = Ok kept →
  k ∈ od_keys kept → k ∈ node_ids (nodes p).
Proof.
  unfold kept_node_map. intros Hf Hk.
  destruct (_filter_node_map_keys _ _ _ _ k Hf) as (? & ? & _ & _ & Hiff).
  apply node_map_keys. by apply Hiff.
Qed.

Lemma mark_plan_keep_ids p from_nodes to_nodes keep excl k :
  mark_plan p from_nodes to_nodes = Ok (keep, excl) →
  k ∈ keep → k ∈ node_ids (nodes p).
Proof.
  unfold mark_plan.
  destruct (kept_node_map p from_nodes to_nodes) as [kept|] eqn:Hk; [|done].
  simpl. intros [= <- <-].
  rewrite elem_of_list_to_set, _fix_nodes_keys.
  by eapply kept_node_map_keys.
Qed.

(** The first element of a list that satisfies a decidable property. *)
Lemma list_first_such {A} (P : A → Prop) `{∀ x, Decision (P x)}
  (l : list A) x :
  x ∈ l → P x →
  ∃ j y, l !! j = Some y ∧ P y ∧ Forall (λ z, ¬ P z) (take j l).
Proof.
  induction l as [|a l IH]; intros Hx HP; [by apply elem_of_nil in Hx|].
  destruct (decide (P a)) as [Ha|Ha].
  - exists 0, a. by split_and!.
  - apply elem_of_cons in Hx as [->|Hx]; [done|].
    destruct (IH Hx HP) as (j & y & Hj & Hy & Hbefore).
    exists (S j), y. split_and!; [done|done|]. simpl. by constructor.
Qed.

Lemma nominated_false (include_ : gset string) ns :
  nominated include_ false ns = false
  ↔ Forall (λ pn, node_id (get_pipeline_node pn) ∉ include_) ns.
Proof.
  unfold nominated. simpl. induction ns as [|pn ns IH]; simpl.
  - split; [constructor | done].
  - rewrite orb_false_iff, bool_decide_eq_false, IH, Forall_cons. done.
Qed.

Lemma run_SetInParent_chief o :
  match run_SetInParent o with
  | pro_run r => chief_settings r
  | _ => None
  end
  = match o with pro_run r => chief_settings r | _ => None end.
Proof. by destruct o. Qed.

(** C6 (amended). When no node of the pipeline carries [chief_settings]
    before the call and the set of kept ids is not empty, then after
    [mark_pipeline] exactly one node carries [chief_settings]: the first node
    of the sequence whose id is kept, and it carries the settings passed to
    [mark_pipeline]. *)
Theorem mark_pipeline_single_chief p from_nodes to_nodes cs p' keep excl :
  (∀ pn, pn ∈ nodes p → chief_settings_of pn = None) →
  mark_pipeline p from_nodes to_nodes cs = Ok p' →
  mark_plan p from_nodes to_nodes = Ok (keep, excl) →
  keep ≠ ∅ →
  ∃ j pn',
    nodes p' !! j = Some pn'
    ∧ node_id (get_pipeline_node pn') ∈ keep
    ∧ chief_settings_of pn' = Some cs
    ∧ Forall (λ pn, node_id (get_pipeline_node pn) ∉ keep) (take j (nodes p'))
    ∧ ∀ j' pn'', nodes p' !! j' = Some pn'' →
                 is_Some (chief_settings_of pn'') → j' = j.
Proof.
  intros Hfresh Hmark Hplan Hne.
  destruct (mark_pipeline_Ok _ _ _ _ _ Hmark) as (keep' & excl' & Hplan' & ->).
  rewrite Hplan in Hplan'. injection Hplan' as <- <-.
  apply set_choose_L in Hne as [k Hk].
  pose proof (mark_plan_keep_ids _ _ _ _ _ k Hplan Hk) as Hid.
  apply list_elem_of_fmap in Hid as (pn0 & -> & Hpn0).
  destruct (list_first_such
              (λ pn, node_id (get_pipeline_node pn) ∈ keep) (nodes p) pn0
              Hpn0 Hk) as (j & pn & Hj & Hin & Hbefore).
  pose proof (proj2 (nominated_false keep (take j (nodes p))) Hbefore) as Hnom.
  simpl. exists j, (update_partial_run_option
                      (run_chief_settings_CopyFrom cs) pn).
  split_and!.
  - rewrite (mark_nodes_loop_lookup _ _ _ _ _ _ _ Hj).
    by rewrite decide_True, Hnom by done.
  - done.
  - done.
  - apply Forall_forall. intros pn1 (i & Hi)%list_elem_of_lookup.
    apply lookup_take_Some in Hi as [Hi Hlt].
    pose proof (lookup_lt_Some _ _ _ Hi) as Hlen.
    rewrite mark_nodes_loop_length in Hlen.
    destruct (lookup_lt_is_Some_2 (nodes p) i Hlen) as [pn2 Hpn2].
    rewrite (mark_nodes_loop_lookup _ _ _ _ _ _ _ Hpn2) in Hi.
    injection Hi as <-. rewrite update_partial_run_option_id.
    rewrite Forall_forall in Hbefore. apply Hbefore.
    apply list_elem_of_lookup. exists i. by apply lookup_take_Some.
  - intros j' pn'' Hj' Hchief.
    pose proof (lookup_lt_Some _ _ _ Hj') as Hlen.
    rewrite mark_nodes_loop_length in Hlen.
    destruct (lookup_lt_is_Some_2 (nodes p) j' Hlen) as [pn2 Hpn2].
    rewrite (mark_nodes_loop_lookup _ _ _ _ _ _ _ Hpn2) in Hj'.
    injection Hj' as <-.
    assert (chief_settings_of pn2 = None) as Hnone.
    { apply Hfresh, list_elem_of_lookup. by exists j'. }
    revert Hchief. unfold chief_settings_of in *. simpl.
    destruct (decide (node_id (get_pipeline_node pn2) ∈ keep)) as [Hin2|Hin2];
      [|by intros [? [=]]].
    destruct (nominated keep false (take j' (nodes p))) eqn:Hnom'.
    + destruct (partial_run_option (execution_options (get_pipeline_node pn2)))
        as [|[c]|s]; simpl in *; subst; by intros [? [=]].
    + intros _. apply nominated_false in Hnom'.
      destruct (Nat.lt_trichotomy j' j) as [Hlt|[->|Hgt]]; [|done|].
      * rewrite Forall_forall in Hbefore. destruct (Hbefore pn2); [|done].
        apply list_elem_of_lookup. exists j'. by apply lookup_take_Some.
      * rewrite Forall_forall in Hnom'. destruct (Hnom' pn); [|done].
        apply list_elem_of_lookup. exists j. by apply lookup_take_Some.
Qed.

Lemma mark_pipeline_single_chief_witness :
  ∃ j pn',
    nodes (_mark_nodes_and_nominate_chief abc_pipeline {["B"; "C"]} {["A"]}
             _default_chief_settings) !! j = Some pn'
    ∧ node_id (get_pipeline_node pn') ∈ ({["B"; "C"]} : gset string)
    ∧ chief_settings_of pn' = Some _default_chief_settings
    ∧ Forall (λ pn, node_id (get_pipeline_node pn)
                    ∉ ({["B"; "C"]} : gset string))
        (take j (nodes (_mark_nodes_and_nominate_chief abc_pipeline
                          {["B"; "C"]} {["A"]} _default_chief_settings)))
    ∧ ∀ j' pn'',
        nodes (_mark_nodes_and_nominate_chief abc_pipeline {["B"; "C"]}
                 {["A"]} _default_chief_settings) !! j' = Some pn'' →
        is_Some (chief_settings_of pn'') → j' = j.
Proof.
  apply (mark_pipeline_single_chief abc_pipeline
           (λ i, bool_decide (i = "B")) (λ _, true) _default_chief_settings
           _ {["B"; "C"]} {["A"]}).
  - intros pn Hpn. unfold abc_pipeline in Hpn. simpl in Hpn.
    repeat (apply elem_of_cons in Hpn as [->|Hpn]; [reflexivity|]).
    by apply elem_of_nil in Hpn.
  - vm_compute. reflexivity.
  - vm_compute. reflexivity.
  - intros Hempty. assert ("B" ∈ (∅ : gset string)) as Hin.
    { rewrite <- Hempty. set_solver. }
    set_solver.
Defined.

(** C6, as stated, fails: marking a pipeline again does not clear the
    [chief_settings] of the node that was the chief before.  Here B was
    marked chief (from = B) and the pipeline is then marked with the default
    predicates: A becomes the chief and B still carries [chief_settings]. *)
Lemma mark_pipeline_twice_two_chiefs :
  (p1 ← mark_pipeline ab_pipeline (λ i, bool_decide (i = "B")) (λ _, true)
          _default_chief_settings;
   p2 ← mark_pipeline p1 (λ _, true) (λ _, true) _default_chief_settings;
   Ok (marks p2, fst <$> mark_plan p1 (λ _, true) (λ _, true)))
  = Ok ([("A", pro_run (mkRun (Some _default_chief_settings)));
         ("B", pro_run (mkRun (Some _default_chief_settings)))],
        Ok {["A"; "B"]}).
Proof. vm_compute. reflexivity. Qed.

(** ** Fixing the kept nodes *)

Lemma od_set_NoDup {V} (m : odict V) k v :
  NoDup (od_keys m) → NoDup (od_keys (od_set k v m)).
Proof.
  intros Hnd. rewrite od_keys_set. case_decide; [done|].
  apply NoDup_app. split_and!; [done| |apply NoDup_singleton].
  intros x Hx ->%list_elem_of_singleton. done.
Qed.

Lemma filter_fold_NoDup (keep : gset string) (m acc : odict PipelineNode) :
  NoDup (od_keys acc) →
  NoDup (od_keys
           (fold_left
              (λ r (item : string * PipelineNode),
                 if decide (item.1 ∈ keep) then od_set item.1 item.2 r else r)
              m acc)).
Proof.
  revert acc. induction m as [|[k0 n0] m IH]; intros acc Hnd; simpl; [done|].
  apply IH. case_decide; [by apply od_set_NoDup | done].
Qed.

Lemma _filter_node_map_NoDup node_map from_ids to_ids kept :
  _filter_node_map node_map from_ids to_ids = Ok kept → NoDup (od_keys kept).
Proof.
  unfold _filter_node_map.
  destruct (_traverse node_map UPSTREAM to_ids) as [anc|]; [|done].
  destruct (_traverse node_map DOWNSTREAM from_ids) as [desc|]; [|done].
  simpl. intros [= <-]. apply filter_fold_NoDup. constructor.
Qed.

Lemma _remove_dangling_downstream_nodes_upstream node keep :
  upstream_nodes (_remove_dangling_downstream_nodes node keep)
  = upstream_nodes node
  ∧ inputs (_remove_dangling_downstream_nodes node keep) = inputs node.
Proof. unfold _remove_dangling_downstream_nodes. by case_decide. Qed.

Lemma filter_all_id {A} (P : A → Prop) `{∀ x, Decision (P x)} (l : list A) :
  Forall P l → filter P l = l.
Proof.
  induction 1 as [|x l Hx _ IH]; [done|].
  by rewrite filter_cons_True, IH.
Qed.

Lemma _handle_missing_inputs_spec node (keep : string → bool) :
  upstream_nodes (_handle_missing_inputs node keep).1
  = filter (λ u, keep u = true) (upstream_nodes node)
  ∧ ∀ x, x ∈ (_handle_missing_inputs node keep).2
         ↔ x ∈ upstream_nodes node ∧ keep x ≠ true ∧ x ∈ producer_ids node.
Proof.
  unfold _handle_missing_inputs.
  set (removed := list_to_set _ : gset string).
  assert (∀ x, x ∈ removed ↔ x ∈ upstream_nodes node ∧ keep x ≠ true)
    as Hremoved.
  { intros x. unfold removed.
    rewrite elem_of_list_to_set, list_elem_of_filter. tauto. }
  destruct (decide (removed = ∅)) as [Hempty|Hne]; simpl.
  - split.
    + symmetry. apply filter_all_id, Forall_forall. intros u Hu.
      destruct (decide (keep u = true)) as [|Hk]; [done|].
      assert (u ∈ removed) as Hin by (by apply Hremoved).
      rewrite Hempty in Hin. set_solver.
    + intros x. split; [set_solver|].
      intros (Hx & Hk & _). assert (x ∈ removed) as Hin by (by apply Hremoved).
      rewrite Hempty in Hin. set_solver.
  - split; [done|]. intros x.
    rewrite elem_of_list_to_set, list_elem_of_filter, Hremoved. tauto.
Qed.

Lemma fix_node_spec node (keep : string → bool) :
  upstream_nodes (fix_node keep node).1
  = filter (λ u, keep u = true) (upstream_nodes node)
  ∧ ∀ x, x ∈ (fix_node keep node).2
         ↔ x ∈ upstream_nodes node ∧ keep x ≠ true ∧ x ∈ producer_ids node.
Proof.
  unfold fix_node.
  destruct (_handle_missing_inputs_spec
              (_remove_dangling_downstream_nodes node keep) keep) as [-> Hx].
  destruct (_remove_dangling_downstream_nodes_upstream node keep)
    as [Hup Hin].
  rewrite Hup. split; [done|]. intros x. rewrite Hx, Hup.
  unfold producer_ids. by rewrite Hin.
Qed.

Lemma _fix_nodes_fold_spec (keep : string → bool) (m : odict PipelineNode)
  (acc : odict PipelineNode * gset string) :
  NoDup (od_keys m) →
  let r :=
    fold_left
      (λ (acc : odict PipelineNode * gset string)
         (item : string * PipelineNode),
         let new_node := _remove_dangling_downstream_nodes item.2 keep in
         let '(new_node, excluded_direct_deps) :=
           _handle_missing_inputs new_node keep in
         (od_set item.1 new_node acc.1, acc.2 ∪ excluded_direct_deps))
      m acc in
  (∀ k, od_get r.1 k
        = match od_get m k with
          | Some n => Some (fix_node keep n).1
          | None => od_get acc.1 k
          end)
  ∧ (∀ x, x ∈ r.2
          ↔ x ∈ acc.2 ∨ ∃ k n, od_get m k = Some n ∧ x ∈ (fix_node keep n).2).
Proof.
  revert acc. induction m as [|[k0 n0] m IH]; intros acc Hnd; simpl.
  - split; [done|]. intros x. naive_solver.
  - rewrite od_keys_cons in Hnd. apply NoDup_cons in Hnd as [Hk0 Hnd].
    apply od_get_None in Hk0.
    destruct (_handle_missing_inputs
                (_remove_dangling_downstream_nodes n0 keep) keep)
      as [n1 e1] eqn:Hfix.
    assert (fix_node keep n0 = (n1, e1)) as Hfix' by done.
    destruct (IH (od_set k0 n1 acc.1, acc.2 ∪ e1) Hnd) as [Hget Hexcl].
    simpl in Hget, Hexcl. split.
    + intros k. rewrite Hget. destruct (decide (k = k0)) as [->|Hne].
      * by rewrite Hk0, od_get_set, decide_True, Hfix' by done.
      * destruct (od_get m k); [done|]. by rewrite od_get_set, decide_False.
    + intros x. rewrite Hexcl, elem_of_union. split.
      * intros [[?|Hx]|(k & n & Hk & Hx)]; [auto| |].
        -- right. exists k0, n0. rewrite decide_True by done.
           by rewrite Hfix'.
        -- right. exists k, n. destruct (decide (k = k0)) as [->|]; [|done].
           by rewrite Hk0 in Hk.
      * intros [?|(k & n & Hk & Hx)]; [auto|].
        destruct (decide (k = k0)) as [->|].
        -- injection Hk as <-. rewrite Hfix' in Hx. auto.
        -- right. by exists k, n.
Qed.

Lemma _fix_nodes_spec (kept : odict PipelineNode) :
  NoDup (od_keys kept) →
  (∀ k, od_get (_fix_nodes kept).1 k
        = (λ n, (fix_node (od_mem kept) n).1) <$> od_get kept k)
  ∧ (∀ x, x ∈ (_fix_nodes kept).2
          ↔ ∃ k n, od_get kept k = Some n
                   ∧ x ∈ (fix_node (od_mem kept) n).2).
Proof.
  intros Hnd. unfold _fix_nodes.
  destruct (_fix_nodes_fold_spec (od_mem kept) kept ([], ∅) Hnd)
    as [Hget Hexcl].
  split.
  - intros k. rewrite Hget. by destruct (od_get kept k).
  - intros x. rewrite Hexcl. simpl. set_solver.
Qed.

(** C7 (amended). In [mark_pipeline], the node-fixing step drops from the
    upstream list of every kept node each reference that points outside the
    kept nodes; such a reference is recorded in
    [excluded_direct_dependencies] exactly when it is also the producer of
    one of the input channels of the node; and a skipped node gets
    [skip.child_in_partial_run] true exactly when its id is in that set. *)
Theorem mark_pipeline_excluded_direct_dependencies
  p from_nodes to_nodes cs p' :
  mark_pipeline p from_nodes to_nodes cs = Ok p' →
  ∃ kept,
    kept_node_map p from_nodes to_nodes = Ok kept
    ∧ (∀ k n, od_get kept k = Some n →
         ∃ n', od_get (_fix_nodes kept).1 k = Some n'
               ∧ upstream_nodes n'
                 = filter (λ u, u ∈ od_keys kept) (upstream_nodes n))
    ∧ (∀ x, x ∈ (_fix_nodes kept).2
            ↔ ∃ k n, od_get kept k = Some n ∧ x ∈ upstream_nodes n
                     ∧ (x ∉ od_keys kept) ∧ x ∈ producer_ids n)
    ∧ (∀ pn', pn' ∈ nodes p' →
         node_id (get_pipeline_node pn') ∉ od_keys kept →
         partial_run_option (execution_options (get_pipeline_node pn'))
         = pro_skip
             (mkSkip (bool_decide (node_id (get_pipeline_node pn')
                                   ∈ (_fix_nodes kept).2)))).
Proof.
  intros Hmark.
  destruct (mark_pipeline_Ok _ _ _ _ _ Hmark) as (keep & excl & Hplan & ->).
  unfold mark_plan in Hplan.
  destruct (kept_node_map p from_nodes to_nodes) as [kept|] eqn:Hkept;
    [|done].
  simpl in Hplan. injection Hplan as <- <-.
  exists kept. split; [done|].
  pose proof (_filter_node_map_NoDup _ _ _ _ Hkept) as Hnd.
  destruct (_fix_nodes_spec kept Hnd) as [Hget Hexcl].
  assert (∀ u, od_mem kept u = true ↔ u ∈ od_keys kept) as Hmem
    by (intros; apply od_mem_spec).
  split_and!.
  - intros k n Hk. rewrite Hget, Hk. simpl. eexists. split; [done|].
    destruct (fix_node_spec n (od_mem kept)) as [-> _].
    by apply list_filter_iff.
  - intros x. rewrite Hexcl. split.
    + intros (k & n & Hk & Hx). exists k, n.
      apply fix_node_spec in Hx as (? & Hnk & ?).
      split_and!; [done..| |done]. by rewrite <- Hmem.
    + intros (k & n & Hk & Hu & Hnk & Hprod). exists k, n. split; [done|].
      apply fix_node_spec. split_and!; [done| |done]. by rewrite Hmem.
  - intros pn' (j & Hj)%list_elem_of_lookup Hout. simpl in Hj.
    pose proof (lookup_lt_Some _ _ _ Hj) as Hlt.
    rewrite mark_nodes_loop_length in Hlt.
    destruct (lookup_lt_is_Some_2 (nodes p) j Hlt) as [pn Hpn].
    rewrite (mark_nodes_loop_lookup _ _ _ _ _ _ _ Hpn) in Hj.
    injection Hj as <-. rewrite update_partial_run_option_id in Hout |- *.
    rewrite decide_False; [done|].
    by rewrite elem_of_list_to_set, _fix_nodes_keys.
Qed.

Lemma mark_pipeline_excluded_direct_dependencies_witness :
  ∃ kept,
    kept_node_map abc_pipeline (λ i, bool_decide (i = "B")) (λ _, true)
    = Ok kept
    ∧ (∀ k n, od_get kept k = Some n →
         ∃ n', od_get (_fix_nodes kept).1 k = Some n'
               ∧ upstream_nodes n'
                 = filter (λ u, u ∈ od_keys kept) (upstream_nodes n))
    ∧ (∀ x, x ∈ (_fix_nodes kept).2
            ↔ ∃ k n, od_get kept k = Some n ∧ x ∈ upstream_nodes n
                     ∧ (x ∉ od_keys kept) ∧ x ∈ producer_ids n)
    ∧ (∀ pn',
         pn' ∈ nodes (_mark_nodes_and_nominate_chief abc_pipeline
                        {["B"; "C"]} {["A"]} _default_chief_settings) →
         node_id (get_pipeline_node pn') ∉ od_keys kept →
         partial_run_option (execution_options (get_pipeline_node pn'))
         = pro_skip
             (mkSkip (bool_decide (node_id (get_pipeline_node pn')
                                   ∈ (_fix_nodes kept).2)))).
Proof.
  apply (mark_pipeline_excluded_direct_dependencies abc_pipeline
           (λ i, bool_decide (i = "B")) (λ _, true) _default_chief_settings).
  vm_compute. reflexivity.
Defined.

(** C7, as stated, fails for an upstream node that is a control dependency
    only: B keeps no reference to A, yet A is not recorded in
    [excluded_direct_dependencies] and its [child_in_partial_run] is
    false. *)
Lemma removed_upstream_not_recorded :
  ∃ kept nB,
    kept_node_map control_dep_pipeline (λ i, bool_decide (i = "B"))
      (λ _, true) = Ok kept
    ∧ od_get kept "B" = Some nB
    ∧ upstream_nodes nB = ["A"]
    ∧ od_keys kept = ["B"]
    ∧ upstream_nodes <$> od_get (_fix_nodes kept).1 "B" = Some []
    ∧ (_fix_nodes kept).2 = ∅
    ∧ marks <$> mark_pipeline control_dep_pipeline
                  (λ i, bool_decide (i = "B")) (λ _, true)
                  _default_chief_settings
      = Ok [("A", pro_skip (mkSkip false));
            ("B", pro_run (mkRun (Some _default_chief_settings)))].
Proof.
  eexists _, _. split_and!; vm_compute; reflexivity.
Qed.

(** * [snapshot] *)

(** C9. When the node's [execution_options.run] has [chief_settings] but
    these hold neither [base_pipeline_run_strategy] nor
    [latest_pipeline_run_strategy], [snapshot] raises [ValueError] and the
    world is as before: no connection to the metadata store was opened.  When
    [chief_settings] is absent, [snapshot] returns and the world, the metadata
    store included, is as before. *)
Theorem snapshot_chief_settings_guard
  (set_order : gset string → list string)
  (pipeline_node_ : PipelineNode) (pipeline : Pipeline) (w : World) :
  (∀ cs, partial_run_option (execution_options pipeline_node_)
         = pro_run (mkRun (Some cs)) →
         artifact_reuse_strategy cs = None →
         snapshot set_order pipeline_node_ pipeline w = (Raise ValueError, w))
  ∧ (chief_settings_of (pipeline_node pipeline_node_) = None →
     snapshot set_order pipeline_node_ pipeline w = (Ok tt, w)).
Proof.
  unfold snapshot, chief_settings_of. simpl. split.
  - intros cs -> Hnone. by rewrite Hnone.
  - destruct (partial_run_option (execution_options pipeline_node_))
      as [|[[cs|]]|]; simpl; done.
Qed.

Lemma snapshot_chief_settings_guard_witness :
  snapshot elements
    (mkNode "B" "T" [] [] []
       (mkExecOpts false (pro_run (mkRun (Some (mkChiefSettings None))))))
    abc_marked (mkWorld abc_store 0)
  = (Raise ValueError, mkWorld abc_store 0)
  ∧ snapshot elements
      (mkNode "C" "T" [] [] [] (mkExecOpts false (pro_run (mkRun None))))
      abc_marked (mkWorld abc_store 0)
    = (Ok tt, mkWorld abc_store 0).
Proof.
  split.
  - apply (snapshot_chief_settings_guard elements
             (mkNode "B" "T" [] [] []
                (mkExecOpts false
                   (pro_run (mkRun (Some (mkChiefSettings None))))))
             abc_marked (mkWorld abc_store 0)
             ) with (cs := mkChiefSettings None); reflexivity.
  - apply (snapshot_chief_settings_guard elements
             (mkNode "C" "T" [] [] [] (mkExecOpts false (pro_run (mkRun None))))
             abc_marked (mkWorld abc_store 0)).
    reflexivity.
Defined.

(** The chief of a partial run from B opens one connection and recycles
    the outputs of A. *)
Example snapshot_chief_abc :
  let '(r, w) :=
    snapshot elements
      (mkNode "B" "T" ["A"] ["C"] []
         (mkExecOpts false (pro_run (mkRun (Some _default_chief_settings)))))
      abc_marked (mkWorld abc_store 0) in
  (r, connections_opened w, length (execution_rows (mlmd w)))
  = (Ok tt, 1, 4).
Proof. vm_compute. reflexivity. Qed.

(** * Properties of the artifact recycler *)

(** ** Views of the store *)

Lemma store_contexts_lookup s i :
  store_contexts s !! i = context_of_row i <$> context_rows s !! i.
Proof. apply list_lookup_imap. Qed.

Lemma store_executions_lookup s i :
  store_executions s !! i = execution_of_row i <$> execution_rows s !! i.
Proof. apply list_lookup_imap. Qed.

Lemma store_contexts_elem s c :
  c ∈ store_contexts s
  ↔ ∃ i r, context_rows s !! i = Some r ∧ c = context_of_row i r.
Proof.
  rewrite list_elem_of_lookup. split.
  - intros [i Hi]. rewrite store_contexts_lookup in Hi.
    destruct (context_rows s !! i) as [r|] eqn:Hr; [|done].
    injection Hi as <-. eauto.
  - intros (i & r & Hr & ->). exists i.
    by rewrite store_contexts_lookup, Hr.
Qed.

Lemma store_executions_elem s e :
  e ∈ store_executions s
  ↔ ∃ i r, execution_rows s !! i = Some r ∧ e = execution_of_row i r.
Proof.
  rewrite list_elem_of_lookup. split.
  - intros [i Hi]. rewrite store_executions_lookup in Hi.
    destruct (execution_rows s !! i) as [r|] eqn:Hr; [|done].
    injection Hi as <-. eauto.
  - intros (i & r & Hr & ->). exists i.
    by rewrite store_executions_lookup, Hr.
Qed.

Lemma store_contexts_id_inj s c1 c2 :
  c1 ∈ store_contexts s → c2 ∈ store_contexts s →
  ctx_id c1 = ctx_id c2 → c1 = c2.
Proof.
  intros (i1 & r1 & H1 & ->)%store_contexts_elem
         (i2 & r2 & H2 & ->)%store_contexts_elem [= ->].
  congruence.
Qed.

Lemma get_context_type_Ok s name t :
  get_context_type s name = Ok t ↔
  ∃ i, t = S i ∧ context_type_rows s !! i = Some name
       ∧ ∀ j, j < i → context_type_rows s !! j ≠ Some name.
Proof.
  unfold get_context_type.
  destruct (list_find _ _) as [[i x]|] eqn:Hfind.
  - apply list_find_Some in Hfind as (Hi & -> & Hmin). split.
    + intros [= <-]. exists i. split_and!; [done..|].
      intros j Hj Hname. by eapply Hmin.
    + intros (i' & -> & Hi' & Hmin'). f_equal. f_equal.
      destruct (Nat.lt_trichotomy i i') as [Hlt|[->|Hgt]]; [|done|].
      * by destruct (Hmin' i Hlt).
      * by destruct (Hmin i' name Hi' Hgt).
  - split; [done|]. intros (i & -> & Hi & _).
    rewrite list_find_None, Forall_forall in Hfind.
    destruct (Hfind name); [|done]. by eapply list_elem_of_lookup_2.
Qed.

Lemma get_context_type_inj s n1 n2 t :
  get_context_type s n1 = Ok t → get_context_type s n2 = Ok t → n1 = n2.
Proof.
  intros (i1 & -> & H1 & _)%get_context_type_Ok
         (i2 & [= <-] & H2 & _)%get_context_type_Ok.
  congruence.
Qed.

(** ** The dictionary of pipeline-run contexts *)

Lemma run_contexts_fold_keys (l : list Context) (acc : odict Context) k :
  k ∈ od_keys (fold_left (λ d c, od_set (ctx_name c) c d) l acc)
  ↔ k ∈ ctx_name <$> l ∨ k ∈ od_keys acc.
Proof.
  revert acc. induction l as [|c l IH]; intros acc; simpl.
  - rewrite elem_of_nil. naive_solver.
  - rewrite IH, od_keys_set_elem, elem_of_cons. naive_solver.
Qed.

Lemma run_contexts_fold_values (l : list Context) (acc : odict Context) k c :
  (k, c) ∈ fold_left (λ d c, od_set (ctx_name c) c d) l acc →
  (c ∈ l ∧ ctx_name c = k) ∨ (k, c) ∈ acc.
Proof.
  revert acc. induction l as [|c0 l IH]; intros acc; simpl; [auto|].
  intros [[Hin Hname]|Hacc]%IH.
  - left. split; [by right | done].
  - apply od_elem_set in Hacc as [[-> ->]|Hacc]; [|auto].
    left. split; [left | done].
Qed.

Lemma build_run_contexts_get s t k c :
  get_context_type s PIPELINE_RUN_CONTEXT_TYPE_NAME = Ok t →
  od_get (build_run_contexts s) k = Some c →
  c ∈ store_contexts s ∧ ctx_type_id c = t ∧ ctx_name c = k.
Proof.
  unfold build_run_contexts, get_contexts_by_type. intros -> Hget.
  apply od_get_Some_elem, run_contexts_fold_values in Hget
    as [[Hin Hname]|Hnil]; [|by apply elem_of_nil in Hnil].
  apply list_elem_of_filter in Hin as [? ?]. done.
Qed.

Lemma build_run_contexts_mem s t c :
  get_context_type s PIPELINE_RUN_CONTEXT_TYPE_NAME = Ok t →
  c ∈ store_contexts s → ctx_type_id c = t →
  ctx_name c ∈ od_keys (build_run_contexts s).
Proof.
  unfold build_run_contexts, get_contexts_by_type. intros -> Hin Ht.
  apply run_contexts_fold_keys. left. apply list_elem_of_fmap.
  exists c. split; [done|]. by apply list_elem_of_filter.
Qed.

(** ** The recycler stays in sync with the store *)

Lemma new_ArtifactRecycler_spec pipeline_name new_run_id s :
  new_ArtifactRecycler pipeline_name new_run_id s
  = (recycler_of pipeline_name new_run_id s, s).
Proof.
  unfold new_ArtifactRecycler, recycler_of, M_read, mbind, M_mbind, M_bind.
  destruct (_get_pipeline_context pipeline_name s); [|done]. simpl.
  destruct (get_context_type s PIPELINE_RUN_CONTEXT_TYPE_NAME); done.
Qed.

Lemma in_sync_fields self s :
  in_sync self s →
  _get_pipeline_context (_pipeline_name self) s = Ok (_pipeline_context self)
  ∧ get_context_type s PIPELINE_RUN_CONTEXT_TYPE_NAME
    = Ok (_pipeline_run_type_id self)
  ∧ _pipeline_run_contexts self = build_run_contexts s.
Proof.
  unfold in_sync, recycler_of.
  destruct (_get_pipeline_context _ s) as [pc|]; [|done]. simpl.
  destruct (get_context_type s _) as [t|]; [|done]. simpl.
  intros [= <-]. done.
Qed.

Lemma _get_pipeline_run_context_false self run_id s :
  _get_pipeline_run_context self run_id false s
  = (match od_get (_pipeline_run_contexts self) run_id with
     | Some c => Ok (c, self)
     | None => Raise LookupError
     end, s).
Proof.
  unfold _get_pipeline_run_context, od_mem, od_item, M_read, M_raise,
    mbind, mret, M_mbind, M_mret, M_bind, M_ret.
  destruct (od_get (_pipeline_run_contexts self) run_id) as [c|] eqn:Hget.
  - rewrite bool_decide_eq_true_2 by (by eapply od_get_Some_key).
    by rewrite Hget.
  - rewrite bool_decide_eq_false_2 by (by apply od_get_None). done.
Qed.

Lemma store_contexts_add s r :
  store_contexts (add_context_row s r)
  = store_contexts s ++ [context_of_row (length (context_rows s)) r].
Proof.
  unfold store_contexts. simpl. rewrite imap_app. simpl.
  by rewrite Nat.add_0_r.
Qed.

Lemma get_contexts_by_type_add s r name :
  get_contexts_by_type (add_context_row s r) name
  = get_contexts_by_type s name
    ++ (if decide (get_context_type s name = Ok (row_ctx_type_id r))
        then [context_of_row (length (context_rows s)) r] else []).
Proof.
  unfold get_contexts_by_type.
  change (get_context_type (add_context_row s r) name)
    with (get_context_type s name).
  destruct (get_context_type s name) as [t|e] eqn:Ht.
  - rewrite store_contexts_add, filter_app. f_equal.
    destruct (decide (Ok t = Ok (row_ctx_type_id r))) as [[= ->]|Hne].
    + by rewrite filter_cons_True.
    + rewrite filter_cons_False; [done|]. simpl. congruence.
  - by rewrite decide_False.
Qed.

Lemma get_context_by_type_and_name_add s r type_name name :
  get_context_type s type_name ≠ Ok (row_ctx_type_id r) →
  get_context_by_type_and_name (add_context_row s r) type_name name
  = get_context_by_type_and_name s type_name name.
Proof.
  intros Hne. unfold get_context_by_type_and_name.
  rewrite get_contexts_by_type_add, decide_False by done.
  by rewrite app_nil_r.
Qed.

Lemma run_context_absent self s :
  in_sync self s →
  od_get (_pipeline_run_contexts self) (_new_run_id self) = None →
  get_context_by_type_and_name s PIPELINE_RUN_CONTEXT_TYPE_NAME
    (_new_run_id self) = None.
Proof.
  intros (_ & Ht & Hd)%in_sync_fields Hnone.
  unfold get_context_by_type_and_name.
  destruct (filter _ _) as [|c l] eqn:Hf; [done|].
  assert (c ∈ filter (λ c, ctx_name c = _new_run_id self)
                (get_contexts_by_type s PIPELINE_RUN_CONTEXT_TYPE_NAME))
    as Hc by (rewrite Hf; left).
  apply list_elem_of_filter in Hc as [Hname Hc].
  unfold get_contexts_by_type in Hc. rewrite Ht in Hc.
  apply list_elem_of_filter in Hc as [Hty Hc].
  apply od_get_None in Hnone. destruct Hnone.
  rewrite Hd, <- Hname. by eapply build_run_contexts_mem.
Qed.

Lemma _get_pipeline_run_context_true self s :
  in_sync self s →
  _get_pipeline_run_context self (_new_run_id self) true s
  = (Ok (new_run_context self s, (ensure_new_run_context self s).1),
     (ensure_new_run_context self s).2).
Proof.
  intros Hsync. pose proof (in_sync_fields _ _ Hsync) as (_ & Ht & _).
  unfold _get_pipeline_run_context, ensure_new_run_context, new_run_context,
    od_mem, od_item, M_read, mbind, mret, M_mbind, M_mret, M_bind, M_ret.
  destruct (od_get (_pipeline_run_contexts self) (_new_run_id self))
    as [c|] eqn:Hget.
  - rewrite bool_decide_eq_true_2 by (by eapply od_get_Some_key).
    simpl. by rewrite Hget.
  - rewrite bool_decide_eq_false_2 by (by apply od_get_None).
    unfold register_context_if_not_exists. rewrite Ht.
    rewrite (run_context_absent _ _ Hsync Hget). simpl.
    by rewrite od_get_set, decide_True.
Qed.

Lemma ensure_new_run_context_spec self s :
  in_sync self s →
  let self' := (ensure_new_run_context self s).1 in
  let s' := (ensure_new_run_context self s).2 in
  in_sync self' s'
  ∧ od_get (_pipeline_run_contexts self') (_new_run_id self')
    = Some (new_run_context self s)
  ∧ new_run_context self' s' = new_run_context self s
  ∧ _pipeline_name self' = _pipeline_name self
  ∧ _new_run_id self' = _new_run_id self
  ∧ _pipeline_run_type_id self' = _pipeline_run_type_id self
  ∧ _pipeline_context self' = _pipeline_context self.
Proof.
  intros Hsync. pose proof (in_sync_fields _ _ Hsync) as (Hpc & Ht & Hd).
  unfold ensure_new_run_context, new_run_context, od_mem.
  destruct (od_get (_pipeline_run_contexts self) (_new_run_id self))
    as [c|] eqn:Hget.
  - rewrite bool_decide_eq_true_2 by (by eapply od_get_Some_key).
    simpl. by rewrite Hget.
  - rewrite bool_decide_eq_false_2 by (by apply od_get_None).
    simpl. rewrite od_get_set, decide_True by done.
    split_and!; try done.
    unfold in_sync, recycler_of, _get_pipeline_context. simpl.
    rewrite get_context_by_type_and_name_add.
    2:{ simpl. intros Hty.
        by pose proof (get_context_type_inj _ _ _ _ Hty Ht). }
    unfold _get_pipeline_context in Hpc.
    destruct (get_context_by_type_and_name s _ _) as [pc|]; [|done].
    injection Hpc as ->. simpl.
    change (get_context_type (add_context_row s _) ?n)
      with (get_context_type s n).
    rewrite Ht. simpl. unfold set_pipeline_run_contexts. f_equal. f_equal.
    unfold build_run_contexts. rewrite get_contexts_by_type_add. simpl.
    rewrite decide_True by done. rewrite fold_left_app. simpl.
    by rewrite Hd.
Qed.

Lemma ensure_new_run_context_idem self s :
  is_Some (od_get (_pipeline_run_contexts self) (_new_run_id self)) →
  ensure_new_run_context self s = (self, s).
Proof.
  intros [c Hc]. unfold ensure_new_run_context, od_mem.
  by rewrite bool_decide_eq_true_2 by (by eapply od_get_Some_key).
Qed.

Lemma after_contexts_spec self s cs :
  in_sync self s →
  let self' := (after_contexts self s cs).1 in
  let s' := (after_contexts self s cs).2 in
  in_sync self' s'
  ∧ new_run_context self' s' = new_run_context self s
  ∧ _pipeline_name self' = _pipeline_name self
  ∧ _new_run_id self' = _new_run_id self
  ∧ _pipeline_run_type_id self' = _pipeline_run_type_id self
  ∧ _pipeline_context self' = _pipeline_context self.
Proof.
  intros Hsync. unfold after_contexts.
  destruct (existsb _ cs); [|done].
  pose proof (ensure_new_run_context_spec self s Hsync). naive_solver.
Qed.

(** ** What [_cache_and_publish] does *)

Lemma cached_execution_contexts_loop_spec self s cs acc :
  in_sync self s →
  cached_execution_contexts_loop self cs acc s
  = (Ok (acc ++ (replace_run_context self (new_run_context self s) <$> cs),
         (after_contexts self s cs).1),
     (after_contexts self s cs).2).
Proof.
  revert self s acc. induction cs as [|c cs IH]; intros self s acc Hsync.
  - simpl. by rewrite app_nil_r.
  - cbn [cached_execution_contexts_loop].
    unfold mbind, M_mbind, M_bind at 1.
    unfold after_contexts, is_run_context, replace_run_context.
    cbn [existsb fmap list_fmap].
    destruct (decide (ctx_type_id c = _pipeline_run_type_id self))
      as [Hrun|Hrun].
    + rewrite (bool_decide_eq_true_2 _ Hrun). cbn [orb].
      rewrite (_get_pipeline_run_context_true _ _ Hsync).
      pose proof (ensure_new_run_context_spec self s Hsync)
        as (Hsync' & Hget & Hnew & _ & _ & Htid & _).
      destruct (ensure_new_run_context self s) as [self1 s1]. simpl in *.
      rewrite (IH self1 s1 _ Hsync'). rewrite Hnew.
      unfold after_contexts.
      rewrite (ensure_new_run_context_idem self1 s1) by (by rewrite Hget).
      rewrite <- app_assoc. simpl.
      unfold replace_run_context. rewrite Htid.
      by destruct (existsb _ cs).
    + rewrite (bool_decide_eq_false_2 _ Hrun). cbn [orb].
      unfold mret, M_mret, M_ret at 1.
      rewrite (IH self s _ Hsync). by rewrite <- app_assoc.
Qed.

Lemma _get_cached_execution_contexts_spec self s e :
  in_sync self s →
  _get_cached_execution_contexts self e s
  = (Ok (cached_contexts self (new_run_context self s) s (exec_id e),
         (after_contexts self s
            (get_contexts_by_execution s (exec_id e))).1),
     (after_contexts self s (get_contexts_by_execution s (exec_id e))).2).
Proof.
  intros Hsync. unfold _get_cached_execution_contexts, M_read.
  unfold mbind, M_mbind, M_bind at 1.
  by rewrite cached_execution_contexts_loop_spec.
Qed.

Lemma associated_with_all_elem s cs e :
  e ∈ get_executions_associated_with_all_contexts s cs
  ↔ cs ≠ [] ∧ e ∈ store_executions s
    ∧ Forall (λ c, (exec_id e, ctx_id c) ∈ associations s) cs.
Proof.
  unfold get_executions_associated_with_all_contexts.
  destruct cs as [|c cs].
  - rewrite elem_of_nil. naive_solver.
  - rewrite list_elem_of_filter. naive_solver.
Qed.

Lemma associate_elem (execution_id : nat) (contexts : list Context)
  (a : gset (nat * nat)) e c :
  (e, c) ∈ associate execution_id contexts a
  ↔ (e = execution_id ∧ c ∈ ctx_id <$> contexts) ∨ (e, c) ∈ a.
Proof.
  unfold associate.
  rewrite elem_of_union, elem_of_list_to_set, !list_elem_of_fmap.
  naive_solver.
Qed.

Lemma associate_already (execution_id : nat) (contexts : list Context)
  (a : gset (nat * nat)) :
  Forall (λ c, (execution_id, ctx_id c) ∈ a) contexts →
  associate execution_id contexts a = a.
Proof.
  intros Hall. apply set_eq. intros [e c]. rewrite associate_elem.
  split; [|auto]. intros [[-> (c' & -> & Hc')%list_elem_of_fmap]|?]; [|done].
  rewrite Forall_forall in Hall. auto.
Qed.

Lemma associate_twice (execution_id : nat) (contexts : list Context)
  (a : gset (nat * nat)) :
  associate execution_id contexts (associate execution_id contexts a)
  = associate execution_id contexts a.
Proof.
  apply associate_already, Forall_forall. intros c Hc.
  apply associate_elem. left. split; [done|].
  by apply list_elem_of_fmap_2.
Qed.

Lemma _cache_and_publish_spec self e s :
  in_sync self s →
  _cache_and_publish self e s
  = (Ok (after_contexts self s (get_contexts_by_execution s (exec_id e))).1,
     cache_and_publish_store self e s).
Proof.
  intros Hsync. unfold _cache_and_publish, cache_and_publish_store.
  unfold mbind, M_mbind, M_bind at 1.
  rewrite (_get_cached_execution_contexts_spec _ _ _ Hsync).
  set (cached := cached_contexts _ _ _ _).
  destruct (after_contexts self s _) as [self1 s1]. simpl.
  unfold M_read. unfold mbind, M_mbind, M_bind at 1.
  destruct (last (get_executions_associated_with_all_contexts s1 cached))
    as [l|] eqn:Hlast.
  - unfold mbind, M_mbind, M_bind at 1.
    destruct (decide (last_known_state l = CACHED)) as [Hc|Hc]; [done|].
    unfold mret, M_mret, M_ret at 1.
    unfold mbind, M_mbind, M_bind at 1.
    unfold mbind, M_mbind, M_bind at 1.
    apply last_Some_elem_of, associated_with_all_elem in Hlast
      as (_ & Hl & Hall).
    apply store_executions_elem in Hl as (i & r & Hr & ->).
    unfold publish_cached_execution. simpl. rewrite Hr.
    unfold mark_cached, output_events. simpl in *.
    by rewrite (associate_already _ _ _ Hall).
  - unfold mbind, M_mbind, M_bind at 1.
    unfold mbind, M_mbind, M_bind at 1.
    unfold register_execution at 1.
    unfold mret, M_mret, M_ret at 1.
    unfold mbind, M_mbind, M_bind at 1.
    unfold mbind, M_mbind, M_bind at 1.
    unfold publish_cached_execution. cbn [exec_id execution_rows].
    rewrite lookup_app_r by done. rewrite Nat.sub_diag. simpl.
    unfold add_cached_execution, output_events, get_artifacts_dict. simpl.
    rewrite associate_twice. f_equal. f_equal.
    rewrite alter_app_r_alt by done. by rewrite Nat.sub_diag.
Qed.

(** ** How the store evolves *)

Lemma last_filter_lookup {A} (P : A → Prop) `{∀ x, Decision (P x)}
  (l : list A) x :
  last (filter P l) = Some x
  ↔ ∃ i, l !! i = Some x ∧ P x
         ∧ ∀ j y, i < j → l !! j = Some y → ¬ P y.
Proof.
  revert x. induction l as [|a l IH] using rev_ind; intros x.
  - split; [done|]. by intros (i & Hi & _).
  - rewrite filter_app. destruct (decide (P a)) as [Ha|Ha].
    + rewrite filter_cons_True, filter_nil by done. rewrite last_snoc. split.
      * intros [= <-]. exists (length l). split_and!; [|done|].
        -- by rewrite lookup_app_r, Nat.sub_diag.
        -- intros j y Hj Hy. apply lookup_lt_Some in Hy.
           rewrite length_app in Hy. simpl in Hy. lia.
      * intros (i & Hi & HP & Hmax).
        destruct (decide (i = length l)) as [->|Hne].
        -- rewrite lookup_app_r, Nat.sub_diag in Hi by done. done.
        -- pose proof (lookup_lt_Some _ _ _ Hi) as Hlt.
           rewrite length_app in Hlt. simpl in Hlt.
           destruct (Hmax (length l) a); [lia| |done].
           by rewrite lookup_app_r, Nat.sub_diag.
    + rewrite filter_cons_False, filter_nil by done. rewrite app_nil_r, IH.
      split.
      * intros (i & Hi & HP & Hmax). exists i. split_and!; [|done|].
        -- by apply lookup_app_l_Some.
        -- intros j y Hj Hy.
           destruct (decide (j < length l)) as [Hlt|Hge].
           ++ rewrite lookup_app_l in Hy by done. by eapply Hmax.
           ++ rewrite lookup_app_r in Hy by lia.
              destruct (j - length l) as [|k]; [|by destruct k].
              simpl in Hy. by injection Hy as <-.
      * intros (i & Hi & HP & Hmax). exists i.
        destruct (decide (i < length l)) as [Hlt|Hge].
        -- rewrite lookup_app_l in Hi by done. split_and!; [done..|].
           intros j y Hj Hy. eapply Hmax; [done|].
           by apply lookup_app_l_Some.
        -- rewrite lookup_app_r in Hi by lia.
           destruct (i - length l) as [|k]; [|by destruct k].
           simpl in Hi. by injection Hi as <-.
Qed.

Lemma associated_last s cs l :
  last (get_executions_associated_with_all_contexts s cs) = Some l
  ↔ cs ≠ []
    ∧ ∃ i r, execution_rows s !! i = Some r ∧ l = execution_of_row i r
             ∧ assoc_all s (S i) cs
             ∧ ∀ j, i < j → j < length (execution_rows s) →
                    ¬ assoc_all s (S j) cs.
Proof.
  unfold get_executions_associated_with_all_contexts, assoc_all.
  destruct cs as [|c0 cs]; [naive_solver|].
  set (cs' := c0 :: cs). rewrite last_filter_lookup. split.
  - intros (i & Hi & HP & Hmax). split; [done|].
    rewrite store_executions_lookup in Hi.
    destruct (execution_rows s !! i) as [r|] eqn:Hr; [|done].
    injection Hi as <-. exists i, r. split_and!; [done..|].
    intros j Hij Hj.
    destruct (lookup_lt_is_Some_2 _ _ Hj) as [rj Hrj].
    apply (Hmax j (execution_of_row j rj) Hij).
    by rewrite store_executions_lookup, Hrj.
  - intros (_ & i & r & Hr & -> & Hall & Hmax). exists i. split_and!.
    + by rewrite store_executions_lookup, Hr.
    + done.
    + intros j y Hij Hy. rewrite store_executions_lookup in Hy.
      destruct (execution_rows s !! j) as [rj|] eqn:Hrj; [|done].
      injection Hy as <-. apply Hmax; [done|]. by eapply lookup_lt_Some.
Qed.

Lemma set_cached_idem r : set_cached (set_cached r) = set_cached r.
Proof. done. Qed.

Lemma evolves_refl tid s : evolves tid s s.
Proof.
  split; [done| |auto| |done].
  - exists []. by rewrite app_nil_r.
  - intros i r Hr Hn. congruence.
Qed.

Lemma evolves_length tid s s' :
  evolves tid s s' →
  length (execution_rows s) ≤ length (execution_rows s').
Proof.
  intros Hev. destruct (decide (length (execution_rows s) = 0)); [lia|].
  destruct (lookup_lt_is_Some_2 (execution_rows s)
              (pred (length (execution_rows s)))) as [r Hr]; [lia|].
  destruct (ev_rows _ _ _ Hev _ _ Hr) as [H'|H'];
    apply lookup_lt_Some in H'; lia.
Qed.

Lemma evolves_trans tid s1 s2 s3 :
  evolves tid s1 s2 → evolves tid s2 s3 → evolves tid s1 s3.
Proof.
  intros H12 H23. split.
  - by rewrite (ev_types _ _ _ H23), (ev_types _ _ _ H12).
  - destruct (ev_contexts _ _ _ H12) as (l1 & Hl1 & HF1).
    destruct (ev_contexts _ _ _ H23) as (l2 & Hl2 & HF2).
    exists (l1 ++ l2). split; [|by apply Forall_app].
    by rewrite Hl2, Hl1, app_assoc.
  - intros i r Hr.
    destruct (ev_rows _ _ _ H12 _ _ Hr) as [H2|H2];
      destruct (ev_rows _ _ _ H23 _ _ H2) as [H3|H3]; auto.
  - intros i r Hr Hn.
    destruct (execution_rows s2 !! i) as [r2|] eqn:H2.
    + pose proof (ev_new_rows _ _ _ H12 _ _ H2 Hn) as Hc.
      destruct (ev_rows _ _ _ H23 _ _ H2) as [H3|H3];
        rewrite H3 in Hr; by injection Hr as <-.
    + by eapply (ev_new_rows _ _ _ H23).
  - intros e c He. rewrite (ev_assoc _ _ _ H23), (ev_assoc _ _ _ H12);
      [done..|].
    pose proof (evolves_length _ _ _ H12). lia.
Qed.

Lemma evolves_assoc_all tid s s' i cs :
  evolves tid s s' → i < length (execution_rows s) →
  assoc_all s' (S i) cs ↔ assoc_all s (S i) cs.
Proof.
  intros Hev Hi. unfold assoc_all. apply Forall_iff. intros c.
  apply (ev_assoc _ _ _ Hev). lia.
Qed.

(** What is left to do for a list of contexts never grows. *)
Lemma evolves_last_is_cached tid s s' cs :
  evolves tid s s' → last_is_cached s cs → last_is_cached s' cs.
Proof.
  intros Hev (l & Hl & Hc).
  apply associated_last in Hl as (Hcs & i & r & Hr & -> & Hall & Hmax).
  pose proof (lookup_lt_Some _ _ _ Hr) as Hi.
  assert (∃ r', execution_rows s' !! i = Some r'
                ∧ row_last_known_state r' = CACHED) as (r' & Hr' & Hc').
  { destruct (ev_rows _ _ _ Hev _ _ Hr) as [H'|H']; eauto. }
  assert (get_executions_associated_with_all_contexts s' cs ≠ []) as Hne.
  { intros Hnil.
    assert (execution_of_row i r'
            ∈ get_executions_associated_with_all_contexts s' cs) as Hin.
    { apply associated_with_all_elem. split_and!; [done| |].
      - apply store_executions_elem. eauto.
      - by apply (evolves_assoc_all _ _ _ _ _ Hev Hi). }
    rewrite Hnil in Hin. by apply elem_of_nil in Hin. }
  apply last_is_Some in Hne as [l' Hl']. exists l'. split; [done|].
  apply associated_last in Hl' as (_ & i' & r2 & Hr2 & -> & Hall' & Hmax').
  simpl. destruct (decide (i' < length (execution_rows s))) as [Hold|Hnew].
  - assert (i' = i) as ->.
    { destruct (Nat.lt_trichotomy i' i) as [Hlt|[->|Hgt]]; [|done|].
      - destruct (Hmax' i Hlt); [by eapply lookup_lt_Some|].
        by apply (evolves_assoc_all _ _ _ _ _ Hev Hi).
      - destruct (Hmax i' Hgt Hold).
        by apply (evolves_assoc_all _ _ _ _ _ Hev Hold). }
    congruence.
  - eapply (ev_new_rows _ _ _ Hev); [done|].
    apply lookup_ge_None. lia.
Qed.

Lemma recycler_of_ext pipeline_name new_run_id s s' :
  context_type_rows s' = context_type_rows s →
  context_rows s' = context_rows s →
  recycler_of pipeline_name new_run_id s'
  = recycler_of pipeline_name new_run_id s.
Proof.
  intros Ht Hc.
  unfold recycler_of, _get_pipeline_context, build_run_contexts,
    get_context_by_type_and_name, get_contexts_by_type, get_context_type,
    store_contexts.
  by rewrite Ht, Hc.
Qed.

Lemma in_sync_ext self s s' :
  context_type_rows s' = context_type_rows s →
  context_rows s' = context_rows s →
  in_sync self s → in_sync self s'.
Proof. unfold in_sync. intros Ht Hc. by rewrite (recycler_of_ext _ _ s s'). Qed.

Lemma contexts_by_execution_elem s i c :
  c ∈ get_contexts_by_execution s i
  ↔ c ∈ store_contexts s ∧ (i, ctx_id c) ∈ associations s.
Proof. unfold get_contexts_by_execution. rewrite list_elem_of_filter. tauto. Qed.

Lemma store_contexts_bound s c :
  c ∈ store_contexts s → 0 < ctx_id c ≤ length (context_rows s).
Proof.
  intros (i & r & Hr & ->)%store_contexts_elem. simpl.
  apply lookup_lt_Some in Hr. lia.
Qed.

Lemma filter_none {A} (P : A → Prop) `{∀ x, Decision (P x)} (l : list A) :
  (∀ x, x ∈ l → ¬ P x) → filter P l = [].
Proof.
  induction l as [|a l IH]; intros Hall; [done|].
  rewrite filter_cons_False by (apply Hall; left).
  apply IH. intros x Hx. apply Hall. by right.
Qed.

Lemma evolves_contexts_by_execution tid s s' i :
  evolves tid s s' → store_wf s → i ≤ length (execution_rows s) →
  get_contexts_by_execution s' i = get_contexts_by_execution s i.
Proof.
  intros Hev Hwf Hi. unfold get_contexts_by_execution, store_contexts.
  destruct (ev_contexts _ _ _ Hev) as (l & -> & _).
  rewrite imap_app, filter_app. rewrite (filter_none _ (imap _ l)).
  - rewrite app_nil_r. apply list_filter_iff. intros c.
    by apply (ev_assoc _ _ _ Hev).
  - intros c Hc HP. apply (ev_assoc _ _ _ Hev) in HP; [|done].
    apply Hwf in HP as [_ Hb].
    apply elem_of_lookup_imap in Hc as (j & r & -> & _). simpl in Hb. lia.
Qed.

Section recycler_ready.
(** A recycler whose dictionary holds the context of the new run. *)
Variables (self : _ArtifactRecycler) (s : Store) (cnew : Context).
Hypothesis Hsync : in_sync self s.
Hypothesis Hwf : store_wf s.
Hypothesis Hnew :
  od_get (_pipeline_run_contexts self) (_new_run_id self) = Some cnew.

Lemma ready_cnew :
  cnew ∈ store_contexts s ∧ ctx_type_id cnew = _pipeline_run_type_id self
  ∧ ctx_name cnew = _new_run_id self.
Proof.
  destruct (in_sync_fields _ _ Hsync) as (_ & Ht & Hd).
  rewrite Hd in Hnew. by eapply build_run_contexts_get.
Qed.

Lemma ready_after cs : after_contexts self s cs = (self, s).
Proof.
  unfold after_contexts. destruct (existsb _ cs); [|done].
  apply ensure_new_run_context_idem. by rewrite Hnew.
Qed.

Lemma ready_new_run_context s' : new_run_context self s' = cnew.
Proof. unfold new_run_context. by rewrite Hnew. Qed.

Lemma ready_replace_cnew : replace_run_context self cnew cnew = cnew.
Proof. unfold replace_run_context. by destruct (decide _). Qed.

Lemma ready_cached_elem i d :
  d ∈ cached_contexts self cnew s i →
  d ∈ store_contexts s ∧ replace_run_context self cnew d = d.
Proof.
  unfold cached_contexts.
  intros (c & -> & Hc)%list_elem_of_fmap.
  apply contexts_by_execution_elem in Hc as [Hc _].
  destruct (decide (ctx_type_id c = _pipeline_run_type_id self)) as [Hr|Hr].
  - assert (replace_run_context self cnew c = cnew) as ->
      by (unfold replace_run_context; by rewrite decide_True).
    split; [apply ready_cnew | apply ready_replace_cnew].
  - assert (replace_run_context self cnew c = c) as Heq
      by (unfold replace_run_context; by rewrite decide_False).
    by rewrite !Heq.
Qed.

(** An execution that is associated with all the cached contexts of [i] ,
    the context of the new run among them, is associated with all its own
    cached contexts. *)
Lemma ready_assoc_own_cached s' q :
  (q, ctx_id cnew) ∈ associations s' →
  assoc_all s' q (cached_contexts self cnew s' q).
Proof.
  intros Hq. unfold assoc_all, cached_contexts. apply Forall_forall.
  intros d (c & -> & Hc)%list_elem_of_fmap.
  apply contexts_by_execution_elem in Hc as [_ Hc].
  unfold replace_run_context. by destruct (decide _).
Qed.

Lemma ready_cnew_in_own_cached s' q :
  context_rows s' = context_rows s →
  (q, ctx_id cnew) ∈ associations s' →
  cnew ∈ cached_contexts self cnew s' q.
Proof.
  intros Hctx Hq. unfold cached_contexts. apply list_elem_of_fmap.
  exists cnew. split; [by rewrite ready_replace_cnew|].
  apply contexts_by_execution_elem. split; [|done].
  unfold store_contexts. rewrite Hctx. apply ready_cnew.
Qed.

End recycler_ready.

Section publish_step.
Variables (self : _ArtifactRecycler) (s : Store) (cnew : Context).
Variables (e : Execution) (p : nat).
Hypothesis Hsync : in_sync self s.
Hypothesis Hwf : store_wf s.
Hypothesis Hnew :
  od_get (_pipeline_run_contexts self) (_new_run_id self) = Some cnew.
Hypothesis Hid : exec_id e = S p.
Hypothesis Hrun : cnew ∈ cached_contexts self cnew s (S p).

Let cached := cached_contexts self cnew s (S p).
Let tid := _pipeline_run_type_id self.

Lemma publish_step_new evs :
  last (get_executions_associated_with_all_contexts s cached) = None →
  batch_ok self cnew [cached] s
    (add_cached_execution s (exec_type_id e) cached evs).
Proof.
  intros Hlast. set (s' := add_cached_execution _ _ _ _).
  set (n := length (execution_rows s)).
  assert (Hcached_ne : cached ≠ []).
  { intros Hnil. fold cached in Hrun. rewrite Hnil in Hrun.
    by apply elem_of_nil in Hrun. }
  assert (Hrows : ∀ q r', execution_rows s' !! q = Some r' →
                          execution_rows s !! q ≠ Some r' →
                          q = n ∧ r' = mkExecutionRow (exec_type_id e) CACHED []).
  { intros q r' Hq Hne. simpl in Hq.
    destruct (decide (q < n)) as [Hlt|Hge].
    - rewrite lookup_app_l in Hq by done. done.
    - rewrite lookup_app_r in Hq by (unfold n in Hge; lia).
      fold n in Hq. destruct (q - n) as [|k] eqn:Hk; [|by destruct k].
      simpl in Hq. injection Hq as <-. split; [lia | done]. }
  assert (Hall : assoc_all s' (S n) cached).
  { apply Forall_forall. intros d Hd. simpl. apply associate_elem. left.
    split; [done|]. by apply list_elem_of_fmap_2. }
  assert (Hev : evolves tid s s').
  { split; simpl; [done| | | |].
    - exists []. by rewrite app_nil_r.
    - intros i r' Hi. left. by apply lookup_app_l_Some.
    - intros i r' Hi Hn. destruct (Hrows i r' Hi) as [_ ->]; [congruence|].
      done.
    - intros e' c He'. rewrite associate_elem. split; [|auto].
      intros [[-> _]|?]; [lia | done]. }
  assert (Hwf' : store_wf s').
  { intros e' c [[-> Hc]|Hold]%associate_elem; simpl.
    - rewrite length_app. simpl. split; [lia|].
      apply list_elem_of_fmap in Hc as (d & -> & Hd).
      apply (ready_cached_elem self s cnew Hsync Hnew) in Hd as [Hd _].
      by apply store_contexts_bound.
    - rewrite length_app. simpl. apply Hwf in Hold. lia. }
  assert (Hlast_n : ∀ cs, cs ≠ [] → assoc_all s' (S n) cs →
                          last_is_cached s' cs).
  { intros cs Hcs Hcs_all. eexists. split; [|shelve].
    apply associated_last. split; [done|].
    exists n, (mkExecutionRow (exec_type_id e) CACHED []).
    split_and!; [|done|done|].
    - simpl. by rewrite lookup_app_r, Nat.sub_diag.
    - intros j Hj Hj'. simpl in Hj'. rewrite length_app in Hj'.
      simpl in Hj'. unfold n in Hj. lia.
    Unshelve. done. }
  assert (Hcnew : (S n, ctx_id cnew) ∈ associations s').
  { unfold assoc_all in Hall. rewrite Forall_forall in Hall. by apply Hall. }
  split_and!; [done|done|done| | |].
  - apply Forall_singleton. by apply Hlast_n.
  - intros q r' Hq Hne. destruct (Hrows q r' Hq Hne) as [-> _].
    apply Hlast_n.
    + intros Hnil.
      pose proof (ready_cnew_in_own_cached self s cnew Hsync Hnew s' (S n)
                    eq_refl Hcnew) as Hin.
      rewrite Hnil in Hin. by apply elem_of_nil in Hin.
    + by apply ready_assoc_own_cached.
  - intros q r' Hq Hne. destruct (Hrows q r' Hq Hne) as [-> _].
    split; [exists cached; split; [left | done]|].
    intros _. exists cached. split; [left|].
    intros c [[_ Hc]|Hold]%associate_elem; [done|].
    apply Hwf in Hold. unfold n in Hold. lia.
Qed.

Lemma publish_step_cached l :
  last (get_executions_associated_with_all_contexts s cached) = Some l →
  last_known_state l = CACHED →
  batch_ok self cnew [cached] s s.
Proof.
  intros Hlast Hc. split_and!; [apply evolves_refl|done|done| | |].
  - apply Forall_singleton. by exists l.
  - intros q r' Hq Hne. congruence.
  - intros q r' Hq Hne. congruence.
Qed.

Lemma publish_step_mark l evs :
  last (get_executions_associated_with_all_contexts s cached) = Some l →
  batch_ok self cnew [cached] s (mark_cached s (pred (exec_id l)) evs).
Proof.
  intros Hlast.
  apply associated_last in Hlast as (Hne & i & rl & Hrl & -> & Hall & Hmax).
  simpl. set (s' := mark_cached s i evs).
  assert (Hrows : ∀ q r', execution_rows s' !! q = Some r' →
                          execution_rows s !! q ≠ Some r' → q = i).
  { intros q r' Hq Hneq. simpl in Hq.
    destruct (decide (i = q)) as [|Hiq]; [done|].
    rewrite list_lookup_alter_ne in Hq by done. done. }
  assert (Hrow_i : execution_rows s' !! i = Some (set_cached rl)).
  { simpl. by rewrite list_lookup_alter_eq, Hrl. }
  assert (Hev : evolves tid s s').
  { split; simpl; [done| | | |done].
    - exists []. by rewrite app_nil_r.
    - intros j r' Hj. destruct (decide (i = j)) as [->|Hij].
      + right. rewrite list_lookup_alter_eq, Hj. simpl. congruence.
      + left. by rewrite list_lookup_alter_ne.
    - intros j r' Hj Hn. destruct (decide (i = j)) as [->|Hij].
      + rewrite list_lookup_alter_eq, Hn in Hj. done.
      + rewrite list_lookup_alter_ne, Hn in Hj by done. done. }
  assert (Hwf' : store_wf s').
  { intros e' c Hin. simpl in *. rewrite length_alter. by apply Hwf. }
  assert (Hlast_i : ∀ cs, cs ≠ [] → assoc_all s (S i) cs →
                          (∀ j, i < j → j < length (execution_rows s) →
                                ¬ assoc_all s (S j) cs) →
                          last_is_cached s' cs).
  { intros cs Hcs Hcs_all Hcs_max. eexists. split; [|shelve].
    apply associated_last. split; [done|].
    exists i, (set_cached rl). split_and!; [done|done|done|].
    intros j Hj Hj'. simpl in Hj'. rewrite length_alter in Hj'.
    by apply Hcs_max.
    Unshelve. done. }
  assert (Hcnew : (S i, ctx_id cnew) ∈ associations s).
  { unfold assoc_all in Hall. rewrite Forall_forall in Hall. by apply Hall. }
  split_and!; [done|done|done| | |].
  - apply Forall_singleton. by apply Hlast_i.
  - intros q r' Hq Hneq. rewrite (Hrows q r' Hq Hneq).
    change (cached_contexts self cnew s' (S i))
      with (cached_contexts self cnew s (S i)).
    apply Hlast_i.
    + intros Hnil.
      pose proof (ready_cnew_in_own_cached self s cnew Hsync Hnew s (S i)
                    eq_refl Hcnew) as Hin.
      rewrite Hnil in Hin. by apply elem_of_nil in Hin.
    + by apply ready_assoc_own_cached.
    + intros j Hj Hj' Hown. apply (Hmax j Hj Hj').
      apply Forall_forall. intros d Hd.
      destruct (ready_cached_elem self s cnew Hsync Hnew _ d Hd)
        as [Hstore Hrepl].
      unfold assoc_all in Hown, Hall. rewrite Forall_forall in Hown, Hall.
      apply Hown. unfold cached_contexts. apply list_elem_of_fmap.
      exists d. split; [done|].
      apply contexts_by_execution_elem. split; [done|]. by apply Hall.
  - intros q r' Hq Hneq. rewrite (Hrows q r' Hq Hneq).
    split; [exists cached; split; [left | done]|]. intros Hn. congruence.
Qed.

(** One [_cache_and_publish], for a recycler that holds the context of the
    new run, on an execution that has a pipeline-run context. *)
Lemma publish_step :
  batch_ok self cnew [cached] s (cache_and_publish_store self e s)
  ∧ context_rows (cache_and_publish_store self e s) = context_rows s
  ∧ context_type_rows (cache_and_publish_store self e s)
    = context_type_rows s.
Proof.
  unfold cache_and_publish_store. rewrite Hid.
  rewrite (ready_after self s cnew Hnew).
  rewrite (ready_new_run_context self cnew Hnew). simpl. fold cached.
  destruct (last (get_executions_associated_with_all_contexts s cached))
    as [l|] eqn:Hlast.
  - destruct (decide (last_known_state l = CACHED)) as [Hc|Hc].
    + split; [by eapply publish_step_cached | done].
    + split; [by apply publish_step_mark | done].
  - split; [by apply publish_step_new | done].
Qed.

End publish_step.

(** ** Batches of [_cache_and_publish] *)

Lemma cached_contexts_evolves self cnew s s' i :
  evolves (_pipeline_run_type_id self) s s' → store_wf s →
  i ≤ length (execution_rows s) →
  cached_contexts self cnew s' i = cached_contexts self cnew s i.
Proof.
  intros Hev Hwf Hi. unfold cached_contexts.
  by rewrite (evolves_contexts_by_execution _ _ _ _ Hev Hwf Hi).
Qed.

Lemma cached_contexts_tid self self' cnew s i :
  _pipeline_run_type_id self' = _pipeline_run_type_id self →
  cached_contexts self' cnew s i = cached_contexts self cnew s i.
Proof.
  intros Ht. unfold cached_contexts, replace_run_context. by rewrite Ht.
Qed.

Lemma batch_ok_refl self cnew s : store_wf s → batch_ok self cnew [] s s.
Proof.
  intros Hwf. split_and!; [apply evolves_refl|done|done|constructor| |].
  - intros q r' Hq Hne. congruence.
  - intros q r' Hq Hne. congruence.
Qed.

Lemma batch_ok_trans self cnew Y1 Y2 s s1 s2 :
  batch_ok self cnew Y1 s s1 → batch_ok self cnew Y2 s1 s2 →
  batch_ok self cnew (Y1 ++ Y2) s s2.
Proof.
  intros (Hev1 & Hwf1 & Hp1 & HY1 & Hch1 & Hx1)
         (Hev2 & Hwf2 & Hp2 & HY2 & Hch2 & Hx2).
  assert (Hkeep : ∀ q r', execution_rows s2 !! q = Some r' →
                          execution_rows s1 !! q = Some r' →
                          q < length (execution_rows s1)).
  { intros q r' _ Hq. by eapply lookup_lt_Some. }
  split_and!.
  - by eapply evolves_trans.
  - done.
  - congruence.
  - apply Forall_app. split; [|done].
    eapply Forall_impl; [exact HY1|]. intros cs.
    by apply evolves_last_is_cached with (tid := _pipeline_run_type_id self).
  - intros q r' Hq Hne.
    destruct (decide (execution_rows s1 !! q = Some r')) as [Hsame|Hdiff].
    + pose proof (Hkeep _ _ Hq Hsame) as Hlt.
      rewrite (cached_contexts_evolves _ _ _ _ _ Hev2 Hwf1) by lia.
      eapply evolves_last_is_cached; [exact Hev2|]. by eapply Hch1.
    + by eapply Hch2.
  - intros q r' Hq Hne.
    destruct (decide (execution_rows s1 !! q = Some r')) as [Hsame|Hdiff].
    + pose proof (Hkeep _ _ Hq Hsame) as Hlt.
      destruct (Hx1 q r' Hsame Hne) as [(cs & Hcs & Hall) Hnew]. split.
      * exists cs. split; [apply elem_of_app; by left|].
        by apply (evolves_assoc_all _ _ _ _ _ Hev2 Hlt).
      * intros Hnone. destruct (Hnew Hnone) as (cs' & Hcs' & Hsub).
        exists cs'. split; [apply elem_of_app; by left|].
        intros c Hc. apply Hsub. apply (ev_assoc _ _ _ Hev2); [lia | done].
    + destruct (Hx2 q r' Hq Hdiff) as [(cs & Hcs & Hall) Hnew]. split.
      * exists cs. split; [apply elem_of_app; by right | done].
      * intros Hnone.
        destruct (execution_rows s1 !! q) as [r1|] eqn:Hr1.
        -- destruct (Hx1 q r1 Hr1) as [_ Hnew1]; [congruence|].
           destruct (Hnew1 Hnone) as (cs' & Hcs' & Hsub).
           exists cs'. split; [apply elem_of_app; by left|].
           intros c Hc. apply Hsub. apply (ev_assoc _ _ _ Hev2); [|done].
           apply lookup_lt_Some in Hr1. lia.
        -- destruct (Hnew eq_refl) as (cs' & Hcs' & Hsub).
           exists cs'. split; [apply elem_of_app; by right | done].
Qed.

Lemma ensure_new_run_context_step self s :
  in_sync self s → store_wf s →
  let s1 := (ensure_new_run_context self s).2 in
  evolves (_pipeline_run_type_id self) s s1 ∧ store_wf s1
  ∧ execution_rows s1 = execution_rows s
  ∧ associations s1 = associations s
  ∧ events s1 = events s
  ∧ parent_contexts s1 = parent_contexts s.
Proof.
  intros Hsync Hwf. unfold ensure_new_run_context.
  destruct (od_mem _ _); simpl.
  - split_and!; [apply evolves_refl | done..].
  - split_and!; try done.
    + split; simpl; [done| |auto| |done].
      * eexists [_]. split; [done|]. by apply Forall_singleton.
      * intros i r Hr Hn. congruence.
    + intros e c Hin. simpl. rewrite length_app. simpl.
      apply Hwf in Hin. lia.
Qed.

Lemma valid_exec_evolves tid s s' e :
  evolves tid s s' → store_wf s → valid_exec tid s e → valid_exec tid s' e.
Proof.
  intros Hev Hwf (p & Hid & Hp & c & Hc & Ht). exists p.
  split_and!; [done| |].
  - pose proof (evolves_length _ _ _ Hev). lia.
  - exists c. split; [|done].
    by rewrite (evolves_contexts_by_execution _ _ _ _ Hev Hwf) by lia.
Qed.

(** One [_cache_and_publish], whether the context of the new run is
    registered yet or not. *)
Lemma cache_and_publish_step self s e :
  in_sync self s → store_wf s →
  valid_exec (_pipeline_run_type_id self) s e →
  let self' :=
    (after_contexts self s (get_contexts_by_execution s (exec_id e))).1 in
  let s' := cache_and_publish_store self e s in
  let cnew := new_run_context self s in
  in_sync self' s'
  ∧ od_get (_pipeline_run_contexts self') (_new_run_id self') = Some cnew
  ∧ _pipeline_name self' = _pipeline_name self
  ∧ _new_run_id self' = _new_run_id self
  ∧ _pipeline_run_type_id self' = _pipeline_run_type_id self
  ∧ _pipeline_context self' = _pipeline_context self
  ∧ batch_ok self cnew [cached_contexts self cnew s (exec_id e)] s s'.
Proof.
  intros Hsync Hwf (p & Hid & Hp & c & Hc & Ht). simpl.
  assert (Hex : existsb (is_run_context self)
                  (get_contexts_by_execution s (exec_id e)) = true).
  { apply existsb_exists. exists c. rewrite Hid. split.
    - by apply list_elem_of_In.
    - by apply bool_decide_eq_true. }
  assert (Hafter : after_contexts self s
                     (get_contexts_by_execution s (exec_id e))
                   = ensure_new_run_context self s).
  { unfold after_contexts. by rewrite Hex. }
  pose proof (ensure_new_run_context_spec self s Hsync)
    as (Hsync1 & Hget1 & Hnew1 & Hn1 & Hr1 & Ht1 & Hc1).
  pose proof (ensure_new_run_context_step self s Hsync Hwf)
    as (Hev1 & Hwf1 & Hrows1 & Hassoc1 & Hevs1 & Hpar1).
  set (cnew := new_run_context self s) in *.
  destruct (ensure_new_run_context self s) as [self1 s1] eqn:Hens.
  simpl in *.
  assert (Hcs1 : cached_contexts self1 cnew s1 (S p)
                 = cached_contexts self cnew s (S p)).
  { rewrite (cached_contexts_tid self self1) by done.
    apply (cached_contexts_evolves _ _ _ _ _ Hev1 Hwf). lia. }
  assert (Hin : cnew ∈ cached_contexts self1 cnew s1 (S p)).
  { rewrite Hcs1. unfold cached_contexts. apply list_elem_of_fmap.
    exists c. split; [|done]. unfold replace_run_context.
    by rewrite decide_True. }
  destruct (publish_step self1 s1 cnew e p Hsync1 Hwf1 Hget1 Hid Hin)
    as (Hbatch & Hctx & Hty).
  assert (Hstore : cache_and_publish_store self e s
                   = cache_and_publish_store self1 e s1).
  { unfold cache_and_publish_store. rewrite Hafter. fold cnew.
    rewrite (ready_after self1 s1 cnew Hget1).
    rewrite (ready_new_run_context self1 cnew Hget1). simpl.
    by rewrite Hid, Hcs1. }
  rewrite Hstore, Hafter, Hid, <- Hcs1. simpl.
  split_and!; try done.
  - by apply (in_sync_ext self1 s1).
  - destruct Hbatch as (Hev & Hwf' & Hp' & HY & Hch & Hx).
    split_and!.
    + rewrite <- Ht1. eapply evolves_trans; [|exact Hev]. by rewrite Ht1.
    + done.
    + congruence.
    + done.
    + intros q r' Hq Hne. rewrite <- Hrows1 in Hne.
      rewrite <- (cached_contexts_tid self self1) by done.
      by eapply Hch.
    + intros q r' Hq Hne. rewrite <- Hrows1 in Hne |- *.
      by eapply Hx.
Qed.

(** * Further properties of the marker *)

(** ** [_traverse] *)

(** X1. When every neighbour named in [node_map] is one of its keys and
    the start nodes are keys, [_traverse] returns, and the set it returns
    holds exactly the ids that can be reached from a start node by following
    zero or more edges in the given direction. *)
Theorem _traverse_returns_reachable_set
  (node_map : odict PipelineNode) (direction : _Direction)
  (start_nodes : list string) :
  linked node_map direction →
  (∀ s, s ∈ start_nodes → s ∈ od_keys node_map) →
  ∃ R : gset string,
    _traverse node_map direction start_nodes = Ok R
    ∧ ∀ y, y ∈ R ↔ ∃ s, s ∈ start_nodes
                        ∧ rtc (edge node_map direction) s y.
Proof. apply _traverse_reachable. Qed.

Lemma _traverse_returns_reachable_set_witness :
  ∃ R : gset string,
    _traverse (_make_ordered_node_map abc_pipeline) DOWNSTREAM ["B"] = Ok R
    ∧ ∀ y, y ∈ R ↔ ∃ s, s ∈ ["B"]
                        ∧ rtc (edge (_make_ordered_node_map abc_pipeline)
                                 DOWNSTREAM) s y.
Proof.
  apply (_traverse_returns_reachable_set
           (_make_ordered_node_map abc_pipeline) DOWNSTREAM ["B"]).
  - apply sorted_pipeline_linked. reflexivity.
  - intros s Hs. apply list_elem_of_singleton in Hs as ->.
    apply node_map_keys. vm_compute. apply list_elem_of_In. simpl. tauto.
Defined.

Section traverse_keys.
Variables (node_map : odict PipelineNode) (direction : _Direction).

Lemma traverse_loop_keys fuel stack (R R' : gset string) :
  traverse_loop fuel node_map direction stack R = Some (Ok R') →
  (∀ y, y ∈ R → y ∈ od_keys node_map) →
  ∀ y, y ∈ R' → y ∈ od_keys node_map.
Proof.
  revert stack R. induction fuel as [|fuel IH]; intros stack R; [done|].
  simpl. destruct stack as [|c stack']; [by intros [= <-]|].
  destruct (decide (c ∈ R)); [by apply IH|].
  unfold od_item. destruct (od_get node_map c) as [node|] eqn:Hget; [|done].
  intros Hrun HR. eapply IH; [exact Hrun|].
  intros y [->%elem_of_singleton|Hy]%elem_of_union; [|by apply HR].
  by eapply od_get_Some_key.
Qed.

Lemma traverse_loop_unknown fuel stack (R : gset string) x r :
  x ∈ stack → x ∉ od_keys node_map →
  (∀ y, y ∈ R → y ∈ od_keys node_map) →
  traverse_loop fuel node_map direction stack R = Some r →
  r = Raise KeyError.
Proof.
  intros Hx Hnk. revert stack R Hx.
  induction fuel as [|fuel IH]; intros stack R Hx HR; [done|].
  simpl. destruct stack as [|c stack']; [by apply elem_of_nil in Hx|].
  destruct (decide (c ∈ R)) as [Hc|Hc].
  - apply IH; [|done]. apply elem_of_cons in Hx as [->|Hx]; [|done].
    by apply HR in Hc.
  - unfold od_item. destruct (od_get node_map c) as [node|] eqn:Hget.
    + apply IH.
      * apply elem_of_app. right.
        apply elem_of_cons in Hx as [->|Hx]; [|done].
        by apply od_get_Some_key in Hget.
      * intros y [->%elem_of_singleton|Hy]%elem_of_union; [|by apply HR].
        by eapply od_get_Some_key.
    + by intros [= <-].
Qed.

Lemma traverse_from_unknown start_nodes (R : gset string) x :
  x ∈ start_nodes → x ∉ od_keys node_map →
  (∀ y, y ∈ R → y ∈ od_keys node_map) →
  traverse_from node_map direction start_nodes R = Raise KeyError.
Proof.
  intros Hx Hnk. revert R Hx.
  induction start_nodes as [|s rest IH]; intros R Hx HR;
    [by apply elem_of_nil in Hx|].
  simpl. pose proof (traverse_while_loop node_map direction [s] R) as Hloop.
  destruct (traverse_while node_map direction [s] R) as [R1|e] eqn:Hw.
  - apply elem_of_cons in Hx as [->|Hx].
    + assert (Hs : s ∈ [s]) by apply list_elem_of_here.
      by pose proof (traverse_loop_unknown _ _ _ _ _ Hs Hnk HR Hloop).
    + apply IH; [done|]. by eapply traverse_loop_keys.
  - by rewrite (traverse_loop_exn _ _ _ _ _ _ Hloop).
Qed.

End traverse_keys.

(** X2. [_traverse] raises [KeyError] as soon as one of the start nodes is
    not a key of [node_map], whatever the other start nodes are. *)
Theorem _traverse_unknown_start_node
  (node_map : odict PipelineNode) (direction : _Direction)
  (start_nodes : list string) (x : string) :
  x ∈ start_nodes → x ∉ od_keys node_map →
  _traverse node_map direction start_nodes = Raise KeyError.
Proof.
  intros Hx Hnk. unfold _traverse.
  apply (traverse_from_unknown _ _ _ _ x Hx Hnk). set_solver.
Qed.

Lemma _traverse_unknown_start_node_witness :
  _traverse (_make_ordered_node_map abc_pipeline) UPSTREAM ["C"; "D"]
  = Raise KeyError.
Proof.
  apply (_traverse_unknown_start_node _ UPSTREAM ["C"; "D"] "D").
  - apply list_elem_of_In. simpl. tauto.
  - intros Hin%node_map_keys. vm_compute in Hin.
    apply list_elem_of_In in Hin. simpl in Hin.
    repeat destruct Hin as [Hin|Hin]; try discriminate; done.
Defined.

(** ** [_ensure_topologically_sorted] *)

Lemma sorted_check_iff direction (visited : gset string) ns :
  sorted_check direction visited ns = Ok tt
  ↔ ∀ i pn x, ns !! i = Some pn →
              x ∈ adjacent direction (get_pipeline_node pn) →
              x ∈ visited ∨ x ∈ node_ids (take i ns).
Proof.
  revert visited. induction ns as [|pn0 rest IH]; intros visited; simpl.
  - split; [|done]. intros _ i pn x Hi. by rewrite lookup_nil in Hi.
  - destruct (forallb _ _) eqn:Hall.
    + assert (Hhead : ∀ x, x ∈ adjacent direction (get_pipeline_node pn0) →
                           x ∈ visited).
      { intros x Hx. apply Is_true_true_2, forallb_True in Hall.
        rewrite Forall_forall in Hall. apply Hall in Hx.
        by apply bool_decide_unpack in Hx. }
      rewrite IH. split.
      * intros H [|i] pn x Hi Hx; simpl in *.
        -- injection Hi as <-. left. by apply Hhead.
        -- destruct (H i pn x Hi Hx) as [Hv|Hv].
           ++ apply elem_of_union in Hv as [->%elem_of_singleton|Hv];
                [right; apply list_elem_of_here | by left].
           ++ right. unfold node_ids. simpl. by apply list_elem_of_further.
      * intros H i pn x Hi Hx.
        destruct (H (S i) pn x Hi Hx) as [Hv|Hv]; [left; set_solver|].
        unfold node_ids in Hv. simpl in Hv.
        apply elem_of_cons in Hv as [->|Hv]; [left; set_solver | by right].
    + split; [done|]. intros H. exfalso.
      assert (forallb (λ x, bool_decide (x ∈ visited))
                (adjacent direction (get_pipeline_node pn0)) = true) as Ht;
        [|congruence].
      apply Is_true_true_1, forallb_True, Forall_forall. intros x Hx.
      apply bool_decide_pack.
      destruct (H 0 pn0 x eq_refl Hx) as [Hv|Hv]; [done|].
      simpl in Hv. by apply elem_of_nil in Hv.
Qed.

Lemma sorted_check_exn direction (visited : gset string) ns :
  sorted_check direction visited ns = Ok tt
  ∨ sorted_check direction visited ns = Raise ValueError.
Proof.
  revert visited. induction ns as [|pn0 rest IH]; intros visited; simpl;
    [by left|].
  destruct (forallb _ _); [apply IH | by right].
Qed.

Lemma topologically_sorted_exn p e :
  _ensure_topologically_sorted p = Raise e → e = ValueError.
Proof.
  unfold _ensure_topologically_sorted.
  destruct (sorted_check_exn UPSTREAM ∅ (nodes p)) as [-> | ->];
    [|by intros [= <-]].
  simpl.
  destruct (sorted_check_exn DOWNSTREAM ∅ (reverse (nodes p))) as [-> | ->];
    [done | by intros [= <-]].
Qed.

(** X3. [_ensure_topologically_sorted] returns exactly when every id in a
    node's [upstream_nodes] is the id of a node placed before it and every
    id in its [downstream_nodes] is the id of a node placed after it;
    otherwise it raises [ValueError]. *)
Theorem _ensure_topologically_sorted_iff (p : Pipeline) :
  (_ensure_topologically_sorted p = Ok tt
   ↔ ∀ i pn, nodes p !! i = Some pn →
       (∀ u, u ∈ upstream_nodes (get_pipeline_node pn) →
             u ∈ node_ids (take i (nodes p)))
       ∧ (∀ d, d ∈ downstream_nodes (get_pipeline_node pn) →
               d ∈ node_ids (drop (S i) (nodes p))))
  ∧ (_ensure_topologically_sorted p ≠ Ok tt →
     _ensure_topologically_sorted p = Raise ValueError).
Proof.
  unfold _ensure_topologically_sorted.
  assert (Hdown :
    sorted_check DOWNSTREAM ∅ (reverse (nodes p)) = Ok tt
    ↔ ∀ i pn, nodes p !! i = Some pn →
        ∀ d, d ∈ downstream_nodes (get_pipeline_node pn) →
             d ∈ node_ids (drop (S i) (nodes p))).
  { rewrite sorted_check_iff. split.
    - intros H i pn Hi d Hd.
      pose proof (lookup_lt_Some _ _ _ Hi) as Hlt.
      destruct (H (length (nodes p) - S i) pn d) as [Hv|Hv]; [|done|set_solver|].
      + rewrite reverse_lookup by lia.
        by replace (length (nodes p) - S (length (nodes p) - S i)) with i
          by lia.
      + rewrite take_reverse, node_ids_reverse in Hv.
        by replace (length (nodes p) - (length (nodes p) - S i)) with (S i)
          in Hv by lia.
    - intros H i pn x Hi Hx. right.
      pose proof (lookup_lt_Some _ _ _ Hi) as Hlt.
      rewrite length_reverse in Hlt.
      rewrite reverse_lookup in Hi by done.
      rewrite take_reverse, node_ids_reverse.
      specialize (H _ _ Hi x Hx).
      by replace (S (length (nodes p) - S i)) with (length (nodes p) - i)
        in H by lia. }
  assert (Hup :
    sorted_check UPSTREAM ∅ (nodes p) = Ok tt
    ↔ ∀ i pn, nodes p !! i = Some pn →
        ∀ u, u ∈ upstream_nodes (get_pipeline_node pn) →
             u ∈ node_ids (take i (nodes p))).
  { rewrite sorted_check_iff. split.
    - intros H i pn Hi u Hu. destruct (H i pn u Hi Hu); [set_solver|done].
    - intros H i pn x Hi Hx. right. by eapply H. }
  destruct (sorted_check_exn UPSTREAM ∅ (nodes p)) as [Hu|Hu];
    destruct (sorted_check_exn DOWNSTREAM ∅ (reverse (nodes p))) as [Hd|Hd];
    rewrite Hu; simpl; rewrite ?Hd; (split; [|done]).
  - split; [|done]. intros _ i pn Hi. split.
    + by apply (proj1 Hup Hu i pn).
    + by apply (proj1 Hdown Hd i pn).
  - split; [done|]. intros H.
    rewrite <- Hd. apply Hdown. intros i pn Hi. by apply H.
  - split; [done|]. intros H.
    rewrite <- Hu. apply Hup. intros i pn Hi. by apply H.
  - split; [done|]. intros H.
    rewrite <- Hu. apply Hup. intros i pn Hi. by apply H.
Qed.


(** ** [_make_ordered_node_map] and [_filter_node_map] *)

Lemma od_set_fresh {V} (m : odict V) k v :
  k ∉ od_keys m → od_set k v m = m ++ [(k, v)].
Proof.
  induction m as [|[k' v'] m IH]; [done|]. rewrite od_keys_cons. simpl.
  intros Hk. apply not_elem_of_cons in Hk as [Hne Hk].
  rewrite decide_False by done. by rewrite IH.
Qed.

Lemma node_map_fold_get ns acc k :
  od_get
    (fold_left
       (λ r pn, od_set (node_id (get_pipeline_node pn))
                  (get_pipeline_node pn) r) ns acc) k
  = match last (filter (λ pn, node_id (get_pipeline_node pn) = k) ns) with
    | Some pn => Some (get_pipeline_node pn)
    | None => od_get acc k
    end.
Proof.
  revert acc. induction ns as [|pn0 rest IH]; intros acc; [done|].
  cbn [fold_left]. rewrite IH, od_get_set, filter_cons.
  destruct (decide (node_id (get_pipeline_node pn0) = k)) as [<-|Hne].
  - rewrite decide_True by done. rewrite last_cons.
    by destruct (last (filter _ rest)).
  - rewrite decide_False by done. done.
Qed.

Lemma node_map_fold_NoDup ns acc :
  NoDup (od_keys acc) →
  NoDup (od_keys
           (fold_left
              (λ r pn, od_set (node_id (get_pipeline_node pn))
                         (get_pipeline_node pn) r) ns acc)).
Proof.
  revert acc. induction ns as [|pn0 rest IH]; intros acc Hnd; [done|].
  simpl. apply IH. by apply od_set_NoDup.
Qed.

(** X4. [_make_ordered_node_map] maps an id to the last node of the
    pipeline that carries it (a later node with the same id replaces an
    earlier one), no key occurs twice, and the keys are the node ids of the
    pipeline. *)
Theorem _make_ordered_node_map_last_wins (p : Pipeline) (k : string) :
  od_get (_make_ordered_node_map p) k
  = get_pipeline_node
    <$> last (filter (λ pn, node_id (get_pipeline_node pn) = k) (nodes p))
  ∧ NoDup (od_keys (_make_ordered_node_map p))
  ∧ (k ∈ od_keys (_make_ordered_node_map p) ↔ k ∈ node_ids (nodes p)).
Proof.
  unfold _make_ordered_node_map. split_and!.
  - rewrite node_map_fold_get. by destruct (last _).
  - apply node_map_fold_NoDup. constructor.
  - apply node_map_keys.
Qed.

Lemma node_map_fold_ordered ns acc :
  NoDup (od_keys acc ++ node_ids ns) →
  fold_left
    (λ r pn, od_set (node_id (get_pipeline_node pn))
               (get_pipeline_node pn) r) ns acc
  = acc ++ ((λ pn, (node_id (get_pipeline_node pn), get_pipeline_node pn))
            <$> ns).
Proof.
  revert acc. induction ns as [|pn0 rest IH]; intros acc Hnd; simpl.
  - by rewrite app_nil_r.
  - unfold node_ids in Hnd. simpl in Hnd.
    assert (Hfresh : node_id (get_pipeline_node pn0) ∉ od_keys acc).
    { apply NoDup_app in Hnd as (_ & Hdisj & _). intros Hin.
      apply (Hdisj _ Hin). apply list_elem_of_here. }
    rewrite od_set_fresh by done. rewrite IH.
    + by rewrite <- app_assoc.
    + unfold od_keys. rewrite fmap_app. simpl. rewrite <- app_assoc. done.
Qed.

Lemma filter_fold_ordered (keep : gset string)
  (m acc : list (string * PipelineNode)) :
  NoDup (od_keys acc ++ od_keys m) →
  fold_left
    (λ r (item : string * PipelineNode),
       if decide (item.1 ∈ keep) then od_set item.1 item.2 r else r)
    m acc
  = acc ++ filter (λ item : string * PipelineNode, item.1 ∈ keep) m.
Proof.
  revert acc. induction m as [|[k n] m IH]; intros acc Hnd; cbn [fold_left].
  - simpl. by rewrite app_nil_r.
  - rewrite od_keys_cons in Hnd. rewrite filter_cons. simpl.
    assert (Hfresh : k ∉ od_keys acc).
    { apply NoDup_app in Hnd as (_ & Hdisj & _). intros Hin.
      apply (Hdisj _ Hin). apply list_elem_of_here. }
    assert (Hnd' : NoDup (od_keys acc ++ od_keys m)).
    { apply NoDup_app in Hnd as (Ha & Hdisj & Hm). apply NoDup_app.
      split_and!; [done| |by apply NoDup_cons in Hm as [_ ?]].
      intros x Hx Hxm. apply (Hdisj x Hx). by apply list_elem_of_further. }
    destruct (decide (k ∈ keep)).
    + rewrite od_set_fresh by done. rewrite IH.
      * by rewrite <- app_assoc.
      * unfold od_keys in *. rewrite fmap_app. simpl.
        rewrite <- app_assoc. done.
    + by apply IH.
Qed.

(** X5. For a pipeline whose node ids are pairwise distinct, the node map
    lists the nodes in pipeline order, and [_filter_node_map] returns the
    entries whose key is in both traversal results, in the same order and
    with the same nodes. *)
Theorem _filter_node_map_keeps_order
  (p : Pipeline) (from_node_ids to_node_ids : list string)
  (kept : odict PipelineNode) :
  NoDup (node_ids (nodes p)) →
  _filter_node_map (_make_ordered_node_map p) from_node_ids to_node_ids
  = Ok kept →
  _make_ordered_node_map p
  = (λ pn, (node_id (get_pipeline_node pn), get_pipeline_node pn))
    <$> nodes p
  ∧ ∃ anc desc : gset string,
      _traverse (_make_ordered_node_map p) UPSTREAM to_node_ids = Ok anc
      ∧ _traverse (_make_ordered_node_map p) DOWNSTREAM from_node_ids
        = Ok desc
      ∧ kept = filter (λ item : string * PipelineNode, item.1 ∈ anc ∩ desc)
                 (_make_ordered_node_map p).
Proof.
  intros Hnd Hf.
  assert (Hmap : _make_ordered_node_map p
                 = (λ pn, (node_id (get_pipeline_node pn),
                           get_pipeline_node pn)) <$> nodes p).
  { unfold _make_ordered_node_map. by rewrite node_map_fold_ordered. }
  split; [done|]. unfold _filter_node_map in Hf.
  destruct (_traverse _ UPSTREAM _) as [anc|] eqn:Ha; [|done].
  destruct (_traverse _ DOWNSTREAM _) as [desc|] eqn:Hd; [|done].
  simpl in Hf. injection Hf as <-. exists anc, desc. split_and!; [done..|].
  apply (filter_fold_ordered _ _ []). simpl.
  apply node_map_fold_NoDup. constructor.
Qed.

Lemma _filter_node_map_keeps_order_witness :
  _make_ordered_node_map abc_pipeline
  = (λ pn, (node_id (get_pipeline_node pn), get_pipeline_node pn))
    <$> nodes abc_pipeline
  ∧ ∃ anc desc : gset string,
      _traverse (_make_ordered_node_map abc_pipeline) UPSTREAM ["C"] = Ok anc
      ∧ _traverse (_make_ordered_node_map abc_pipeline) DOWNSTREAM ["B"]
        = Ok desc
      ∧ [("B", get_pipeline_node (node_of "B" ["A"] ["C"]));
         ("C", get_pipeline_node (node_of "C" ["B"] []))]
        = filter (λ item : string * PipelineNode, item.1 ∈ anc ∩ desc)
            (_make_ordered_node_map abc_pipeline).
Proof.
  apply (_filter_node_map_keeps_order abc_pipeline ["B"] ["C"]).
  - vm_compute. repeat constructor; set_solver.
  - vm_compute. reflexivity.
Defined.

(** ** [_fix_nodes] *)

Lemma filter_length_eq {A} (P : A → Prop) `{∀ x, Decision (P x)}
  (l : list A) :
  length (filter P l) = length l → filter P l = l.
Proof.
  induction l as [|x l IH]; [done|]. rewrite filter_cons.
  destruct (decide (P x)); simpl.
  - intros Hlen. f_equal. apply IH. lia.
  - intros Hlen. pose proof (length_filter P l). lia.
Qed.

Lemma _remove_dangling_downstream_nodes_fields node keep :
  let node' := _remove_dangling_downstream_nodes node keep in
  downstream_nodes node'
  = filter (λ d, keep d = true) (downstream_nodes node)
  ∧ node_id node' = node_id node ∧ node_type node' = node_type node
  ∧ upstream_nodes node' = upstream_nodes node
  ∧ inputs node' = inputs node
  ∧ execution_options node' = execution_options node.
Proof.
  unfold _remove_dangling_downstream_nodes.
  destruct (decide _) as [Hlen|Hlen]; simpl; [|done].
  split_and!; try done. symmetry. by apply filter_length_eq.
Qed.

Lemma _handle_missing_inputs_fields node keep :
  let node' := (_handle_missing_inputs node keep).1 in
  node_id node' = node_id node ∧ node_type node' = node_type node
  ∧ downstream_nodes node' = downstream_nodes node
  ∧ inputs node' = inputs node
  ∧ execution_options node' = execution_options node.
Proof.
  unfold _handle_missing_inputs. by destruct (decide _).
Qed.

Lemma fix_node_fields (keep : string → bool) node :
  let node' := (fix_node keep node).1 in
  upstream_nodes node' = filter (λ u, keep u = true) (upstream_nodes node)
  ∧ downstream_nodes node'
    = filter (λ d, keep d = true) (downstream_nodes node)
  ∧ node_id node' = node_id node ∧ node_type node' = node_type node
  ∧ inputs node' = inputs node
  ∧ execution_options node' = execution_options node.
Proof.
  simpl. destruct (fix_node_spec node keep) as [Hup _].
  unfold fix_node in *.
  destruct (_remove_dangling_downstream_nodes_fields node keep)
    as (Hd & Hi & Ht & Hu & Hin & Ho).
  destruct (_handle_missing_inputs_fields
              (_remove_dangling_downstream_nodes node keep) keep)
    as (Hi' & Ht' & Hd' & Hin' & Ho').
  simpl in *. split_and!; congruence.
Qed.

(** X6. [_fix_nodes] leaves no dangling reference: in the map it returns
    (for a map without repeated keys) every node keeps its id, type, inputs
    and execution options, its [upstream_nodes] and [downstream_nodes] are
    those of the original node that are keys of the map, in the same order,
    and so every id they name is a key of the returned map. *)
Theorem _fix_nodes_no_dangling_reference
  (kept : odict PipelineNode) (k : string) (n' : PipelineNode) :
  NoDup (od_keys kept) →
  od_get (_fix_nodes kept).1 k = Some n' →
  ∃ n, od_get kept k = Some n
       ∧ upstream_nodes n'
         = filter (λ u, u ∈ od_keys kept) (upstream_nodes n)
       ∧ downstream_nodes n'
         = filter (λ d, d ∈ od_keys kept) (downstream_nodes n)
       ∧ node_id n' = node_id n ∧ node_type n' = node_type n
       ∧ inputs n' = inputs n
       ∧ execution_options n' = execution_options n
       ∧ ∀ x, x ∈ upstream_nodes n' ∨ x ∈ downstream_nodes n' →
              x ∈ od_keys (_fix_nodes kept).1.
Proof.
  intros Hnd Hget. destruct (_fix_nodes_spec kept Hnd) as [Hspec _].
  rewrite Hspec in Hget.
  destruct (od_get kept k) as [n|] eqn:Hk; [|done].
  simpl in Hget. injection Hget as <-. exists n. split; [done|].
  destruct (fix_node_fields (od_mem kept) n)
    as (Hu & Hd & Hi & Ht & Hin & Ho).
  assert (Hmem : ∀ u, od_mem kept u = true ↔ u ∈ od_keys kept)
    by (intros; apply od_mem_spec).
  assert (Hu' : upstream_nodes (fix_node (od_mem kept) n).1
                = filter (λ u, u ∈ od_keys kept) (upstream_nodes n)).
  { rewrite Hu. by apply list_filter_iff. }
  assert (Hd' : downstream_nodes (fix_node (od_mem kept) n).1
                = filter (λ u, u ∈ od_keys kept) (downstream_nodes n)).
  { rewrite Hd. by apply list_filter_iff. }
  split_and!; try done.
  intros x Hx. apply _fix_nodes_keys.
  rewrite Hu', Hd' in Hx.
  destruct Hx as [Hx|Hx]; by apply list_elem_of_filter in Hx as [? _].
Qed.

Lemma _fix_nodes_no_dangling_reference_witness :
  ∃ n, od_get [("B", get_pipeline_node (node_of "B" ["A"] ["C"]))] "B"
       = Some n
       ∧ upstream_nodes (mkNode "B" "T" [] [] [("A", mkInputSpec ["A"])]
                           (mkExecOpts false pro_unset))
         = filter (λ u, u ∈ od_keys
                          [("B", get_pipeline_node (node_of "B" ["A"] ["C"]))])
             (upstream_nodes n)
       ∧ downstream_nodes (mkNode "B" "T" [] [] [("A", mkInputSpec ["A"])]
                             (mkExecOpts false pro_unset))
         = filter (λ d, d ∈ od_keys
                          [("B", get_pipeline_node (node_of "B" ["A"] ["C"]))])
             (downstream_nodes n)
       ∧ node_id (mkNode "B" "T" [] [] [("A", mkInputSpec ["A"])]
                    (mkExecOpts false pro_unset)) = node_id n
       ∧ node_type (mkNode "B" "T" [] [] [("A", mkInputSpec ["A"])]
                      (mkExecOpts false pro_unset)) = node_type n
       ∧ inputs (mkNode "B" "T" [] [] [("A", mkInputSpec ["A"])]
                   (mkExecOpts false pro_unset)) = inputs n
       ∧ execution_options
           (mkNode "B" "T" [] [] [("A", mkInputSpec ["A"])]
              (mkExecOpts false pro_unset)) = execution_options n
       ∧ ∀ x, x ∈ upstream_nodes
                    (mkNode "B" "T" [] [] [("A", mkInputSpec ["A"])]
                       (mkExecOpts false pro_unset))
              ∨ x ∈ downstream_nodes
                      (mkNode "B" "T" [] [] [("A", mkInputSpec ["A"])]
                         (mkExecOpts false pro_unset)) →
              x ∈ od_keys
                    (_fix_nodes
                       [("B", get_pipeline_node (node_of "B" ["A"] ["C"]))]).1.
Proof.
  apply (_fix_nodes_no_dangling_reference
           [("B", get_pipeline_node (node_of "B" ["A"] ["C"]))] "B").
  - vm_compute. repeat constructor; set_solver.
  - vm_compute. reflexivity.
Defined.

Lemma od_get_NoDup_elem {V} (m : odict V) k v :
  NoDup (od_keys m) → (k, v) ∈ m → od_get m k = Some v.
Proof.
  induction m as [|[k' v'] m IH]; [by intros _ ?%elem_of_nil|].
  rewrite od_keys_cons. intros [Hk Hnd]%NoDup_cons Hin. simpl.
  apply elem_of_cons in Hin as [[= -> ->]|Hin].
  - by rewrite decide_True.
  - rewrite decide_False; [by apply IH|]. intros ->. apply Hk.
    unfold od_keys. apply list_elem_of_fmap. by exists (k', v).
Qed.

Lemma fix_node_closed (keep : string → bool) node :
  (∀ x, x ∈ upstream_nodes node → keep x = true) →
  (∀ x, x ∈ downstream_nodes node → keep x = true) →
  fix_node keep node = (node, ∅).
Proof.
  intros Hup Hdown. unfold fix_node.
  assert (Hrd : _remove_dangling_downstream_nodes node keep = node).
  { unfold _remove_dangling_downstream_nodes.
    rewrite decide_True; [done|].
    rewrite filter_all_id; [done|]. by apply Forall_forall. }
  rewrite Hrd. unfold _handle_missing_inputs.
  assert (Hnone : filter (λ u, keep u ≠ true) (upstream_nodes node) = []).
  { apply filter_none. intros x Hx Hne. by apply Hne, Hup. }
  rewrite Hnone. by rewrite decide_True.
Qed.

Lemma _fix_nodes_fold_closed (keep : string → bool)
  (m acc1 : list (string * PipelineNode)) (acc2 : gset string) :
  NoDup (od_keys acc1 ++ od_keys m) →
  (∀ k n, (k, n) ∈ m → fix_node keep n = (n, ∅)) →
  fold_left
    (λ (acc : odict PipelineNode * gset string)
       (item : string * PipelineNode),
       let new_node := _remove_dangling_downstream_nodes item.2 keep in
       let '(new_node, excluded_direct_deps) :=
         _handle_missing_inputs new_node keep in
       (od_set item.1 new_node acc.1, acc.2 ∪ excluded_direct_deps))
    m (acc1, acc2)
  = (acc1 ++ m, acc2).
Proof.
  revert acc1. induction m as [|[k n] m IH]; intros acc1 Hnd Hfix;
    cbn [fold_left].
  - by rewrite app_nil_r.
  - rewrite od_keys_cons in Hnd.
    assert (Hfresh : k ∉ od_keys acc1).
    { apply NoDup_app in Hnd as (_ & Hdisj & _). intros Hin.
      apply (Hdisj _ Hin). apply list_elem_of_here. }
    pose proof (Hfix k n (list_elem_of_here _ _)) as Hn.
    unfold fix_node in Hn. simpl. rewrite Hn. simpl.
    rewrite od_set_fresh by done. rewrite (right_id_L ∅ (∪)).
    rewrite IH.
    + by rewrite <- app_assoc.
    + unfold od_keys in *. rewrite fmap_app. simpl.
      by rewrite <- app_assoc.
    + intros k' n' Hin. apply (Hfix k' n'). by apply list_elem_of_further.
Qed.

(** X7. A node map without repeated keys in which every upstream and
    downstream id is a key comes back from [_fix_nodes] as it is, with an
    empty set of excluded direct dependencies. *)
Theorem _fix_nodes_closed_map_unchanged (kept : odict PipelineNode) :
  NoDup (od_keys kept) →
  linked kept UPSTREAM → linked kept DOWNSTREAM →
  _fix_nodes kept = (kept, ∅).
Proof.
  intros Hnd Hup Hdown. unfold _fix_nodes.
  apply (_fix_nodes_fold_closed (od_mem kept) kept [] ∅); [done|].
  intros k n Hin. pose proof (od_get_NoDup_elem _ _ _ Hnd Hin) as Hget.
  apply fix_node_closed; intros x Hx; apply od_mem_spec.
  - by apply (Hup k n x Hget).
  - by apply (Hdown k n x Hget).
Qed.

Lemma _fix_nodes_closed_map_unchanged_witness :
  _fix_nodes (_make_ordered_node_map abc_pipeline)
  = (_make_ordered_node_map abc_pipeline, ∅).
Proof.
  apply (_fix_nodes_closed_map_unchanged
           (_make_ordered_node_map abc_pipeline)).
  - vm_compute. repeat constructor; set_solver.
  - apply sorted_pipeline_linked. reflexivity.
  - apply sorted_pipeline_linked. reflexivity.
Defined.

(** ** [mark_pipeline] as a whole *)

Lemma _ensure_no_subpipeline_nodes_loop_iff ns :
  (_ensure_no_subpipeline_nodes_loop ns = Ok tt ↔ sub_pipeline ∉ ns)
  ∧ (_ensure_no_subpipeline_nodes_loop ns = Ok tt
     ∨ _ensure_no_subpipeline_nodes_loop ns = Raise ValueError).
Proof.
  induction ns as [|pn rest [IH1 IH2]]; simpl.
  - split; [|by left]. split; [|done]. intros _ Hin.
    by apply elem_of_nil in Hin.
  - destruct pn as [n|]; simpl.
    + split; [|done]. rewrite IH1. rewrite not_elem_of_cons. naive_solver.
    + split; [|by right]. split; [done|]. intros Hn. exfalso. apply Hn.
      apply list_elem_of_here.
Qed.

Lemma mark_pipeline_Ok_checks p from_nodes to_nodes cs p' :
  mark_pipeline p from_nodes to_nodes cs = Ok p' →
  execution_mode p = SYNC ∧ (sub_pipeline ∉ nodes p)
  ∧ _ensure_topologically_sorted p = Ok tt.
Proof.
  rewrite mark_pipeline_unfold. unfold _ensure_sync_pipeline.
  destruct (decide (execution_mode p ≠ SYNC)) as [Hm|Hm]; [done|].
  apply dec_stable in Hm. simpl.
  destruct (_ensure_no_subpipeline_nodes p) as [[]|] eqn:Hsub; [|done].
  simpl. destruct (_ensure_topologically_sorted p) as [[]|] eqn:Hs; [|done].
  intros _. split_and!; [done| |done].
  by apply _ensure_no_subpipeline_nodes_loop_iff.
Qed.

(** X8. [mark_pipeline] touches nothing but the partial-run option of each
    node: the pipeline's id, execution mode and run id, the number and order
    of the nodes and, for every node, its id, type, upstream and downstream
    nodes, inputs and caching option are as before, and every node ends up
    with either [run] or [skip] set. *)
Theorem mark_pipeline_changes_only_partial_run_option
  (p : Pipeline) (from_nodes to_nodes : string → bool) (cs : ChiefSettings)
  (p' : Pipeline) :
  mark_pipeline p from_nodes to_nodes cs = Ok p' →
  pipeline_info_id p' = pipeline_info_id p
  ∧ execution_mode p' = execution_mode p
  ∧ pipeline_run_id p' = pipeline_run_id p
  ∧ length (nodes p') = length (nodes p)
  ∧ ∀ j pn', nodes p' !! j = Some pn' →
      ∃ n o, nodes p !! j = Some (pipeline_node n)
             ∧ pn' = pipeline_node
                       (mkNode (node_id n) (node_type n) (upstream_nodes n)
                          (downstream_nodes n) (inputs n)
                          (mkExecOpts (enable_cache (execution_options n)) o))
             ∧ o ≠ pro_unset.
Proof.
  intros Hmark.
  destruct (mark_pipeline_Ok_checks _ _ _ _ _ Hmark) as (_ & Hsub & _).
  destruct (mark_pipeline_Ok _ _ _ _ _ Hmark) as (keep & excl & _ & ->).
  simpl. split_and!; try done.
  - apply mark_nodes_loop_length.
  - intros j pn' Hj. pose proof (lookup_lt_Some _ _ _ Hj) as Hlt.
    rewrite mark_nodes_loop_length in Hlt.
    destruct (lookup_lt_is_Some_2 (nodes p) j Hlt) as [pn Hpn].
    rewrite (mark_nodes_loop_lookup _ _ _ _ _ _ _ Hpn) in Hj.
    injection Hj as <-.
    destruct pn as [n|];
      [|exfalso; apply Hsub; by eapply list_elem_of_lookup_2].
    exists n. eexists. split; [done|]. unfold update_partial_run_option.
    simpl. split; [reflexivity|].
    destruct (decide _); [destruct (nominated _ _ _)|];
      unfold run_SetInParent, run_chief_settings_CopyFrom,
        skip_set_child_in_partial_run;
      by destruct (partial_run_option (execution_options n)).
Qed.

Lemma mark_pipeline_changes_only_partial_run_option_witness :
  ∃ p', mark_pipeline abc_pipeline (λ i, bool_decide (i = "B")) (λ _, true)
          _default_chief_settings = Ok p'
  ∧ pipeline_info_id p' = pipeline_info_id abc_pipeline
  ∧ execution_mode p' = execution_mode abc_pipeline
  ∧ pipeline_run_id p' = pipeline_run_id abc_pipeline
  ∧ length (nodes p') = length (nodes abc_pipeline)
  ∧ ∀ j pn', nodes p' !! j = Some pn' →
      ∃ n o, nodes abc_pipeline !! j = Some (pipeline_node n)
             ∧ pn' = pipeline_node
                       (mkNode (node_id n) (node_type n) (upstream_nodes n)
                          (downstream_nodes n) (inputs n)
                          (mkExecOpts (enable_cache (execution_options n)) o))
             ∧ o ≠ pro_unset.
Proof.
  eexists. split; [vm_compute; reflexivity|].
  apply (mark_pipeline_changes_only_partial_run_option abc_pipeline
           (λ i, bool_decide (i = "B")) (λ _, true) _default_chief_settings).
  vm_compute. reflexivity.
Defined.

(** X9. [mark_pipeline] returns exactly when the pipeline is SYNC, holds
    no sub-pipeline and is topologically sorted; whenever it does not
    return, the exception is [ValueError] (the traversal never fails with
    [KeyError] once the checks have passed). *)
Theorem mark_pipeline_returns_iff_checks_pass
  (p : Pipeline) (from_nodes to_nodes : string → bool) (cs : ChiefSettings) :
  ((∃ p', mark_pipeline p from_nodes to_nodes cs = Ok p')
   ↔ execution_mode p = SYNC ∧ (sub_pipeline ∉ nodes p)
     ∧ _ensure_topologically_sorted p = Ok tt)
  ∧ ∀ e, mark_pipeline p from_nodes to_nodes cs = Raise e → e = ValueError.
Proof.
  split.
  - split; [intros [p' Hp']; by eapply mark_pipeline_Ok_checks|].
    intros (Hm & Hsub & Hs). rewrite mark_pipeline_unfold.
    unfold _ensure_sync_pipeline. rewrite decide_False by (by intros ?).
    simpl. unfold _ensure_no_subpipeline_nodes.
    apply _ensure_no_subpipeline_nodes_loop_iff in Hsub. rewrite Hsub, Hs.
    simpl.
    destruct (mark_plan_spec p from_nodes to_nodes Hs)
      as (keep & excl & -> & _).
    simpl. by eexists.
  - intros e. rewrite mark_pipeline_unfold. unfold _ensure_sync_pipeline.
    destruct (decide (execution_mode p ≠ SYNC)); [by intros [= <-]|].
    simpl. unfold _ensure_no_subpipeline_nodes.
    destruct (_ensure_no_subpipeline_nodes_loop_iff (nodes p))
      as [_ [->| ->]]; [|by intros [= <-]].
    simpl.
    destruct (_ensure_topologically_sorted p) as [[]|e'] eqn:Hs.
    + simpl. destruct (mark_plan_spec p from_nodes to_nodes Hs)
        as (keep & excl & -> & _). done.
    + simpl. apply topologically_sorted_exn in Hs as ->.
      by intros [= <-].
Qed.

Lemma mark_pipeline_node_lookup p from_nodes to_nodes cs p' j pn' :
  mark_pipeline p from_nodes to_nodes cs = Ok p' →
  nodes p' !! j = Some pn' →
  ∃ keep excl pn,
    mark_plan p from_nodes to_nodes = Ok (keep, excl)
    ∧ (∀ k, k ∈ keep ↔ selected p from_nodes DOWNSTREAM k
                       ∧ selected p to_nodes UPSTREAM k)
    ∧ nodes p !! j = Some pn
    ∧ pn' = update_partial_run_option
              (if decide (node_id (get_pipeline_node pn) ∈ keep)
               then if nominated keep false (take j (nodes p))
                    then run_SetInParent
                    else run_chief_settings_CopyFrom cs
               else skip_set_child_in_partial_run
                      (bool_decide (node_id (get_pipeline_node pn) ∈ excl)))
              pn.
Proof.
  intros Hmark Hj.
  destruct (mark_pipeline_Ok_checks _ _ _ _ _ Hmark) as (_ & _ & Hs).
  destruct (mark_pipeline_Ok _ _ _ _ _ Hmark) as (keep & excl & Hplan & ->).
  destruct (mark_plan_spec p from_nodes to_nodes Hs)
    as (keep' & excl' & Hplan' & Hkeep).
  rewrite Hplan in Hplan'. injection Hplan' as <- <-.
  simpl in Hj. pose proof (lookup_lt_Some _ _ _ Hj) as Hlt.
  rewrite mark_nodes_loop_length in Hlt.
  destruct (lookup_lt_is_Some_2 (nodes p) j Hlt) as [pn Hpn].
  rewrite (mark_nodes_loop_lookup _ _ _ _ _ _ _ Hpn) in Hj.
  injection Hj as <-. by exists keep, excl, pn.
Qed.

(** X10. With the default predicates (every node is a from-node and a
    to-node) [mark_pipeline] marks every node to run, none to skip, and the
    first node of the pipeline is the chief. *)
Theorem mark_pipeline_default_runs_every_node
  (p : Pipeline) (cs : ChiefSettings) (p' : Pipeline) :
  mark_pipeline p (λ _, true) (λ _, true) cs = Ok p' →
  (∀ pn', pn' ∈ nodes p' → marked_run pn')
  ∧ (∀ pn', nodes p' !! 0 = Some pn' → chief_settings_of pn' = Some cs).
Proof.
  intros Hmark.
  assert (Hall : ∀ j (keep : gset string) pn,
            (∀ k, k ∈ keep ↔ selected p (λ _, true) DOWNSTREAM k
                             ∧ selected p (λ _, true) UPSTREAM k) →
            nodes p !! j = Some pn →
            node_id (get_pipeline_node pn) ∈ keep).
  { intros j keep pn Hkeep Hpn. apply Hkeep.
    assert (node_id (get_pipeline_node pn) ∈ node_ids (nodes p)) as Hin.
    { unfold node_ids. apply list_elem_of_fmap. exists pn. split; [done|].
      by eapply list_elem_of_lookup_2. }
    split; exists (node_id (get_pipeline_node pn)); by split_and!. }
  split.
  - intros pn' (j & Hj)%list_elem_of_lookup.
    destruct (mark_pipeline_node_lookup _ _ _ _ _ _ _ Hmark Hj)
      as (keep & excl & pn & _ & Hkeep & Hpn & ->).
    rewrite decide_True by (by eapply Hall).
    unfold marked_run, update_partial_run_option. simpl.
    destruct (nominated _ _ _); [|by eexists].
    unfold run_SetInParent.
    destruct (partial_run_option _); by eexists.
  - intros pn' Hj.
    destruct (mark_pipeline_node_lookup _ _ _ _ _ _ _ Hmark Hj)
      as (keep & excl & pn & _ & Hkeep & Hpn & ->).
    rewrite decide_True by (by eapply Hall).
    by rewrite take_0.
Qed.

Lemma mark_pipeline_default_runs_every_node_witness :
  ∃ p', mark_pipeline abc_pipeline (λ _, true) (λ _, true)
          _default_chief_settings = Ok p'
  ∧ (∀ pn', pn' ∈ nodes p' → marked_run pn')
  ∧ (∀ pn', nodes p' !! 0 = Some pn' →
            chief_settings_of pn' = Some _default_chief_settings).
Proof.
  eexists. split; [vm_compute; reflexivity|].
  apply (mark_pipeline_default_runs_every_node abc_pipeline
           _default_chief_settings).
  vm_compute. reflexivity.
Defined.

(** X11. When no node id satisfies [from_nodes], or none satisfies
    [to_nodes], [mark_pipeline] marks every node [skip] with
    [child_in_partial_run] false: nothing runs and there is no chief. *)
Theorem mark_pipeline_empty_selection_skips_all
  (p : Pipeline) (from_nodes to_nodes : string → bool) (cs : ChiefSettings)
  (p' : Pipeline) :
  (∀ i, i ∈ node_ids (nodes p) → from_nodes i = false)
  ∨ (∀ i, i ∈ node_ids (nodes p) → to_nodes i = false) →
  mark_pipeline p from_nodes to_nodes cs = Ok p' →
  ∀ pn', pn' ∈ nodes p' →
         partial_run_option (execution_options (get_pipeline_node pn'))
         = pro_skip (mkSkip false).
Proof.
  intros Hnone Hmark pn' (j & Hj)%list_elem_of_lookup.
  destruct (mark_pipeline_node_lookup _ _ _ _ _ _ _ Hmark Hj)
    as (keep & excl & pn & Hplan & Hkeep & Hpn & ->).
  assert (Hempty : ∀ k, k ∉ keep).
  { intros k [(s & Hs & Hf & _) (s' & Hs' & Ht & _)]%Hkeep.
    destruct Hnone as [Hn|Hn]; [rewrite Hn in Hf | rewrite Hn in Ht]; done. }
  unfold mark_plan in Hplan.
  destruct (kept_node_map p from_nodes to_nodes) as [kept|]; [|done].
  simpl in Hplan. injection Hplan as Hk He.
  assert (kept = []) as ->.
  { destruct kept as [|[k n] kept]; [done|]. exfalso. apply (Hempty k).
    rewrite <- Hk. apply elem_of_list_to_set, _fix_nodes_keys.
    rewrite od_keys_cons. apply list_elem_of_here. }
  rewrite decide_False by apply Hempty.
  unfold update_partial_run_option. simpl. rewrite <- He.
  change (_fix_nodes []).2 with (∅ : gset string).
  by rewrite bool_decide_eq_false_2 by set_solver.
Qed.

Lemma mark_pipeline_empty_selection_skips_all_witness :
  ∃ p', mark_pipeline abc_pipeline (λ _, false) (λ _, true)
          _default_chief_settings = Ok p'
  ∧ ∀ pn', pn' ∈ nodes p' →
           partial_run_option (execution_options (get_pipeline_node pn'))
           = pro_skip (mkSkip false).
Proof.
  eexists. split; [vm_compute; reflexivity|].
  apply (mark_pipeline_empty_selection_skips_all abc_pipeline (λ _, false)
           (λ _, true) _default_chief_settings).
  - left. reflexivity.
  - vm_compute. reflexivity.
Defined.

(** * Further properties of the recycler *)

(** ** [_compute_nodes_to_reuse] *)

Lemma node_ids_filter_elem (sel : PipelineNode → bool) ns s :
  s ∈ node_ids (filter (λ pn, sel (get_pipeline_node pn) = true) ns)
  ↔ ∃ pn, pn ∈ ns ∧ sel (get_pipeline_node pn) = true
          ∧ node_id (get_pipeline_node pn) = s.
Proof.
  unfold node_ids. rewrite list_elem_of_fmap. split.
  - intros (pn & -> & [Hsel Hin]%list_elem_of_filter). by exists pn.
  - intros (pn & Hin & Hsel & <-). exists pn. split; [done|].
    by apply list_elem_of_filter.
Qed.

Lemma _traverse_reached_from p sel direction :
  _ensure_topologically_sorted p = Ok tt →
  ∃ R : gset string,
    _traverse (_make_ordered_node_map p) direction
      (node_ids (filter (λ pn, sel (get_pipeline_node pn) = true) (nodes p)))
    = Ok R
    ∧ ∀ y, y ∈ R ↔ reached_from p sel direction y.
Proof.
  intros Hs.
  destruct (_traverse_reachable (_make_ordered_node_map p) direction
              (node_ids (filter (λ pn, sel (get_pipeline_node pn) = true)
                           (nodes p))))
    as (R & HR & Hiff).
  - by apply sorted_pipeline_linked.
  - intros s (pn & Hin & _ & <-)%node_ids_filter_elem.
    apply node_map_keys. unfold node_ids. apply list_elem_of_fmap.
    by exists pn.
  - exists R. split; [done|]. intros y. rewrite Hiff. split.
    + intros (s & (pn & Hin & Hsel & <-)%node_ids_filter_elem & Hrtc).
      by exists pn.
    + intros (pn & Hin & Hsel & Hrtc).
      exists (node_id (get_pipeline_node pn)). split; [|done].
      apply node_ids_filter_elem. by exists pn.
Qed.

Lemma compute_nodes_to_reuse_cases (p : Pipeline) :
  _ensure_topologically_sorted p = Ok tt →
  match _compute_nodes_to_reuse p with
  | Ok reused =>
      (¬ ∃ k, reached_from p has_run DOWNSTREAM k
              ∧ reached_from p has_skip_with_child UPSTREAM k)
      ∧ ∀ k, k ∈ reused ↔ k ∈ node_ids (nodes p)
                     ∧ ¬ reached_from p has_run DOWNSTREAM k
  | Raise e =>
      e = ValueError
      ∧ ∃ k, reached_from p has_run DOWNSTREAM k
             ∧ reached_from p has_skip_with_child UPSTREAM k
  end.
Proof.
  intros Hs. unfold _compute_nodes_to_reuse.
  destruct (_traverse_reached_from p has_run DOWNSTREAM Hs)
    as (excl & -> & Hexcl).
  destruct (_traverse_reached_from p has_skip_with_child UPSTREAM Hs)
    as (incl & -> & Hincl).
  simpl. destruct (decide (excl ## incl)) as [Hd|Hd].
  - split.
    + intros (k & Hk1%Hexcl & Hk2%Hincl). by apply (Hd k).
    + intros k. rewrite elem_of_difference, elem_of_list_to_set.
      by rewrite node_map_keys, Hexcl.
  - split; [done|].
    destruct (set_choose_L (excl ∩ incl)) as [k Hk].
    { intros Hempty. by apply Hd, disjoint_intersection_L. }
    apply elem_of_intersection in Hk as [Hk1 Hk2].
    exists k. split; [by apply Hexcl | by apply Hincl].
Qed.

(** X12. On a topologically sorted pipeline, [_compute_nodes_to_reuse]
    raises [ValueError] exactly when some node is both downstream of (or
    equal to) a node marked [run] and upstream of (or equal to) a node marked
    [skip] with [child_in_partial_run]; otherwise it returns the ids of the
    nodes that are not downstream of, nor equal to, any node marked [run]. *)
Theorem _compute_nodes_to_reuse_spec (p : Pipeline) :
  _ensure_topologically_sorted p = Ok tt →
  match _compute_nodes_to_reuse p with
  | Ok reused =>
      (¬ ∃ k, reached_from p has_run DOWNSTREAM k
              ∧ reached_from p has_skip_with_child UPSTREAM k)
      ∧ ∀ k, k ∈ reused ↔ k ∈ node_ids (nodes p)
                     ∧ ¬ reached_from p has_run DOWNSTREAM k
  | Raise e =>
      e = ValueError
      ∧ ∃ k, reached_from p has_run DOWNSTREAM k
             ∧ reached_from p has_skip_with_child UPSTREAM k
  end.
Proof. apply compute_nodes_to_reuse_cases. Qed.

Lemma _compute_nodes_to_reuse_spec_witness :
  match _compute_nodes_to_reuse abc_marked with
  | Ok reused =>
      (¬ ∃ k, reached_from abc_marked has_run DOWNSTREAM k
              ∧ reached_from abc_marked has_skip_with_child UPSTREAM k)
      ∧ ∀ k, k ∈ reused ↔ k ∈ node_ids (nodes abc_marked)
                     ∧ ¬ reached_from abc_marked has_run DOWNSTREAM k
  | Raise e =>
      e = ValueError
      ∧ ∃ k, reached_from abc_marked has_run DOWNSTREAM k
             ∧ reached_from abc_marked has_skip_with_child UPSTREAM k
  end.
Proof.
  apply (_compute_nodes_to_reuse_spec abc_marked). reflexivity.
Defined.

(** ** Marking keeps the graph *)

Lemma mark_nodes_loop_same_graph ns (keep excl : gset string) cs b :
  Forall2 same_graph_node ns (mark_nodes_loop ns keep excl cs b).
Proof.
  revert b. induction ns as [|pn rest IH]; intros b; simpl; [constructor|].
  destruct (decide _); [destruct b|]; (constructor; [done | apply IH]).
Qed.

Lemma sorted_check_same_graph direction (visited : gset string) ns ns' :
  Forall2 same_graph_node ns ns' →
  sorted_check direction visited ns' = sorted_check direction visited ns.
Proof.
  intros H. revert visited.
  induction H as [|pn pn' ns ns' (Hi & Hu & Hd) _ IH]; intros visited;
    [done|].
  simpl. rewrite Hi.
  assert (adjacent direction (get_pipeline_node pn')
          = adjacent direction (get_pipeline_node pn)) as ->
    by (by destruct direction).
  destruct (forallb _ _); [apply IH | done].
Qed.

Lemma _ensure_topologically_sorted_same_graph p p' :
  Forall2 same_graph_node (nodes p) (nodes p') →
  _ensure_topologically_sorted p' = _ensure_topologically_sorted p.
Proof.
  intros H. unfold _ensure_topologically_sorted.
  rewrite (sorted_check_same_graph _ _ _ _ H).
  by rewrite (sorted_check_same_graph _ _ _ _ (Forall2_reverse _ _ _ H)).
Qed.

Lemma last_filter_same_graph ns ns' k :
  Forall2 same_graph_node ns ns' →
  match last (filter (λ pn, node_id (get_pipeline_node pn) = k) ns),
        last (filter (λ pn, node_id (get_pipeline_node pn) = k) ns') with
  | Some a, Some b => same_graph_node a b
  | None, None => True
  | _, _ => False
  end.
Proof.
  induction 1 as [|pn pn' ns ns' Hsame _ IH]; [done|].
  rewrite !filter_cons. destruct Hsame as (Hi & Hu & Hd). rewrite Hi.
  destruct (decide (node_id (get_pipeline_node pn) = k)); [|done].
  rewrite !last_cons.
  destruct (last (filter _ ns)), (last (filter _ ns')); done.
Qed.

Lemma node_map_same_graph p p' k :
  Forall2 same_graph_node (nodes p) (nodes p') →
  match od_get (_make_ordered_node_map p) k,
        od_get (_make_ordered_node_map p') k with
  | Some n, Some n' =>
      upstream_nodes n' = upstream_nodes n
      ∧ downstream_nodes n' = downstream_nodes n
  | None, None => True
  | _, _ => False
  end.
Proof.
  intros H. unfold _make_ordered_node_map. rewrite !node_map_fold_get.
  pose proof (last_filter_same_graph _ _ k H) as Hl.
  destruct (last (filter _ (nodes p))), (last (filter _ (nodes p')));
    simpl; try done.
  by destruct Hl as (_ & ? & ?).
Qed.

Lemma edge_same_graph p p' direction x y :
  Forall2 same_graph_node (nodes p) (nodes p') →
  edge (_make_ordered_node_map p') direction x y
  ↔ edge (_make_ordered_node_map p) direction x y.
Proof.
  intros H. pose proof (node_map_same_graph p p' x H) as Hx. unfold edge.
  destruct (od_get (_make_ordered_node_map p) x) as [n|],
    (od_get (_make_ordered_node_map p') x) as [n'|]; try done.
  destruct Hx as [Hu Hd]. split.
  - intros (? & [= <-] & Hy). exists n. split; [done|].
    destruct direction; simpl in *; congruence.
  - intros (? & [= <-] & Hy). exists n'. split; [done|].
    destruct direction; simpl in *; congruence.
Qed.

Lemma rtc_same_graph p p' direction x y :
  Forall2 same_graph_node (nodes p) (nodes p') →
  rtc (edge (_make_ordered_node_map p') direction) x y
  ↔ rtc (edge (_make_ordered_node_map p) direction) x y.
Proof.
  intros H. split; apply rtc_subrel; intros a b Hab;
    by apply (edge_same_graph p p' direction a b H).
Qed.

(** ** Consistent edges *)

Lemma edges_consistent_edge node_map a b :
  edges_consistent node_map = true → NoDup (od_keys node_map) →
  edge node_map UPSTREAM a b ↔ edge node_map DOWNSTREAM b a.
Proof.
  intros Hc Hnd. unfold edges_consistent in Hc.
  apply Is_true_true_2, forallb_True in Hc. rewrite Forall_forall in Hc.
  split; intros (n & Hget & Hin); simpl in Hin.
  - pose proof (Hc _ (od_get_Some_elem _ _ _ Hget)) as Hitem.
    apply andb_True in Hitem as [Hup _].
    apply forallb_True in Hup. rewrite Forall_forall in Hup.
    specialize (Hup b Hin). simpl in Hup.
    destruct (od_get node_map b) as [n'|] eqn:Hb; [|done].
    apply bool_decide_unpack in Hup. by exists n'.
  - pose proof (Hc _ (od_get_Some_elem _ _ _ Hget)) as Hitem.
    apply andb_True in Hitem as [_ Hdown].
    apply forallb_True in Hdown. rewrite Forall_forall in Hdown.
    specialize (Hdown a Hin). simpl in Hdown.
    destruct (od_get node_map a) as [n'|] eqn:Ha; [|done].
    apply bool_decide_unpack in Hdown. by exists n'.
Qed.

Lemma edges_consistent_rtc node_map a b :
  edges_consistent node_map = true → NoDup (od_keys node_map) →
  rtc (edge node_map UPSTREAM) a b ↔ rtc (edge node_map DOWNSTREAM) b a.
Proof.
  intros Hc Hnd. split.
  - induction 1 as [|x y z Hxy _ IH]; [done|].
    eapply rtc_r; [exact IH|]. by apply edges_consistent_edge.
  - induction 1 as [|x y z Hxy _ IH]; [done|].
    eapply rtc_r; [exact IH|]. by apply edges_consistent_edge.
Qed.

(** ** [_compute_nodes_to_reuse] after [mark_pipeline] *)

Lemma kept_node_map_get p from_nodes to_nodes kept k n :
  kept_node_map p from_nodes to_nodes = Ok kept →
  od_get kept k = Some n → od_get (_make_ordered_node_map p) k = Some n.
Proof.
  unfold kept_node_map, _filter_node_map. intros Hf Hget.
  destruct (_traverse _ UPSTREAM _) as [anc|]; [|done].
  destruct (_traverse _ DOWNSTREAM _) as [desc|]; [|done].
  simpl in Hf. injection Hf as <-.
  assert (Hnd : NoDup (od_keys (_make_ordered_node_map p))).
  { apply node_map_fold_NoDup. constructor. }
  rewrite (filter_fold_ordered _ _ []) in Hget by done.
  apply od_get_Some_elem in Hget. simpl in Hget.
  apply list_elem_of_filter in Hget as [_ Hin].
  by apply od_get_NoDup_elem.
Qed.

Lemma marked_node_options p from_nodes to_nodes cs p' keep excl j pn' :
  mark_pipeline p from_nodes to_nodes cs = Ok p' →
  mark_plan p from_nodes to_nodes = Ok (keep, excl) →
  nodes p' !! j = Some pn' →
  (has_run (get_pipeline_node pn') = true
   ↔ node_id (get_pipeline_node pn') ∈ keep)
  ∧ (has_skip_with_child (get_pipeline_node pn') = true
     ↔ (node_id (get_pipeline_node pn') ∉ keep)
       ∧ node_id (get_pipeline_node pn') ∈ excl)
  ∧ (node_id (get_pipeline_node pn') ∉ keep → marked_skip pn').
Proof.
  intros Hmark Hplan Hj.
  destruct (mark_pipeline_node_lookup _ _ _ _ _ _ _ Hmark Hj)
    as (keep' & excl' & pn & Hplan' & _ & Hpn & ->).
  rewrite Hplan in Hplan'. injection Hplan' as <- <-.
  rewrite update_partial_run_option_id.
  unfold has_run, has_skip_with_child, marked_skip,
    update_partial_run_option. simpl.
  destruct (decide (node_id (get_pipeline_node pn) ∈ keep)) as [Hin|Hin].
  - assert (∃ r, (if nominated keep false (take j (nodes p))
                  then run_SetInParent
                  else run_chief_settings_CopyFrom cs)
                   (partial_run_option
                      (execution_options (get_pipeline_node pn)))
                 = pro_run r) as [r ->].
    { destruct (nominated _ _ _); [|by eexists].
      unfold run_SetInParent. destruct (partial_run_option _); by eexists. }
    split_and!; [done| |done]. split; [done|]. by intros [? _].
  - simpl. split_and!.
    + split; [done|]. by intros ?.
    + rewrite bool_decide_eq_true. naive_solver.
    + intros _. by eexists.
Qed.

Lemma excluded_dependency_edge p from_nodes to_nodes keep excl x :
  mark_plan p from_nodes to_nodes = Ok (keep, excl) →
  x ∈ excl →
  (x ∉ keep)
  ∧ ∃ k, k ∈ keep ∧ edge (_make_ordered_node_map p) UPSTREAM k x.
Proof.
  unfold mark_plan. intros Hplan Hx.
  destruct (kept_node_map p from_nodes to_nodes) as [kept|] eqn:Hkept;
    [|done].
  simpl in Hplan. injection Hplan as <- <-.
  pose proof (_filter_node_map_NoDup _ _ _ _ Hkept) as Hnd.
  destruct (_fix_nodes_spec kept Hnd) as [_ Hexcl].
  apply Hexcl in Hx as (k & n & Hk & Hx).
  apply fix_node_spec in Hx as (Hup & Hnk & _).
  split.
  - rewrite elem_of_list_to_set, _fix_nodes_keys. intros Hin.
    by apply Hnk, od_mem_spec.
  - exists k. split.
    + rewrite elem_of_list_to_set, _fix_nodes_keys.
      by eapply od_get_Some_key.
    + exists n. split; [|done]. by eapply kept_node_map_get.
Qed.

(** X13. On a pipeline whose upstream and downstream lists agree, the
    output of [mark_pipeline] is always accepted by
    [_compute_nodes_to_reuse]: it returns the nodes that are not downstream
    of, nor equal to, a node marked to run.  Every node marked [skip] with
    [child_in_partial_run] is among them, and every node among them is
    marked [skip]. *)
Theorem mark_pipeline_output_is_reusable
  (p : Pipeline) (from_nodes to_nodes : string → bool) (cs : ChiefSettings)
  (p' : Pipeline) :
  edges_consistent (_make_ordered_node_map p) = true →
  mark_pipeline p from_nodes to_nodes cs = Ok p' →
  ∃ reused : gset string,
    _compute_nodes_to_reuse p' = Ok reused
    ∧ (∀ k, k ∈ reused
            ↔ k ∈ node_ids (nodes p)
              ∧ ¬ ∃ r, (selected p from_nodes DOWNSTREAM r
                        ∧ selected p to_nodes UPSTREAM r)
                       ∧ rtc (edge (_make_ordered_node_map p) DOWNSTREAM)
                           r k)
    ∧ (∀ pn', pn' ∈ nodes p' →
              has_skip_with_child (get_pipeline_node pn') = true →
              node_id (get_pipeline_node pn') ∈ reused)
    ∧ (∀ pn', pn' ∈ nodes p' →
              node_id (get_pipeline_node pn') ∈ reused → marked_skip pn').
Proof.
  intros Hcons Hmark.
  destruct (mark_pipeline_Ok_checks _ _ _ _ _ Hmark) as (_ & _ & Hs).
  destruct (mark_pipeline_Ok _ _ _ _ _ Hmark) as (keep & excl & Hplan & Hp').
  destruct (mark_plan_spec p from_nodes to_nodes Hs)
    as (keep' & excl' & Hplan' & Hkeep).
  rewrite Hplan in Hplan'. injection Hplan' as <- <-.
  assert (Hsame : Forall2 same_graph_node (nodes p) (nodes p')).
  { rewrite Hp'. apply mark_nodes_loop_same_graph. }
  assert (Hids : node_ids (nodes p') = node_ids (nodes p)).
  { rewrite Hp'. apply mark_nodes_loop_ids. }
  assert (Hs' : _ensure_topologically_sorted p' = Ok tt).
  { by rewrite (_ensure_topologically_sorted_same_graph p p'). }
  assert (Hnd : NoDup (od_keys (_make_ordered_node_map p))).
  { apply node_map_fold_NoDup. constructor. }
  (* the nodes reached from a node marked to run *)
  assert (Hrun : ∀ y, reached_from p' has_run DOWNSTREAM y
                      ↔ ∃ r, r ∈ keep
                             ∧ rtc (edge (_make_ordered_node_map p)
                                      DOWNSTREAM) r y).
  { intros y. split.
    - intros (pn' & (j & Hj)%list_elem_of_lookup & Hsel & Hrtc).
      exists (node_id (get_pipeline_node pn')). split.
      + by apply (marked_node_options _ _ _ _ _ _ _ _ _ Hmark Hplan Hj).
      + by apply (rtc_same_graph p p').
    - intros (r & Hr & Hrtc).
      pose proof (mark_plan_keep_ids _ _ _ _ _ _ Hplan Hr) as Hin.
      rewrite <- Hids in Hin. unfold node_ids in Hin.
      apply list_elem_of_fmap in Hin as (pn' & -> & Hpn').
      exists pn'. split; [done|].
      apply list_elem_of_lookup in Hpn' as [j Hj]. split.
      + by apply (marked_node_options _ _ _ _ _ _ _ _ _ Hmark Hplan Hj).
      + by apply (rtc_same_graph p p'). }
  (* a node marked to run is never upstream of an excluded dependency *)
  assert (Hdisj : ¬ ∃ k, reached_from p' has_run DOWNSTREAM k
                         ∧ reached_from p' has_skip_with_child UPSTREAM k).
  { intros (y & (r & Hr & Hry)%Hrun
              & pn' & (j & Hj)%list_elem_of_lookup & Hsel & Hxy).
    apply (marked_node_options _ _ _ _ _ _ _ _ _ Hmark Hplan Hj) in Hsel
      as [_ Hx].
    apply (rtc_same_graph p p') in Hxy; [|done].
    destruct (excluded_dependency_edge _ _ _ _ _ _ Hplan Hx)
      as (Hnk & k & Hk & Hkx).
    apply Hnk, Hkeep.
    apply Hkeep in Hr as [(sf & Hsf & Hf & Hfr) _].
    apply Hkeep in Hk as [_ (st & Hst & Ht & Htk)].
    split.
    - exists sf. split_and!; [done..|].
      eapply rtc_trans; [exact Hfr|]. eapply rtc_trans; [exact Hry|].
      by apply edges_consistent_rtc.
    - exists st. split_and!; [done..|]. by eapply rtc_r. }
  pose proof (compute_nodes_to_reuse_cases p' Hs') as Hcases.
  destruct (_compute_nodes_to_reuse p') as [reused|e];
    [|by destruct Hcases as [_ ?]].
  destruct Hcases as [_ Hreused]. exists reused. split; [done|].
  assert (Hin : ∀ k, k ∈ reused
                     ↔ k ∈ node_ids (nodes p)
                       ∧ ¬ ∃ r, r ∈ keep
                                ∧ rtc (edge (_make_ordered_node_map p)
                                         DOWNSTREAM) r k).
  { intros k. by rewrite Hreused, Hids, Hrun. }
  split_and!.
  - intros k. rewrite Hin. split.
    + intros [Hk Hn]. split; [done|]. intros (r & Hr%Hkeep & Hrk).
      apply Hn. by exists r.
    + intros [Hk Hn]. split; [done|]. intros (r & Hr%Hkeep & Hrk).
      apply Hn. by exists r.
  - intros pn' Hpn' Hsel. apply Hreused. split.
    + unfold node_ids. apply list_elem_of_fmap. by exists pn'.
    + intros Hreach. apply Hdisj.
      exists (node_id (get_pipeline_node pn')). split; [done|].
      by exists pn'.
  - intros pn' (j & Hj)%list_elem_of_lookup [_ Hn]%Hin.
    apply (marked_node_options _ _ _ _ _ _ _ _ _ Hmark Hplan Hj).
    intros Hk. apply Hn. by exists (node_id (get_pipeline_node pn')).
Qed.

Lemma mark_pipeline_output_is_reusable_witness :
  ∃ p', mark_pipeline abc_pipeline (λ i, bool_decide (i = "B")) (λ _, true)
          _default_chief_settings = Ok p'
  ∧ ∃ reused : gset string,
    _compute_nodes_to_reuse p' = Ok reused
    ∧ (∀ k, k ∈ reused
            ↔ k ∈ node_ids (nodes abc_pipeline)
              ∧ ¬ ∃ r, (selected abc_pipeline (λ i, bool_decide (i = "B"))
                          DOWNSTREAM r
                        ∧ selected abc_pipeline (λ _, true) UPSTREAM r)
                       ∧ rtc (edge (_make_ordered_node_map abc_pipeline)
                                DOWNSTREAM) r k)
    ∧ (∀ pn', pn' ∈ nodes p' →
              has_skip_with_child (get_pipeline_node pn') = true →
              node_id (get_pipeline_node pn') ∈ reused)
    ∧ (∀ pn', pn' ∈ nodes p' →
              node_id (get_pipeline_node pn') ∈ reused → marked_skip pn').
Proof.
  eexists. split; [vm_compute; reflexivity|].
  apply (mark_pipeline_output_is_reusable abc_pipeline
           (λ i, bool_decide (i = "B")) (λ _, true) _default_chief_settings).
  - vm_compute. reflexivity.
  - vm_compute. reflexivity.
Defined.

(** Without agreement between the upstream and the downstream lists the
    output of [mark_pipeline] can be refused: in [lopsided_pipeline], X
    names Y as upstream but Y does not name X as downstream. *)
Example lopsided_pipeline_refused :
  (p' ← mark_pipeline lopsided_pipeline (λ i, bool_decide (i = "Y"))
          (λ i, bool_decide (i = "K")) _default_chief_settings;
   Ok (marks p', _compute_nodes_to_reuse p'))
  = Ok ([("Y", pro_run (mkRun (Some _default_chief_settings)));
         ("X", pro_skip (mkSkip true));
         ("K", pro_run (mkRun None))],
        Raise ValueError).
Proof. vm_compute. reflexivity. Qed.

(** ** [_get_validated_new_run_id] *)

(** X14. [_get_validated_new_run_id] never returns the empty string.  The
    run id of the pipeline IR wins when it is set and not empty, and the
    argument is used otherwise; [ValueError] is raised exactly when neither
    is given (absent or empty), or when both are given and differ. *)
Theorem _get_validated_new_run_id_spec
  (p : Pipeline) (new_run_id : option string) :
  match _get_validated_new_run_id p new_run_id with
  | Ok r =>
      r ≠ ""
      ∧ (pipeline_run_id p = Some r
         ∨ (truthy (pipeline_run_id p) = false ∧ new_run_id = Some r))
      ∧ (∀ n, new_run_id = Some n → n ≠ "" → n = r)
  | Raise e =>
      e = ValueError
      ∧ ((truthy (pipeline_run_id p) = false ∧ truthy new_run_id = false)
         ∨ ∃ a b, pipeline_run_id p = Some a ∧ new_run_id = Some b
                  ∧ a ≠ "" ∧ b ≠ "" ∧ a ≠ b)
  end.
Proof.
  unfold _get_validated_new_run_id.
  destruct (pipeline_run_id p) as [a|], new_run_id as [b|]; simpl;
    repeat case_bool_decide; simpl; repeat case_bool_decide; simpl;
    split_and!; naive_solver.
Qed.

(** ** [get_latest_pipeline_run_id] *)

Lemma latest_fold (new_run_id_ : string) (l : list (string * Context))
  (acc : option Context) :
  (∀ a, acc = Some a → ctx_name a ≠ new_run_id_) →
  match
    fold_left
      (λ (latest : option Context) (item : string * Context),
         let pipeline_run_context := item.2 in
         if decide (ctx_name pipeline_run_context = new_run_id_)
         then latest
         else
           match latest with
           | None => Some pipeline_run_context
           | Some l =>
               if decide (ctx_create_time_since_epoch l
                          < ctx_create_time_since_epoch pipeline_run_context)
               then Some pipeline_run_context
               else latest
           end)
      l acc
  with
  | Some c =>
      ctx_name c ≠ new_run_id_
      ∧ (acc = Some c ∨ ∃ k, (k, c) ∈ l)
      ∧ (∀ a, acc = Some a →
              ctx_create_time_since_epoch a ≤ ctx_create_time_since_epoch c)
      ∧ (∀ k' c', (k', c') ∈ l → ctx_name c' ≠ new_run_id_ →
                  ctx_create_time_since_epoch c'
                  ≤ ctx_create_time_since_epoch c)
  | None => acc = None ∧ ∀ k c, (k, c) ∈ l → ctx_name c = new_run_id_
  end.
Proof.
  revert acc. induction l as [|[k0 c0] l IH]; intros acc Hacc; simpl.
  - destruct acc as [a|].
    + split_and!; [by apply Hacc|by left|by intros ? [= <-]|].
      by intros ?? ?%elem_of_nil.
    + split; [done|]. by intros ?? ?%elem_of_nil.
  - destruct (decide (ctx_name c0 = new_run_id_)) as [Heq|Hne].
    + specialize (IH acc Hacc). destruct (fold_left _ l acc) as [c|].
      * destruct IH as (Hn & Hin & Hge & Hmax). split_and!; [done| |done|].
        -- destruct Hin as [?|[k ?]]; [by left|right; exists k; by right].
        -- intros k' c' [[= -> ->]|Hin']%elem_of_cons Hc'; [done|].
           by eapply Hmax.
      * destruct IH as [-> Hall]. split; [done|].
        intros k c [[= -> ->]|Hin']%elem_of_cons; [done|]. by eapply Hall.
    + destruct acc as [a|].
      * destruct (decide (ctx_create_time_since_epoch a
                          < ctx_create_time_since_epoch c0)) as [Hlt|Hge].
        -- specialize (IH (Some c0)).
           destruct (fold_left _ l (Some c0)) as [c|].
           ++ destruct IH as (Hn & Hin & Hge & Hmax); [by intros ? [= <-]|].
              specialize (Hge c0 eq_refl). split_and!; [done| | |].
              ** right. destruct Hin as [[= <-]|[k ?]];
                   [exists k0; by left | exists k; by right].
              ** intros ? [= <-]. lia.
              ** intros k' c' [[= -> ->]|Hin']%elem_of_cons Hc'; [done|].
                 by eapply Hmax.
           ++ by destruct IH as [? _]; [by intros ? [= <-]|].
        -- specialize (IH (Some a) Hacc).
           destruct (fold_left _ l (Some a)) as [c|].
           ++ destruct IH as (Hn & Hin & Hge' & Hmax).
              specialize (Hge' a eq_refl). split_and!; [done| | |].
              ** destruct Hin as [?|[k ?]]; [by left|right; exists k; by right].
              ** by intros ? [= <-].
              ** intros k' c' [[= -> ->]|Hin']%elem_of_cons Hc'; [lia|].
                 by eapply Hmax.
           ++ by destruct IH as [? _].
      * specialize (IH (Some c0)).
        destruct (fold_left _ l (Some c0)) as [c|].
        -- destruct IH as (Hn & Hin & Hge & Hmax); [by intros ? [= <-]|].
           specialize (Hge c0 eq_refl). split_and!; [done| |done|].
           ** right. destruct Hin as [[= <-]|[k ?]];
                [exists k0; by left | exists k; by right].
           ** intros k' c' [[= -> ->]|Hin']%elem_of_cons Hc'; [done|].
              by eapply Hmax.
        -- by destruct IH as [? _]; [by intros ? [= <-]|].
Qed.

(** X15. [get_latest_pipeline_run_id] returns the name of a pipeline-run
    context of the dictionary that is not the new run and whose creation
    time is the greatest among those; it raises [LookupError] exactly when
    the dictionary holds no context other than that of the new run. *)
Theorem get_latest_pipeline_run_id_spec (self : _ArtifactRecycler) :
  match get_latest_pipeline_run_id self with
  | Ok n =>
      ∃ k c, (k, c) ∈ _pipeline_run_contexts self ∧ ctx_name c = n
             ∧ n ≠ _new_run_id self
             ∧ ∀ k' c', (k', c') ∈ _pipeline_run_contexts self →
                        ctx_name c' ≠ _new_run_id self →
                        ctx_create_time_since_epoch c'
                        ≤ ctx_create_time_since_epoch c
  | Raise e =>
      e = LookupError
      ∧ ∀ k c, (k, c) ∈ _pipeline_run_contexts self →
               ctx_name c = _new_run_id self
  end.
Proof.
  unfold get_latest_pipeline_run_id.
  pose proof (latest_fold (_new_run_id self) (_pipeline_run_contexts self)
                None) as H.
  destruct (fold_left _ (_pipeline_run_contexts self) None) as [c|].
  - destruct H as (Hn & [?|[k Hin]] & _ & Hmax); [done..|].
    by exists k, c.
  - by destruct H as [_ Hall].
Qed.

(** ** [_ArtifactRecycler.__init__] *)


(** ** [_get_successful_executions] *)

Lemma increasing_filter (P : Execution → Prop) `{∀ e, Decision (P e)}
  (E : list Execution) :
  (∀ i j a b, i < j → E !! i = Some a → E !! j = Some b →
              exec_id a < exec_id b) →
  ∀ i j a b, i < j → filter P E !! i = Some a → filter P E !! j = Some b →
             exec_id a < exec_id b.
Proof.
  induction E as [|x E IH]; intros Hinc; [by intros ???? _ ?|].
  assert (Htail : ∀ i j a b, i < j → E !! i = Some a → E !! j = Some b →
                             exec_id a < exec_id b).
  { intros i j a b Hij Hi Hj. apply (Hinc (S i) (S j) a b); [lia|done..]. }
  assert (Hhead : ∀ b, b ∈ filter P E → exec_id x < exec_id b).
  { intros b [_ (j & Hj)%list_elem_of_lookup]%list_elem_of_filter.
    apply (Hinc 0 (S j) x b); [lia|done..]. }
  rewrite filter_cons. destruct (decide (P x)); [|by apply IH].
  intros [|i] [|j] a b Hij Hi Hj; simpl in *; try lia.
  - injection Hi as <-. apply Hhead. by eapply list_elem_of_lookup_2.
  - apply (IH Htail i j a b); [lia|done..].
Qed.

Lemma store_executions_increasing s i j a b :
  i < j → store_executions s !! i = Some a →
  store_executions s !! j = Some b → exec_id a < exec_id b.
Proof.
  rewrite !store_executions_lookup. intros Hij Hi Hj.
  destruct (execution_rows s !! i); [|done].
  destruct (execution_rows s !! j); [|done].
  simpl in *. injection Hi as <-. injection Hj as <-. simpl. lia.
Qed.

Lemma successful_executions_cases
  (self : _ArtifactRecycler) (node_id_ run_id : string) (s : Store) :
  (_get_successful_executions self node_id_ run_id s).2 = s
  ∧ match (_get_successful_executions self node_id_ run_id s).1 with
    | Ok l =>
        l ≠ []
        ∧ ∃ node_context base_run_context,
            get_context_by_type_and_name s NODE_CONTEXT_TYPE_NAME
              (node_context_name (_pipeline_name self) node_id_)
            = Some node_context
            ∧ od_get (_pipeline_run_contexts self) run_id
              = Some base_run_context
            ∧ (∀ e, e ∈ l
                    ↔ e ∈ store_executions s
                      ∧ is_execution_successful e = true
                      ∧ assoc_all s (exec_id e)
                          [node_context; base_run_context;
                           _pipeline_context self])
            ∧ ∀ i j a b, i < j → l !! i = Some a → l !! j = Some b →
                         exec_id b < exec_id a
    | Raise e =>
        e = LookupError
        ∧ (get_context_by_type_and_name s NODE_CONTEXT_TYPE_NAME
             (node_context_name (_pipeline_name self) node_id_) = None
           ∨ od_get (_pipeline_run_contexts self) run_id = None
           ∨ ∃ node_context base_run_context,
               get_context_by_type_and_name s NODE_CONTEXT_TYPE_NAME
                 (node_context_name (_pipeline_name self) node_id_)
               = Some node_context
               ∧ od_get (_pipeline_run_contexts self) run_id
                 = Some base_run_context
               ∧ ∀ e, e ∈ store_executions s →
                      assoc_all s (exec_id e)
                        [node_context; base_run_context;
                         _pipeline_context self] →
                      is_execution_successful e = false)
    end.
Proof.
  unfold _get_successful_executions, _get_node_context.
  unfold mbind, M_mbind, M_bind, M_read.
  cbn -[get_executions_associated_with_all_contexts filter].
  destruct (get_context_by_type_and_name s NODE_CONTEXT_TYPE_NAME _)
    as [nc|] eqn:Hnc; cbn -[get_executions_associated_with_all_contexts filter];
    [|split; [done|]; split; [done|by left]].
  rewrite _get_pipeline_run_context_false.
  destruct (od_get (_pipeline_run_contexts self) run_id) as [bc|] eqn:Hbc;
    cbn -[get_executions_associated_with_all_contexts filter];
    [|split; [done|]; split; [done|right; by left]].
  set (all := get_executions_associated_with_all_contexts s
                [nc; bc; _pipeline_context self]).
  assert (Hall : ∀ e, e ∈ filter (λ e, is_execution_successful e = true) all
                      ↔ e ∈ store_executions s
                        ∧ is_execution_successful e = true
                        ∧ assoc_all s (exec_id e)
                            [nc; bc; _pipeline_context self]).
  { intros e. rewrite list_elem_of_filter. unfold all.
    rewrite associated_with_all_elem. unfold assoc_all. naive_solver. }
  destruct (filter _ all) as [|e0 l0] eqn:Hf; simpl.
  - split; [done|]. split; [done|]. right. right. exists nc, bc.
    split_and!; [done..|]. intros e He Hassoc.
    destruct (is_execution_successful e) eqn:Hs; [|done].
    exfalso. eapply elem_of_nil. apply Hall. by split_and!.
  - split; [done|]. split.
    { unfold sort_executions_newest_to_oldest. intros Hrev.
      apply (f_equal length) in Hrev. rewrite length_reverse in Hrev.
      done. }
    exists nc, bc. split_and!; [done..| |].
    + intros e. unfold sort_executions_newest_to_oldest.
      rewrite elem_of_reverse. apply Hall.
    + unfold sort_executions_newest_to_oldest. rewrite <- Hf.
      intros i j a b Hij [Hi Hli]%reverse_lookup_Some
        [Hj Hlj]%reverse_lookup_Some.
      assert (Hinc : ∀ i j a b, i < j → all !! i = Some a →
                                all !! j = Some b → exec_id a < exec_id b).
      { unfold all. cbn -[filter]. apply increasing_filter.
        apply store_executions_increasing. }
      eapply (increasing_filter _ all Hinc); [|exact Hj|exact Hi]. lia.
Qed.

(** X17. [_get_successful_executions] only reads the store.  When it
    returns, the list is not empty, it holds exactly the successful
    executions of the store that are associated with the node context, the
    context of the given run and the pipeline context, and it is ordered
    newest first (by strictly decreasing id).  Otherwise it raises
    [LookupError]: the node context or the run is unknown, or no such
    execution is successful. *)
Theorem _get_successful_executions_spec
  (self : _ArtifactRecycler) (node_id_ run_id : string) (s : Store) :
  (_get_successful_executions self node_id_ run_id s).2 = s
  ∧ match (_get_successful_executions self node_id_ run_id s).1 with
    | Ok l =>
        l ≠ []
        ∧ ∃ node_context base_run_context,
            get_context_by_type_and_name s NODE_CONTEXT_TYPE_NAME
              (node_context_name (_pipeline_name self) node_id_)
            = Some node_context
            ∧ od_get (_pipeline_run_contexts self) run_id
              = Some base_run_context
            ∧ (∀ e, e ∈ l
                    ↔ e ∈ store_executions s
                      ∧ is_execution_successful e = true
                      ∧ assoc_all s (exec_id e)
                          [node_context; base_run_context;
                           _pipeline_context self])
            ∧ ∀ i j a b, i < j → l !! i = Some a → l !! j = Some b →
                         exec_id b < exec_id a
    | Raise e =>
        e = LookupError
        ∧ (get_context_by_type_and_name s NODE_CONTEXT_TYPE_NAME
             (node_context_name (_pipeline_name self) node_id_) = None
           ∨ od_get (_pipeline_run_contexts self) run_id = None
           ∨ ∃ node_context base_run_context,
               get_context_by_type_and_name s NODE_CONTEXT_TYPE_NAME
                 (node_context_name (_pipeline_name self) node_id_)
               = Some node_context
               ∧ od_get (_pipeline_run_contexts self) run_id
                 = Some base_run_context
               ∧ ∀ e, e ∈ store_executions s →
                      assoc_all s (exec_id e)
                        [node_context; base_run_context;
                         _pipeline_context self] →
                      is_execution_successful e = false)
    end.
Proof. apply successful_executions_cases. Qed.

(** ** [_cache_and_publish] *)

Lemma cache_and_publish_again self s e :
  in_sync self s → store_wf s →
  valid_exec (_pipeline_run_type_id self) s e →
  let self' :=
    (after_contexts self s (get_contexts_by_execution s (exec_id e))).1 in
  let s' := cache_and_publish_store self e s in
  _cache_and_publish self e s = (Ok self', s')
  ∧ last_is_cached s'
      (cached_contexts self (new_run_context self s) s (exec_id e))
  ∧ _cache_and_publish self' e s' = (Ok self', s').
Proof.
  intros Hsync Hwf Hvalid.
  destruct (cache_and_publish_step self s e Hsync Hwf Hvalid)
    as (Hsync' & Hnew' & _ & _ & Ht & _ & Hbatch).
  destruct Hbatch as (Hev & Hwf' & _ & HY & _ & _).
  rewrite Forall_singleton in HY.
  destruct Hvalid as (p & Hid & Hp & _).
  simpl. split_and!; [by apply _cache_and_publish_spec | done |].
  set (self' := (after_contexts self s
                   (get_contexts_by_execution s (exec_id e))).1) in *.
  set (s' := cache_and_publish_store self e s) in *.
  set (cnew := new_run_context self s) in *.
  rewrite (_cache_and_publish_spec self' e s' Hsync').
  rewrite (ready_after self' s' cnew Hnew').
  unfold cache_and_publish_store at 1.
  rewrite (ready_after self' s' cnew Hnew').
  rewrite (ready_new_run_context self' cnew Hnew'). cbn [fst snd].
  rewrite (cached_contexts_tid self self') by done.
  rewrite (cached_contexts_evolves _ _ _ _ _ Hev Hwf) by lia.
  destruct HY as (l & -> & Hc). by rewrite decide_True.
Qed.

(** X18. On a store with referential integrity and a recycler built on
    it, [_cache_and_publish] of an execution that has a pipeline-run context
    returns, and afterwards the newest execution associated with all the
    contexts of the cached copy (those of the execution, with the run context
    replaced by that of the new run) is in state CACHED.  Calling it again on
    the same execution changes neither the store nor the recycler. *)
Theorem _cache_and_publish_idempotent
  (self : _ArtifactRecycler) (e : Execution) (s : Store) :
  in_sync self s → store_wf s →
  valid_exec (_pipeline_run_type_id self) s e →
  ∃ self' s',
    _cache_and_publish self e s = (Ok self', s')
    ∧ last_is_cached s'
        (cached_contexts self (new_run_context self s) s (exec_id e))
    ∧ _cache_and_publish self' e s' = (Ok self', s').
Proof.
  intros Hsync Hwf Hvalid. eexists _, _.
  apply (cache_and_publish_again self s e Hsync Hwf Hvalid).
Qed.

Lemma abc_store_wf : store_wf abc_store.
Proof.
  intros e c Hin. unfold abc_store in *. simpl in *.
  repeat (apply elem_of_union in Hin as [Hin|Hin]);
    apply elem_of_singleton in Hin; injection Hin as -> ->; lia.
Qed.

Lemma abc_recycler_in_sync : in_sync abc_recycler abc_store.
Proof. vm_compute. reflexivity. Qed.

Lemma abc_execution_A_valid :
  valid_exec (_pipeline_run_type_id abc_recycler) abc_store abc_execution_A.
Proof.
  exists 0. split_and!; [done|simpl; lia|].
  exists (mkContext 2 2 "run1" 1). split; [|done].
  apply list_elem_of_In. vm_compute. tauto.
Qed.

Lemma _cache_and_publish_idempotent_witness :
  ∃ self' s',
    _cache_and_publish abc_recycler abc_execution_A abc_store = (Ok self', s')
    ∧ last_is_cached s'
        (cached_contexts abc_recycler
           (new_run_context abc_recycler abc_store) abc_store
           (exec_id abc_execution_A))
    ∧ _cache_and_publish self' abc_execution_A s' = (Ok self', s').
Proof.
  apply (_cache_and_publish_idempotent abc_recycler abc_execution_A
           abc_store).
  - apply abc_recycler_in_sync.
  - apply abc_store_wf.
  - apply abc_execution_A_valid.
Defined.

Lemma after_contexts_store self s cs :
  (after_contexts self s cs).2 = s
  ∨ (after_contexts self s cs).2
    = add_context_row s
        (mkContextRow (_pipeline_run_type_id self) (_new_run_id self)
           (clock s)).
Proof.
  unfold after_contexts, ensure_new_run_context.
  destruct (existsb _ _); [|by left].
  destruct (od_mem _ _); [by left | by right].
Qed.

Lemma cache_and_publish_store_shape self e s :
  let s' := cache_and_publish_store self e s in
  (context_rows s' = context_rows s
   ∨ context_rows s'
     = context_rows s
       ++ [mkContextRow (_pipeline_run_type_id self) (_new_run_id self)
             (clock s)])
  ∧ length (execution_rows s') ≤ S (length (execution_rows s))
  ∧ ∃ evs, events s' = events s ++ evs
           ∧ Forall (λ ev, ev_type ev = OUTPUT) evs.
Proof.
  simpl. unfold cache_and_publish_store.
  set (s1 := (after_contexts self s
                (get_contexts_by_execution s (exec_id e))).2).
  assert (Hs1 : (context_rows s1 = context_rows s
                 ∨ context_rows s1
                   = context_rows s
                     ++ [mkContextRow (_pipeline_run_type_id self)
                           (_new_run_id self) (clock s)])
                ∧ execution_rows s1 = execution_rows s
                ∧ events s1 = events s).
  { unfold s1.
    destruct (after_contexts_store self s
                (get_contexts_by_execution s (exec_id e))) as [-> | ->];
      simpl; split_and!; auto. }
  destruct Hs1 as (Hc & Hr & He).
  assert (Hout : ∀ a b, Forall (λ ev, ev_type ev = OUTPUT)
                          (output_events s1 a b)).
  { intros a b. unfold output_events. apply Forall_fmap.
    by apply Forall_forall. }
  destruct (last _) as [l|].
  - destruct (decide _).
    + split_and!; [done|rewrite Hr; lia|]. exists [].
      by rewrite app_nil_r, He.
    + simpl. split_and!; [done| |].
      * rewrite length_alter, Hr. lia.
      * eexists. rewrite He. split; [done|]. apply Hout.
  - simpl. split_and!; [done| |].
    + rewrite length_app, Hr. simpl. lia.
    + eexists. rewrite He. split; [done|]. apply Hout.
Qed.

(** X19. What [_cache_and_publish] never does (same preconditions as
    X18): it keeps referential integrity, the parent-context edges and the
    context types; it adds at most the context of the new run; it leaves
    every execution that was there as it was or sets it to CACHED; it adds
    at most one execution, in state CACHED; it does not change the
    associations of the executions that were there; and it only appends
    OUTPUT events. *)
Theorem _cache_and_publish_preserves
  (self : _ArtifactRecycler) (e : Execution) (s : Store) :
  in_sync self s → store_wf s →
  valid_exec (_pipeline_run_type_id self) s e →
  let s' := (_cache_and_publish self e s).2 in
  store_wf s'
  ∧ parent_contexts s' = parent_contexts s
  ∧ context_type_rows s' = context_type_rows s
  ∧ (context_rows s' = context_rows s
     ∨ context_rows s'
       = context_rows s
         ++ [mkContextRow (_pipeline_run_type_id self) (_new_run_id self)
               (clock s)])
  ∧ (∀ i r, execution_rows s !! i = Some r →
            execution_rows s' !! i = Some r
            ∨ execution_rows s' !! i = Some (set_cached r))
  ∧ length (execution_rows s') ≤ S (length (execution_rows s))
  ∧ (∀ i r, execution_rows s' !! i = Some r →
            execution_rows s !! i = None → row_last_known_state r = CACHED)
  ∧ (∀ x c, x ≤ length (execution_rows s) →
            ((x, c) ∈ associations s' ↔ (x, c) ∈ associations s))
  ∧ ∃ evs, events s' = events s ++ evs
           ∧ Forall (λ ev, ev_type ev = OUTPUT) evs.
Proof.
  intros Hsync Hwf Hvalid. rewrite (_cache_and_publish_spec _ _ _ Hsync).
  cbn [snd].
  destruct (cache_and_publish_step self s e Hsync Hwf Hvalid)
    as (_ & _ & _ & _ & _ & _ & Hbatch).
  destruct Hbatch as (Hev & Hwf' & Hpar & _).
  destruct (cache_and_publish_store_shape self e s) as (Hc & Hlen & Hevs).
  destruct Hev as [Hty _ Hrows Hnew Hassoc].
  split_and!; done.
Qed.

Lemma _cache_and_publish_preserves_witness :
  let s' := (_cache_and_publish abc_recycler abc_execution_A abc_store).2 in
  store_wf s'
  ∧ parent_contexts s' = parent_contexts abc_store
  ∧ context_type_rows s' = context_type_rows abc_store
  ∧ (context_rows s' = context_rows abc_store
     ∨ context_rows s'
       = context_rows abc_store
         ++ [mkContextRow (_pipeline_run_type_id abc_recycler)
               (_new_run_id abc_recycler) (clock abc_store)])
  ∧ (∀ i r, execution_rows abc_store !! i = Some r →
            execution_rows s' !! i = Some r
            ∨ execution_rows s' !! i = Some (set_cached r))
  ∧ length (execution_rows s') ≤ S (length (execution_rows abc_store))
  ∧ (∀ i r, execution_rows s' !! i = Some r →
            execution_rows abc_store !! i = None →
            row_last_known_state r = CACHED)
  ∧ (∀ x c, x ≤ length (execution_rows abc_store) →
            ((x, c) ∈ associations s' ↔ (x, c) ∈ associations abc_store))
  ∧ ∃ evs, events s' = events abc_store ++ evs
           ∧ Forall (λ ev, ev_type ev = OUTPUT) evs.
Proof.
  apply (_cache_and_publish_preserves abc_recycler abc_execution_A
           abc_store).
  - apply abc_recycler_in_sync.
  - apply abc_store_wf.
  - apply abc_execution_A_valid.
Defined.

(** ** [put_parent_context] *)

Lemma ensure_new_run_context_keeps self s run_id c :
  od_get (_pipeline_run_contexts self) run_id = Some c →
  od_get (_pipeline_run_contexts (ensure_new_run_context self s).1) run_id
  = Some c.
Proof.
  intros Hget. unfold ensure_new_run_context.
  destruct (od_mem _ _) eqn:Hmem; [done|]. simpl. rewrite od_get_set.
  destruct (decide (run_id = _new_run_id self)) as [->|]; [|done].
  apply od_get_Some_key, od_mem_spec in Hget. congruence.
Qed.

(** X20. [put_parent_context] raises [LookupError] without writing when
    the base run is unknown.  Otherwise it puts the edge from the context of
    the base run to the context of the new run (registering the latter if
    needed), adds no other edge, leaves executions, associations and events
    alone, and calling it again changes neither the store nor the
    recycler. *)
Theorem put_parent_context_idempotent
  (self : _ArtifactRecycler) (base_run_id : string) (s : Store) :
  in_sync self s →
  match put_parent_context self base_run_id s with
  | (Ok self', s') =>
      ∃ base_run_context,
        od_get (_pipeline_run_contexts self) base_run_id
        = Some base_run_context
        ∧ (ctx_id base_run_context, ctx_id (new_run_context self s))
          ∈ parent_contexts s'
        ∧ (∀ edge_, edge_ ∈ parent_contexts s' →
                    edge_ ∈ parent_contexts s
                    ∨ edge_ = (ctx_id base_run_context,
                               ctx_id (new_run_context self s)))
        ∧ execution_rows s' = execution_rows s
        ∧ associations s' = associations s
        ∧ events s' = events s
        ∧ put_parent_context self' base_run_id s' = (Ok self', s')
  | (Raise e, s') =>
      e = LookupError ∧ s' = s
      ∧ od_get (_pipeline_run_contexts self) base_run_id = None
  end.
Proof.
  intros Hsync. unfold put_parent_context.
  unfold mbind, M_mbind, M_bind.
  rewrite _get_pipeline_run_context_false.
  destruct (od_get (_pipeline_run_contexts self) base_run_id) as [cb|]
    eqn:Hcb; [|done].
  rewrite (_get_pipeline_run_context_true self s Hsync).
  pose proof (ensure_new_run_context_spec self s Hsync)
    as (Hsync1 & Hget1 & Hnew1 & _).
  pose proof (ensure_new_run_context_keeps self s _ _ Hcb) as Hcb1.
  assert (Hstore : execution_rows (ensure_new_run_context self s).2
                   = execution_rows s
                   ∧ associations (ensure_new_run_context self s).2
                     = associations s
                   ∧ events (ensure_new_run_context self s).2 = events s
                   ∧ parent_contexts (ensure_new_run_context self s).2
                     = parent_contexts s).
  { unfold ensure_new_run_context. by destruct (od_mem _ _). }
  destruct Hstore as (Hr & Ha & He & Hp).
  set (cnew := new_run_context self s) in *.
  destruct (ensure_new_run_context self s) as [self1 s1]. simpl in *.
  exists cb. split_and!; [done|set_solver| |done..|].
  { intros edge_ [->%elem_of_singleton|Hin]%elem_of_union;
      [by right | left; by rewrite <- Hp]. }
  rewrite _get_pipeline_run_context_false, Hcb1.
  set (s2 := mkStore _ _ _ _ _ _ _).
  assert (Hsync2 : in_sync self1 s2) by (by apply (in_sync_ext self1 s1)).
  rewrite (_get_pipeline_run_context_true self1 s2 Hsync2).
  rewrite (ensure_new_run_context_idem self1 s2) by (by rewrite Hget1).
  rewrite (ready_new_run_context self1 cnew Hget1). simpl.
  unfold M_ret, mret, M_mret, M_ret. f_equal. unfold s2. f_equal.
  set_solver.
Qed.

Lemma put_parent_context_idempotent_witness :
  match put_parent_context abc_recycler "run1" abc_store with
  | (Ok self', s') =>
      ∃ base_run_context,
        od_get (_pipeline_run_contexts abc_recycler) "run1"
        = Some base_run_context
        ∧ (ctx_id base_run_context,
           ctx_id (new_run_context abc_recycler abc_store))
          ∈ parent_contexts s'
        ∧ (∀ edge_, edge_ ∈ parent_contexts s' →
                    edge_ ∈ parent_contexts abc_store
                    ∨ edge_ = (ctx_id base_run_context,
                               ctx_id (new_run_context abc_recycler
                                         abc_store)))
        ∧ execution_rows s' = execution_rows abc_store
        ∧ associations s' = associations abc_store
        ∧ events s' = events abc_store
        ∧ put_parent_context self' "run1" s' = (Ok self', s')
  | (Raise e, s') =>
      e = LookupError ∧ s' = abc_store
      ∧ od_get (_pipeline_run_contexts abc_recycler) "run1" = None
  end.
Proof.
  apply (put_parent_context_idempotent abc_recycler "run1" abc_store).
  apply abc_recycler_in_sync.
Defined.

(** ** The module-level [reuse_node_outputs] *)

(** X21. [reuse_node_outputs] writes nothing when there is nothing to
    reuse: if no successful execution of the store is associated with the
    node context, the context of the base run and the pipeline context, it
    raises (a [LookupError], or the store's [NotFoundError] when the
    pipeline-run context type is unknown) and the store is as before; in
    particular the context of the new run is not registered. *)
Theorem reuse_node_outputs_nothing_to_reuse
  (pipeline_name node_id_ base_run_id new_run_id : string) (s : Store) :
  (∀ nc bc pc e,
     get_context_by_type_and_name s NODE_CONTEXT_TYPE_NAME
       (node_context_name pipeline_name node_id_) = Some nc →
     od_get (build_run_contexts s) base_run_id = Some bc →
     get_context_by_type_and_name s PIPELINE_CONTEXT_TYPE_NAME pipeline_name
     = Some pc →
     e ∈ store_executions s → assoc_all s (exec_id e) [nc; bc; pc] →
     is_execution_successful e = false) →
  ∃ e, reuse_node_outputs pipeline_name node_id_ base_run_id new_run_id s
       = (Raise e, s)
       ∧ (e = LookupError ∨ e = NotFoundError).
Proof.
  intros Hnone. unfold reuse_node_outputs.
  unfold mbind, M_mbind, M_bind. rewrite new_ArtifactRecycler_spec.
  unfold recycler_of, _get_pipeline_context.
  destruct (get_context_by_type_and_name s PIPELINE_CONTEXT_TYPE_NAME
              pipeline_name) as [pc|] eqn:Hpc; simpl;
    [|exists LookupError; by split; [|left]].
  destruct (get_context_type s PIPELINE_RUN_CONTEXT_TYPE_NAME) as [t|e]
    eqn:Ht; simpl.
  - set (self := mkRecycler pipeline_name pc new_run_id t
                   (build_run_contexts s)).
    unfold recycler_reuse_node_outputs, mbind, M_mbind, M_bind.
    pose proof (successful_executions_cases self node_id_ base_run_id s)
      as [Hs Hcases].
    destruct (_get_successful_executions self node_id_ base_run_id s)
      as [[l|e] s']; simpl in *; subst s'.
    + exfalso. destruct Hcases as (Hne & nc & bc & Hnc & Hbc & Hl & _).
      destruct l as [|e0 l]; [done|].
      destruct (proj1 (Hl e0)) as (He0 & Hsucc & Hassoc);
        [apply list_elem_of_here|].
      by rewrite (Hnone nc bc pc e0) in Hsucc.
    + destruct Hcases as [-> _]. exists LookupError. by split; [|left].
  - exists e. split; [done|]. right. unfold get_context_type in Ht.
    destruct (list_find _ _) as [[i ?]|]; [done|]. by injection Ht as <-.
Qed.

Lemma reuse_node_outputs_nothing_to_reuse_witness :
  ∃ e, reuse_node_outputs "p" "B" "run1" "run2" abc_store_B_failed
       = (Raise e, abc_store_B_failed)
       ∧ (e = LookupError ∨ e = NotFoundError).
Proof.
  apply (reuse_node_outputs_nothing_to_reuse "p" "B" "run1" "run2"
           abc_store_B_failed).
  intros nc bc pc e Hnc Hbc Hpc He Hassoc.
  vm_compute in Hnc. injection Hnc as <-.
  apply Forall_cons in Hassoc as [Hnode _]. simpl in Hnode.
  apply list_elem_of_In in He. vm_compute in He.
  destruct He as [<-|[<-|[<-|[]]]]; [exfalso|reflexivity|exfalso];
    vm_compute in Hnode; discriminate.
Defined.

(** * Properties of the sync task generator *)

(** ** [SyncPipelineTaskGenerator.__init__] *)




(** ** The decision for one node *)

Section task_gen_facts.
Context {W Artifacts ExecProperties ExecutorSpec TaskId : Type}.
Context (env : Collaborators W Artifacts ExecProperties ExecutorSpec TaskId).





End task_gen_facts.


(** ** The task list of [generate] *)

Section generate_facts.
Context {W Artifacts ExecProperties ExecutorSpec TaskId : Type}.
Context (env : Collaborators W Artifacts ExecProperties ExecutorSpec TaskId).

Lemma sort_task_sorted (l : Locals Artifacts ExecProperties) task :
  locals_sorted l → locals_sorted (sort_task l task).
Proof.
  intros (Hu & He & Hf). unfold sort_task.
  destruct task as [uid s o|t|uid s]; simpl; split_and!; simpl; try done.
  - apply Forall_app. split; [done|]. by apply Forall_singleton.
  - apply Forall_app. split; [done|]. by apply Forall_singleton.
  - by intros ? [= <-].
Qed.

Lemma fold_sort_task_sorted tasks (l : Locals Artifacts ExecProperties) :
  locals_sorted l → locals_sorted (fold_left sort_task tasks l).
Proof.
  revert l. induction tasks as [|t tasks IH]; intros l Hl; [done|].
  simpl. by apply IH, sort_task_sorted.
Qed.

Lemma generate_layer_sorted self layer_nodes
  (l : Locals Artifacts ExecProperties) (st : GenState W) :
  locals_sorted l →
  locals_sorted (generate_layer env self layer_nodes l st).1.
Proof.
  revert l st. induction layer_nodes as [|node rest IH]; intros l st Hl;
    [done|].
  simpl.
  destruct (_generate_tasks_for_node env self node _ st)
    as [[tasks successful] st1].
  set (l1 := fold_left sort_task tasks _).
  assert (Hl1 : locals_sorted l1).
  { apply fold_sort_task_sorted. by destruct Hl as (? & ? & ?). }
  destruct (finalize_pipeline_task l1); [done | by apply IH].
Qed.

Lemma generate_layers_sorted self layers
  (l : Locals Artifacts ExecProperties) (st : GenState W) :
  locals_sorted l →
  locals_sorted (generate_layers env self layers l st).1.
Proof.
  revert l st. induction layers as [|layer rest IH]; intros l st Hl; [done|].
  simpl.
  pose proof (generate_layer_sorted self layer l st Hl) as Hl1.
  destruct (generate_layer env self layer l st) as [l1 st1]. simpl in Hl1.
  destruct (finalize_pipeline_task l1); [done | by apply IH].
Qed.

(** X24. The list [generate] returns is a run of [UpdateNodeStateTask]s
    followed either by exactly one [FinalizePipelineTask] or by
    [ExecNodeTask]s only: a finalize task and an execution task never occur
    together, there is at most one finalize task, and it comes last.  When
    the layering of the pipeline fails, the exception is passed on and
    neither the world nor the successful-nodes cache has changed. *)
Theorem generate_finalize_excludes_exec
  (self : SyncPipelineTaskGenerator) (st : GenState W) :
  match (generate env self st).1 with
  | Ok tasks =>
      ∃ updates rest,
        tasks = updates ++ rest
        ∧ Forall (λ t, is_update_node_state_task t = true) updates
        ∧ ((∃ pipeline_uid status,
              rest = [FinalizePipelineTask pipeline_uid status])
           ∨ Forall (λ t, is_exec_node_task t = true) rest)
  | Raise e =>
      _topsorted_layers env (_pipeline self) = Raise e
      ∧ (generate env self st).2 = st
  end.
Proof.
  unfold generate.
  destruct (_topsorted_layers env (_pipeline self)) as [layers|e]; [|done].
  pose proof (generate_layers_sorted self layers (mkLocals [] [] ∅ None) st)
    as Hl.
  destruct (generate_layers env self layers _ st) as [l st1]. simpl in *.
  destruct Hl as (Hu & He & Hf).
  { split_and!; [constructor..|done]. }
  destruct (finalize_pipeline_task l) as [t|] eqn:Hfin.
  - exists (update_node_state_tasks l), [t]. split_and!; [done..|].
    left. specialize (Hf t eq_refl). destruct t; try done. by eexists _, _.
  - destruct (decide _).
    + eexists (update_node_state_tasks l), [_]. split_and!; [done..|].
      left. by eexists _, _.
    + exists (update_node_state_tasks l), (exec_node_tasks l).
      split_and!; [done..|]. by right.
Qed.

(** Once a finalize task is there the loops are left. *)
Lemma generate_layer_stops self layer_nodes more
  (l : Locals Artifacts ExecProperties) (st : GenState W) :
  finalize_pipeline_task l = None →
  is_Some (finalize_pipeline_task
             (generate_layer env self layer_nodes l st).1) →
  generate_layer env self (layer_nodes ++ more) l st
  = generate_layer env self layer_nodes l st.
Proof.
  revert l st. induction layer_nodes as [|node rest IH]; intros l st Hnone.
  - simpl. rewrite Hnone. by intros [? ?].
  - simpl.
    destruct (_generate_tasks_for_node env self node _ st)
      as [[tasks successful] st1].
    destruct (finalize_pipeline_task (fold_left sort_task tasks _)) eqn:Hf;
      [done|].
    by apply IH.
Qed.

Lemma generate_layers_stops self layers more
  (l : Locals Artifacts ExecProperties) (st : GenState W) :
  finalize_pipeline_task l = None →
  is_Some (finalize_pipeline_task
             (generate_layers env self layers l st).1) →
  generate_layers env self (layers ++ more) l st
  = generate_layers env self layers l st.
Proof.
  revert l st. induction layers as [|layer rest IH]; intros l st Hnone.
  - simpl. rewrite Hnone. by intros [? ?].
  - simpl. destruct (generate_layer env self layer l st) as [l1 st1].
    destruct (finalize_pipeline_task l1) eqn:Hf; [done|]. by apply IH.
Qed.

End generate_facts.


(** X25. [generate] stops at the first finalize task: when walking some
    layers (or the nodes of a layer) has produced a [FinalizePipelineTask],
    whatever layers (or nodes) follow are not looked at; the tasks, the
    set of successful nodes, the world and the successful-nodes cache are the
    same as without them. *)
Theorem generate_stops_at_finalize
  {W Artifacts ExecProperties ExecutorSpec TaskId : Type}
  (env : Collaborators W Artifacts ExecProperties ExecutorSpec TaskId)
  (self : SyncPipelineTaskGenerator)
  (l : Locals Artifacts ExecProperties) (st : GenState W) :
  finalize_pipeline_task l = None →
  (∀ layers more,
     is_Some (finalize_pipeline_task
                (generate_layers env self layers l st).1) →
     generate_layers env self (layers ++ more) l st
     = generate_layers env self layers l st)
  ∧ (∀ layer_nodes more,
       is_Some (finalize_pipeline_task
                  (generate_layer env self layer_nodes l st).1) →
       generate_layer env self (layer_nodes ++ more) l st
       = generate_layer env self layer_nodes l st).
Proof.
  intros Hnone. split.
  - intros layers more. by apply generate_layers_stops.
  - intros layer_nodes more. by apply generate_layer_stops.
Qed.

Lemma generate_stops_at_finalize_witness :
  generate_layers
    (demo_env NodeState.RUNNING
       [mkExecution 1 0 FAILED [(EXECUTION_ERROR_MSG_KEY, "boom")]])
    abc_generator ([[node_of_A]] ++ [[node_B]]) (mkLocals [] [] ∅ None)
    (mkGenState [] [])
  = generate_layers
      (demo_env NodeState.RUNNING
         [mkExecution 1 0 FAILED [(EXECUTION_ERROR_MSG_KEY, "boom")]])
      abc_generator [[node_of_A]] (mkLocals [] [] ∅ None)
      (mkGenState [] []).
Proof.
  apply (generate_stops_at_finalize
           (demo_env NodeState.RUNNING
              [mkExecution 1 0 FAILED [(EXECUTION_ERROR_MSG_KEY, "boom")]])
           abc_generator (mkLocals [] [] ∅ None) (mkGenState [] [])
           eq_refl).
  vm_compute. by eexists.
Defined.

(** ** The successful-nodes cache *)

Lemma filter_ne_length (k : CacheKey) (c : list CacheKey) :
  k ∈ c → length (filter (λ x, x ≠ k) c) < length c.
Proof.
  induction c as [|x c IH]; [by intros ?%elem_of_nil|].
  rewrite filter_cons. intros Hin. destruct (decide (x ≠ k)) as [Hne|Heq].
  - simpl. apply elem_of_cons in Hin as [->|Hin]; [done|].
    specialize (IH Hin). lia.
  - simpl. pose proof (length_filter (λ x, x ≠ k) c). lia.
Qed.

Lemma lru_touch_ok (k : CacheKey) (c : list CacheKey) :
  NoDup c →
  NoDup (lru_touch k c)
  ∧ (k ∈ c → length (lru_touch k c) ≤ length c)
  ∧ (∀ k', k' ∈ lru_touch k c ↔ k' = k ∨ k' ∈ c).
Proof.
  intros Hnd. unfold lru_touch. split_and!.
  - apply NoDup_app. split_and!.
    + by apply NoDup_filter.
    + intros x [Hne _]%list_elem_of_filter ->%list_elem_of_singleton. done.
    + apply NoDup_singleton.
  - intros Hin. rewrite length_app. simpl.
    pose proof (filter_ne_length k c Hin). lia.
  - intros k'. rewrite elem_of_app, list_elem_of_filter,
      list_elem_of_singleton.
    destruct (decide (k' = k)); naive_solver.
Qed.

Lemma lru_get_ok (k : CacheKey) (c : list CacheKey) :
  NoDup c →
  NoDup (lru_get k c).2 ∧ length (lru_get k c).2 ≤ length c
  ∧ (∀ k', k' ∈ (lru_get k c).2 ↔ k' ∈ c)
  ∧ ((lru_get k c).1 = true ↔ k ∈ c).
Proof.
  intros Hnd. unfold lru_get.
  destruct (decide (k ∈ c)) as [Hin|Hin]; simpl.
  - destruct (lru_touch_ok k c Hnd) as (Hnd' & Hlen & Hel).
    split_and!; [done|by apply Hlen| |done].
    intros k'. rewrite Hel. naive_solver.
  - split_and!; [done..|]. naive_solver.
Qed.

Lemma lru_set_ok (k : CacheKey) (c : list CacheKey) :
  NoDup c → length c ≤ LRU_MAXSIZE →
  NoDup (lru_set k c) ∧ length (lru_set k c) ≤ LRU_MAXSIZE
  ∧ length (lru_set k c) ≤ S (length c)
  ∧ k ∈ lru_set k c
  ∧ (length c < LRU_MAXSIZE → ∀ k', k' ∈ c → k' ∈ lru_set k c).
Proof.
  intros Hnd Hlen. unfold lru_set.
  assert (0 < LRU_MAXSIZE) as Hpos by (unfold LRU_MAXSIZE; lia).
  destruct (decide (k ∈ c)) as [Hin|Hin].
  - destruct (lru_touch_ok k c Hnd) as (Hnd' & Hlen' & Hel).
    specialize (Hlen' Hin). split_and!; [done|lia|lia| |].
    + apply Hel. by left.
    + intros _ k' Hk'. apply Hel. by right.
  - split_and!.
    + apply NoDup_app. split_and!.
      * apply (sublist_NoDup _ c); [done | apply sublist_drop].
      * intros x Hx ->%list_elem_of_singleton. apply Hin.
        eapply elem_of_sublist; [exact Hx | apply sublist_drop].
      * apply NoDup_singleton.
    + rewrite length_app, length_drop. cbn [length]. lia.
    + rewrite length_app, length_drop. cbn [length]. lia.
    + apply elem_of_app. right. apply list_elem_of_here.
    + intros Hlt k' Hk'. apply elem_of_app. left.
      replace (S (length c) - LRU_MAXSIZE) with 0 by lia. by rewrite drop_0.
Qed.

Section cache_facts.
Context {W Artifacts ExecProperties ExecutorSpec TaskId : Type}.
Context (env : Collaborators W Artifacts ExecProperties ExecutorSpec TaskId).

Lemma node_tasks_cache self node (successful_node_ids : gset string)
  (st : GenState W) :
  successful_nodes_cache
    (_generate_tasks_for_node env self node successful_node_ids st).2
  = (lru_get
       (_node_cache_key self
          (NodeUid_from_pipeline_node env (_pipeline self) node))
       (successful_nodes_cache st)).2.
Proof.
  unfold _generate_tasks_for_node, _in_successful_nodes_cache.
  destruct (lru_get _ _) as [[] c]; simpl; [done|].
  destruct (negb _); [done|].
  by destruct (generate_tasks_for_ready_node _ _ _ _ _) as [[? ?] ?].
Qed.

Lemma update_cache_fold self (ids : list string) (st : GenState W) :
  NoDup (successful_nodes_cache st) →
  length (successful_nodes_cache st) ≤ LRU_MAXSIZE →
  let st' :=
    fold_left
      (λ st node_id_,
         mkGenState (world st)
           (lru_set
              (_node_cache_key self (mkNodeUid (_pipeline_uid self) node_id_))
              (successful_nodes_cache st)))
      ids st in
  world st' = world st
  ∧ NoDup (successful_nodes_cache st')
  ∧ length (successful_nodes_cache st') ≤ LRU_MAXSIZE
  ∧ (length (successful_nodes_cache st) + length ids ≤ LRU_MAXSIZE →
     (∀ k, k ∈ successful_nodes_cache st → k ∈ successful_nodes_cache st')
     ∧ ∀ i, i ∈ ids →
            _node_cache_key self (mkNodeUid (_pipeline_uid self) i)
            ∈ successful_nodes_cache st').
Proof.
  revert st. induction ids as [|i ids IH]; intros st Hnd Hlen; simpl.
  - split_and!; [done..|]. intros _. split; [done|].
    by intros ? ?%elem_of_nil.
  - set (k := _node_cache_key self (mkNodeUid (_pipeline_uid self) i)).
    destruct (lru_set_ok k (successful_nodes_cache st) Hnd Hlen)
      as (Hnd1 & Hlen1 & Hlen1' & Hk & Hkeep).
    specialize (IH (mkGenState (world st)
                      (lru_set k (successful_nodes_cache st))) Hnd1 Hlen1).
    simpl in IH. destruct IH as (Hw & Hnd' & Hlen' & Hall).
    split_and!; [done..|]. intros Hroom.
    destruct Hall as [Hold Hnew]; [lia|]. split.
    + intros k' Hk'. apply Hold, Hkeep; [lia | done].
    + intros j [->|Hj]%elem_of_cons; [by apply Hold | by apply Hnew].
Qed.

Lemma generate_layer_cache self layer_nodes
  (l : Locals Artifacts ExecProperties) (st : GenState W) :
  NoDup (successful_nodes_cache st) →
  length (successful_nodes_cache st) ≤ LRU_MAXSIZE →
  NoDup (successful_nodes_cache (generate_layer env self layer_nodes l st).2)
  ∧ length (successful_nodes_cache
              (generate_layer env self layer_nodes l st).2) ≤ LRU_MAXSIZE.
Proof.
  revert l st. induction layer_nodes as [|node rest IH]; intros l st Hnd Hlen;
    [done|].
  simpl.
  pose proof (node_tasks_cache self node (successful_node_ids_ l) st) as Hc.
  destruct (_generate_tasks_for_node env self node _ st)
    as [[tasks successful] st1].
  simpl in Hc.
  destruct (lru_get_ok
              (_node_cache_key self
                 (NodeUid_from_pipeline_node env (_pipeline self) node))
              (successful_nodes_cache st) Hnd) as (Hnd1 & Hlen1 & _).
  rewrite <- Hc in Hnd1, Hlen1.
  destruct (finalize_pipeline_task _); [simpl; split; [done|lia]|].
  apply IH; [done|lia].
Qed.

Lemma generate_layers_cache self layers
  (l : Locals Artifacts ExecProperties) (st : GenState W) :
  NoDup (successful_nodes_cache st) →
  length (successful_nodes_cache st) ≤ LRU_MAXSIZE →
  NoDup (successful_nodes_cache (generate_layers env self layers l st).2)
  ∧ length (successful_nodes_cache
              (generate_layers env self layers l st).2) ≤ LRU_MAXSIZE.
Proof.
  revert l st. induction layers as [|layer rest IH]; intros l st Hnd Hlen;
    [done|].
  simpl.
  pose proof (generate_layer_cache self layer l st Hnd Hlen) as [Hnd1 Hlen1].
  destruct (generate_layer env self layer l st) as [l1 st1]. simpl in *.
  destruct (finalize_pipeline_task l1); [done|].
  unfold _update_successful_nodes_cache.
  destruct (update_cache_fold self
              (set_iteration_order env
                 (list_to_set (node_id <$> layer) ∩ successful_node_ids_ l1))
              st1 Hnd1 Hlen1) as (_ & Hnd2 & Hlen2 & _).
  by apply IH.
Qed.

End cache_facts.

(** X26. [generate] keeps the successful-nodes cache a bounded LRU cache:
    if the cache holds no key twice and at most 1024 keys before the call,
    the same is true after it, whatever the collaborators do. *)
Theorem generate_keeps_cache_bounded
  {W Artifacts ExecProperties ExecutorSpec TaskId : Type}
  (env : Collaborators W Artifacts ExecProperties ExecutorSpec TaskId)
  (self : SyncPipelineTaskGenerator) (st : GenState W) :
  NoDup (successful_nodes_cache st) →
  length (successful_nodes_cache st) ≤ LRU_MAXSIZE →
  NoDup (successful_nodes_cache (generate env self st).2)
  ∧ length (successful_nodes_cache (generate env self st).2) ≤ LRU_MAXSIZE.
Proof.
  intros Hnd Hlen. unfold generate.
  destruct (_topsorted_layers env (_pipeline self)) as [layers|e]; [|done].
  pose proof (generate_layers_cache env self layers (mkLocals [] [] ∅ None)
                st Hnd Hlen) as H.
  by destruct (generate_layers env self layers _ st) as [l st1].
Qed.

Lemma generate_keeps_cache_bounded_witness :
  NoDup (successful_nodes_cache
           (generate (demo_env NodeState.RUNNING [mkExecution 1 0 COMPLETE []])
              abc_generator (mkGenState [] [])).2)
  ∧ length (successful_nodes_cache
              (generate
                 (demo_env NodeState.RUNNING [mkExecution 1 0 COMPLETE []])
                 abc_generator (mkGenState [] [])).2) ≤ LRU_MAXSIZE.
Proof.
  apply (generate_keeps_cache_bounded
           (demo_env NodeState.RUNNING [mkExecution 1 0 COMPLETE []])
           abc_generator (mkGenState [] [])).
  - simpl. constructor.
  - simpl. lia.
Defined.

(** X27. A node recorded by [_update_successful_nodes_cache] is
    short-circuited afterwards.  If the cache has room for the ids written
    (no eviction) and the pipeline uid of the generator is the one node uids
    are built from, then the update leaves the world alone and keeps every
    key of the cache, and [_generate_tasks_for_node] on a node whose id was
    written emits nothing, adds the id to [successful_node_ids] and leaves
    the world alone: no collaborator is consulted. *)
Theorem successful_node_is_short_circuited
  {W Artifacts ExecProperties ExecutorSpec TaskId : Type}
  (env : Collaborators W Artifacts ExecProperties ExecutorSpec TaskId)
  (self : SyncPipelineTaskGenerator) (node_ids_ : gset string)
  (st : GenState W) (node : PipelineNode)
  (successful_node_ids : gset string) :
  (∀ x, x ∈ node_ids_ → x ∈ set_iteration_order env node_ids_) →
  NoDup (successful_nodes_cache st) →
  length (successful_nodes_cache st)
  + length (set_iteration_order env node_ids_) ≤ LRU_MAXSIZE →
  pipeline_uid_from_pipeline env (_pipeline self) = _pipeline_uid self →
  node_id node ∈ node_ids_ →
  let st' := _update_successful_nodes_cache env self node_ids_ st in
  world st' = world st
  ∧ (∀ k, k ∈ successful_nodes_cache st → k ∈ successful_nodes_cache st')
  ∧ ∃ st'',
      _generate_tasks_for_node env self node successful_node_ids st'
      = ([], {[node_id node]} ∪ successful_node_ids, st'')
      ∧ world st'' = world st.
Proof.
  intros Horder Hnd Hroom Huid Hin. simpl.
  unfold _update_successful_nodes_cache.
  destruct (update_cache_fold self (set_iteration_order env node_ids_) st
              Hnd) as (Hw & Hnd' & Hlen' & Hall); [lia|].
  destruct (Hall Hroom) as [Hold Hnew].
  split_and!; [done..|].
  unfold _generate_tasks_for_node, _in_successful_nodes_cache.
  set (st' := fold_left _ _ st) in *.
  destruct (lru_get_ok
              (_node_cache_key self
                 (NodeUid_from_pipeline_node env (_pipeline self) node))
              (successful_nodes_cache st') Hnd') as (_ & _ & _ & Hhit).
  destruct (lru_get _ _) as [hit c]. simpl in Hhit.
  assert (hit = true) as ->.
  { apply Hhit. unfold NodeUid_from_pipeline_node. rewrite Huid.
    by apply Hnew, Horder. }
  eexists. split; [reflexivity|]. done.
Qed.

Lemma successful_node_is_short_circuited_witness :
  let env := demo_env NodeState.RUNNING [] in
  let st' :=
    _update_successful_nodes_cache env abc_generator {["B"]}
      (mkGenState ["w"] []) in
  world st' = ["w"]
  ∧ (∀ k, k ∈ ([] : list CacheKey) → k ∈ successful_nodes_cache st')
  ∧ ∃ st'',
      _generate_tasks_for_node env abc_generator node_B ∅ st'
      = ([], {["B"]} ∪ ∅, st'')
      ∧ world st'' = ["w"].
Proof.
  apply (successful_node_is_short_circuited
           (demo_env NodeState.RUNNING []) abc_generator {["B"]}
           (mkGenState ["w"] []) node_B ∅).
  - intros x Hx. simpl. by apply elem_of_elements.
  - constructor.
  - simpl. rewrite elements_singleton. simpl. unfold LRU_MAXSIZE. lia.
  - reflexivity.
  - simpl. set_solver.
Defined.

(** ** Caching *)

Section caching_facts.
Context {W Artifacts ExecProperties ExecutorSpec TaskId : Type}.
Context (env : Collaborators W Artifacts ExecProperties ExecutorSpec TaskId).
Context (f : Context → W → option Artifacts).

Lemma resolve_without_cache self node node_executions
  (successful_node_ids : gset string) w :
  enable_cache (execution_options node) = false →
  _resolve_inputs_and_generate_tasks_for_node (with_get_cached_outputs env f)
    self node node_executions successful_node_ids w
  = _resolve_inputs_and_generate_tasks_for_node env self node node_executions
      successful_node_ids w.
Proof.
  intros Hoff. unfold _resolve_inputs_and_generate_tasks_for_node.
  rewrite Hoff. reflexivity.
Qed.

Lemma ready_node_without_cache self node (successful_node_ids : gset string)
  w :
  enable_cache (execution_options node) = false →
  generate_tasks_for_ready_node (with_get_cached_outputs env f) self node
    successful_node_ids w
  = generate_tasks_for_ready_node env self node successful_node_ids w.
Proof.
  intros Hoff.
  unfold generate_tasks_for_ready_node, active_execution_or_resolve,
    _ensure_node_services_if_pure, _ensure_node_services_if_mixed,
    NodeUid_from_pipeline_node.
  cbn [with_get_cached_outputs pipeline_state_enter pipeline_state_exit
       get_node_state is_pure_service_node is_mixed_service_node
       ensure_node_services is_task_id_tracked_fn get_executions
       get_latest_execution generate_task_from_active_execution
       exec_node_task_id_from_pipeline_node pipeline_uid_from_pipeline
       str_node_uid].
  destruct (decide _); [done|].
  destruct (is_pure_service_node env _ _);
    [by destruct (ensure_node_services env _ _) as [[] ?]|].
  destruct (is_task_id_tracked_fn env _ _); [done|].
  destruct (get_latest_execution env _) as [latest|].
  - destruct (is_execution_successful latest); [done|].
    destruct (_ && _); [done|].
    destruct (generate_task_from_active_execution env _ _ _ _); [done|].
    by apply resolve_without_cache.
  - destruct (generate_task_from_active_execution env _ _ _ _); [done|].
    by apply resolve_without_cache.
Qed.

Lemma node_without_cache self node (successful_node_ids : gset string)
  (st : GenState W) :
  enable_cache (execution_options node) = false →
  _generate_tasks_for_node (with_get_cached_outputs env f) self node
    successful_node_ids st
  = _generate_tasks_for_node env self node successful_node_ids st.
Proof.
  intros Hoff. unfold _generate_tasks_for_node.
  change (NodeUid_from_pipeline_node (with_get_cached_outputs env f))
    with (NodeUid_from_pipeline_node env).
  destruct (_in_successful_nodes_cache _ _ _) as [[] st1]; [done|].
  destruct (negb _); [done|].
  by rewrite (ready_node_without_cache _ _ _ _ Hoff).
Qed.

Lemma layer_without_cache self layer_nodes
  (l : Locals Artifacts ExecProperties) (st : GenState W) :
  Forall (λ node, enable_cache (execution_options node) = false)
    layer_nodes →
  generate_layer (with_get_cached_outputs env f) self layer_nodes l st
  = generate_layer env self layer_nodes l st.
Proof.
  intros Hall. revert l st.
  induction Hall as [|node rest Hoff _ IH]; intros l st; [done|].
  simpl. rewrite (node_without_cache _ _ _ _ Hoff).
  destruct (_generate_tasks_for_node env self node _ st)
    as [[tasks successful] st1].
  destruct (finalize_pipeline_task _); [done | apply IH].
Qed.

Lemma layers_without_cache self layers
  (l : Locals Artifacts ExecProperties) (st : GenState W) :
  Forall (Forall (λ node, enable_cache (execution_options node) = false))
    layers →
  generate_layers (with_get_cached_outputs env f) self layers l st
  = generate_layers env self layers l st.
Proof.
  intros Hall. revert l st.
  induction Hall as [|layer rest Hoff _ IH]; intros l st; [done|].
  simpl. rewrite (layer_without_cache _ _ _ _ Hoff).
  destruct (generate_layer env self layer l st) as [l1 st1].
  destruct (finalize_pipeline_task l1); [done|].
  change (_update_successful_nodes_cache (with_get_cached_outputs env f))
    with (_update_successful_nodes_cache env).
  apply IH.
Qed.

End caching_facts.

(** X28. When caching is disabled for every node of the layers,
    [generate] never asks for cached outputs: with any other
    [get_cached_outputs] in place of the collaborator it returns the same
    tasks and leaves the same world and successful-nodes cache. *)
Theorem caching_disabled_never_reads_cached_outputs
  {W Artifacts ExecProperties ExecutorSpec TaskId : Type}
  (env : Collaborators W Artifacts ExecProperties ExecutorSpec TaskId)
  (f : Context → W → option Artifacts)
  (self : SyncPipelineTaskGenerator) (st : GenState W) :
  (∀ layers layer node,
     _topsorted_layers env (_pipeline self) = Ok layers →
     layer ∈ layers → node ∈ layer →
     enable_cache (execution_options node) = false) →
  generate (with_get_cached_outputs env f) self st = generate env self st.
Proof.
  intros Hoff. unfold generate.
  change (_topsorted_layers (with_get_cached_outputs env f))
    with (_topsorted_layers env).
  destruct (_topsorted_layers env (_pipeline self)) as [layers|e] eqn:Hl;
    [|done].
  rewrite layers_without_cache; [done|].
  apply Forall_forall. intros layer Hlayer.
  apply Forall_forall. intros node Hnode. by eapply Hoff.
Qed.

Lemma caching_disabled_never_reads_cached_outputs_witness :
  generate
    (with_get_cached_outputs (demo_env NodeState.STARTING [])
       (λ _ _, Some tt))
    abc_generator (mkGenState [] [])
  = generate (demo_env NodeState.STARTING []) abc_generator
      (mkGenState [] []).
Proof.
  apply (caching_disabled_never_reads_cached_outputs
           (demo_env NodeState.STARTING []) (λ _ _, Some tt) abc_generator
           (mkGenState [] [])).
  intros layers layer node Hl Hlayer Hnode.
  vm_compute in Hl. injection Hl as <-.
  repeat (apply elem_of_cons in Hlayer as [->|Hlayer];
          [apply list_elem_of_singleton in Hnode as ->; reflexivity|]).
  by apply elem_of_nil in Hlayer.
Defined.

(** ** A failed latest execution *)



(** ** The task of a fresh resolution *)

(** X30. Every [ExecNodeTask] that
    [_resolve_inputs_and_generate_tasks_for_node] emits is for the execution
    it has just registered with the resolved contexts, input artifacts and
    execution properties; its contexts are the resolved ones followed by the
    cache context, which is computed and attached whether caching is enabled
    or not; and when caching is enabled no cached outputs were found. *)
Theorem fresh_exec_node_task_fields
  {W Artifacts ExecProperties ExecutorSpec TaskId : Type}
  (env : Collaborators W Artifacts ExecProperties ExecutorSpec TaskId)
  (self : SyncPipelineTaskGenerator) (node : PipelineNode)
  (node_executions : list Execution) (successful_node_ids : gset string)
  (w : W) (t : ExecNodeTask Artifacts ExecProperties) :
  ExecNodeTask_ t
  ∈ (_resolve_inputs_and_generate_tasks_for_node env self node
       node_executions successful_node_ids w).1.1 →
  ∃ resolved_info input_artifacts w1 execution w2 cache_context w3,
    generate_resolved_info env node w = (Some resolved_info, w1)
    ∧ ri_input_artifacts resolved_info = Some input_artifacts
    ∧ tg_register_execution env (node_type node) (ri_contexts resolved_info)
        input_artifacts (ri_exec_properties resolved_info) w1
      = (execution, w2)
    ∧ get_cache_context env node (_pipeline self)
        (_get_executor_spec env (_pipeline self) (node_id node))
        input_artifacts
        (generate_output_artifacts env node (_pipeline self)
           (exec_id execution))
        (ri_exec_properties resolved_info) w2
      = (cache_context, w3)
    ∧ ent_node_uid t = NodeUid_from_pipeline_node env (_pipeline self) node
    ∧ ent_execution_id t = exec_id execution
    ∧ ent_contexts t = ri_contexts resolved_info ++ [cache_context]
    ∧ ent_input_artifacts t = input_artifacts
    ∧ ent_exec_properties t = ri_exec_properties resolved_info
    ∧ ent_output_artifacts t
      = generate_output_artifacts env node (_pipeline self)
          (exec_id execution)
    ∧ ent_pipeline t = _pipeline self
    ∧ (enable_cache (execution_options node) = true →
       get_cached_outputs env cache_context w3 = None).
Proof.
  unfold _resolve_inputs_and_generate_tasks_for_node, failure_tasks,
    _abort_task.
  destruct (generate_resolved_info env node w) as [[ri|] w1]; simpl;
    [|by intros [?|?%elem_of_nil]%elem_of_cons].
  destruct (ri_input_artifacts ri) as [ia|] eqn:Hia; simpl;
    [|by intros [?|[?|?%elem_of_nil]%elem_of_cons]%elem_of_cons].
  destruct (tg_register_execution _ _ _ _ _ _) as [e w2] eqn:Hreg.
  destruct (get_cache_context _ _ _ _ _ _ _ _) as [cc w3] eqn:Hcc.
  destruct (if enable_cache (execution_options node)
            then get_cached_outputs env cc w3 else None) eqn:Hcached; simpl;
    [by intros [?|?%elem_of_nil]%elem_of_cons|].
  destruct (_ensure_node_services_if_mixed _ _ _ _) as [ss w4].
  destruct (decide _); simpl;
    [by intros [?|[?|?%elem_of_nil]%elem_of_cons]%elem_of_cons|].
  destruct (get_executor_output_uri _ _ _ _ _) as [u w5].
  destruct (get_stateful_working_directory _ _ _ _ _) as [d w6]. simpl.
  intros [?|[[= ->]|?%elem_of_nil]%elem_of_cons]%elem_of_cons; [done| |done].
  exists ri, ia, w1, e, w2, cc, w3. simpl. split_and!; try done.
  intros Hon. by rewrite Hon in Hcached.
Qed.

Lemma fresh_exec_node_task_fields_witness :
  ∃ resolved_info input_artifacts w1 execution w2 cache_context w3,
    generate_resolved_info (demo_env NodeState.STARTING []) node_of_A []
    = (Some resolved_info, w1)
    ∧ ri_input_artifacts resolved_info = Some input_artifacts
    ∧ tg_register_execution (demo_env NodeState.STARTING [])
        (node_type node_of_A) (ri_contexts resolved_info) input_artifacts
        (ri_exec_properties resolved_info) w1
      = (execution, w2)
    ∧ get_cache_context (demo_env NodeState.STARTING []) node_of_A
        (_pipeline abc_generator)
        (_get_executor_spec (demo_env NodeState.STARTING [])
           (_pipeline abc_generator) (node_id node_of_A))
        input_artifacts
        (generate_output_artifacts (demo_env NodeState.STARTING [])
           node_of_A (_pipeline abc_generator) (exec_id execution))
        (ri_exec_properties resolved_info) w2
      = (cache_context, w3)
    ∧ ent_node_uid demo_task_A
      = NodeUid_from_pipeline_node (demo_env NodeState.STARTING [])
          (_pipeline abc_generator) node_of_A
    ∧ ent_execution_id demo_task_A = exec_id execution
    ∧ ent_contexts demo_task_A
      = ri_contexts resolved_info ++ [cache_context]
    ∧ ent_input_artifacts demo_task_A = input_artifacts
    ∧ ent_exec_properties demo_task_A = ri_exec_properties resolved_info
    ∧ ent_output_artifacts demo_task_A
      = generate_output_artifacts (demo_env NodeState.STARTING [])
          node_of_A (_pipeline abc_generator) (exec_id execution)
    ∧ ent_pipeline demo_task_A = _pipeline abc_generator
    ∧ (enable_cache (execution_options node_of_A) = true →
       get_cached_outputs (demo_env NodeState.STARTING []) cache_context w3
       = None).
Proof.
  apply (fresh_exec_node_task_fields (demo_env NodeState.STARTING [])
           abc_generator node_of_A [] ∅ [] demo_task_A).
  apply list_elem_of_In. vm_compute. tauto.
Defined.
